(** * Symbi-OS: the partnership discovery engine (scripts/compute_matches.js)

    A shallow embedding of the batch job that clears the POTENTIAL_MATCH
    edges of the knowledge graph, recomputes the Jaccard similarity of the
    companies' material links with one Cypher statement and writes the
    qualifying pairs back.

    Modelling conventions.
    - The property graph is a pair of finite maps from node and
      relationship identities to their contents.
    - The properties the statements read on nodes ([id], [name],
      [industry]) are written as strings by the repository's loaders and
      routes; a missing property is Cypher's [null] ([None]).
    - Cypher integers are [Z]; Cypher floats are exact rationals [Q]
      (the statement divides, multiplies by 1000, rounds and compares).
      The store computes in binary64: [Binary64.score] evaluates the
      score expression in that arithmetic, and [binary64_score_201_400]
      shows an input on which the two differ by one thousandth.
    - Console output is kept as structured messages instead of the
      formatted text.

    Around the job, the file also embeds the statement of the insights
    route that reads the edges back, the batching helper of the ingestion
    script and the generator of the dataset the graph is loaded from. *)

From Stdlib Require Import ZArith QArith Qround String Lia Lqa.
From Stdlib Require Floats.SpecFloat.
From stdpp Require Import gmap strings list fin_maps sorting pretty.

(** ** The property graph *)

Inductive Label := Company | WasteMaterial | Regulation.

Inductive RelType :=
  | PRODUCES | CAN_UPCYCLE | REQUIRES_COMPLIANCE
  | COMPLEMENTS | POTENTIAL_MATCH | IS_SEEKING.

#[global] Instance Label_eq_dec : EqDecision Label.
Proof. solve_decision. Defined.

#[global] Instance RelType_eq_dec : EqDecision RelType.
Proof. solve_decision. Defined.

(** Values stored on relationships. *)
Inductive value :=
  | VString (s : string)
  | VInteger (z : Z)
  | VFloat (q : Q)
  | VStrings (l : list string)
  | VDateTime (t : Z).

Record node := Node {
  labels : list Label;
  nprops : gmap string string
}.

Record rel := Rel {
  src : nat;
  typ : RelType;
  dst : nat;
  rprops : gmap string value
}.

Record graph := Graph {
  nodes : gmap nat node;
  rels : gmap nat rel
}.

(** [n.key], [null] when the node or the property is missing. *)
Definition prop (g : graph) (n : nat) (key : string) : option string :=
  nd ← nodes g !! n; nprops nd !! key.

(** [(n:l)] *)
Definition has_label (g : graph) (n : nat) (l : Label) : Prop :=
  ∃ nd, nodes g !! n = Some nd ∧ l ∈ labels nd.

#[global] Instance has_label_dec g n l : Decision (has_label g n l).
Proof.
  unfold has_label. destruct (nodes g !! n) as [nd|] eqn:E.
  - destruct (decide (l ∈ labels nd)) as [Hin|Hnin].
    + left. eauto.
    + right. intros (nd' & Heq & Hin). congruence.
  - right. intros (nd' & Heq & _). congruence.
Defined.

(** ** Cypher's three-valued comparisons *)

Definition cy_lt (a b : option string) : option bool :=
  match a, b with
  | Some x, Some y => Some (String.ltb x y)
  | _, _ => None
  end.

Definition cy_neq (a b : option string) : option bool :=
  match a, b with
  | Some x, Some y => Some (negb (String.eqb x y))
  | _, _ => None
  end.

Definition cy_and (p q : option bool) : option bool :=
  match p, q with
  | Some false, _ | _, Some false => Some false
  | Some true, Some true => Some true
  | _, _ => None
  end.

(** A [WHERE] keeps the rows whose predicate is [true]; [false] and
    [null] both drop the row. *)
Definition where_true (p : option bool) : Prop := p = Some true.

#[global] Instance Qle_dec (x y : Q) : Decision (Qle x y).
Proof.
  destruct (Qle_bool x y) eqn:E.
  - left. by apply Qle_bool_iff.
  - right. intros H. apply Qle_bool_iff in H. congruence.
Defined.

(** [round(x)]: nearest integer, ties towards positive infinity. *)
Definition cy_round (x : Q) : Z := Qfloor (x + (1 # 2)).

(** ** The scoring statement *)

Definition JACCARD_THRESHOLD : Q := 12 # 100.

Definition profile_types : list RelType := [PRODUCES; CAN_UPCYCLE].

(** The relationships of type [PRODUCES|CAN_UPCYCLE], with their
    identities. *)
Definition profile_rels (g : graph) : list (nat * rel) :=
  map_to_list (filter (λ e, typ e.2 ∈ profile_types) (rels g)).

(** [MATCH (c1:Company)-[:PRODUCES|CAN_UPCYCLE]->(w:WasteMaterial)
          <-[:PRODUCES|CAN_UPCYCLE]-(c2:Company)]:
    one row [(c1, w, c2)] per pair of distinct relationships into the
    same material. *)
Definition match_paths (g : graph) : list (nat * nat * nat) :=
  e1 ← profile_rels g;
  e2 ← profile_rels g;
  if decide (e1.1 ≠ e2.1 ∧ dst e1.2 = dst e2.2
             ∧ has_label g (src e1.2) Company
             ∧ has_label g (dst e1.2) WasteMaterial
             ∧ has_label g (src e2.2) Company)
  then [(src e1.2, dst e1.2, src e2.2)] else [].

(** [WHERE c1.id < c2.id AND c1.industry <> c2.industry] *)
Definition pair_filter (g : graph) (a b : nat) : option bool :=
  cy_and (cy_lt (prop g a "id") (prop g b "id"))
         (cy_neq (prop g a "industry") (prop g b "industry")).

Definition filtered_paths (g : graph) : list (nat * nat * nat) :=
  filter (λ p, where_true (pair_filter g p.1.1 p.2)) (match_paths g).

(** [WITH c1, c2, count(DISTINCT w) AS shared,
         collect(DISTINCT w.name) AS sharedNames] *)
Record candidate := Candidate {
  c1 : nat;
  c2 : nat;
  shared : Z;
  sharedNames : list string
}.

#[global] Instance candidate_eq_dec : EqDecision candidate.
Proof. solve_decision. Defined.

Definition group_of (paths : list (nat * nat * nat)) (k : nat * nat) : list nat :=
  (λ p, p.1.2) <$> filter (λ p, (p.1.1, p.2) = k) paths.

Definition aggregate (g : graph) (paths : list (nat * nat * nat)) : list candidate :=
  (λ k, let ws := group_of paths k in
        {| c1 := k.1; c2 := k.2;
           shared := Z.of_nat (length (remove_dups ws));
           sharedNames := remove_dups (omap (λ w, prop g w "name") ws) |})
  <$> remove_dups ((λ p, (p.1.1, p.2)) <$> paths).

Definition candidates (g : graph) : list candidate :=
  aggregate g (filtered_paths g).

(** [size([(c)-[:PRODUCES|CAN_UPCYCLE]->(w1:WasteMaterial) | w1])]:
    the pattern comprehension yields one element per matching
    relationship. *)
Definition links (g : graph) (c : nat) : list nat :=
  (λ e, dst e.2)
  <$> filter (λ e, src e.2 = c ∧ has_label g (dst e.2) WasteMaterial) (profile_rels g).

Definition total (g : graph) (c : nat) : Z := Z.of_nat (length (links g c)).

Definition c1Total (g : graph) (k : candidate) : Z := total g (c1 k).

Definition c2Total (g : graph) (k : candidate) : Z := total g (c2 k).

(** [toFloat(shared) / (c1Total + c2Total - shared) AS jaccard] *)
Definition denominator (g : graph) (k : candidate) : Z :=
  c1Total g k + c2Total g k - shared k.

Definition jaccard (g : graph) (k : candidate) : Q :=
  (inject_Z (shared k) / inject_Z (denominator g k))%Q.

(** [WHERE jaccard >= $threshold] *)
Definition retained (g : graph) : list candidate :=
  filter (λ k, Qle JACCARD_THRESHOLD (jaccard g k)) (candidates g).

(** [SET r.score = round(jaccard * 1000) / 1000.0] *)
Definition score (g : graph) (k : candidate) : Q :=
  (inject_Z (cy_round (jaccard g k * 1000)) / 1000)%Q.

(** [SET r.score = ..., r.shared_materials = shared,
        r.shared_names = sharedNames[0..5], r.computed_at = datetime()] *)
Definition set_match_props (g : graph) (k : candidate) (now : Z)
    (ps : gmap string value) : gmap string value :=
  <["computed_at" := VDateTime now]>
    (<["shared_names" := VStrings (take 5 (sharedNames k))]>
      (<["shared_materials" := VInteger (shared k)]>
        (<["score" := VFloat (score g k)]> ps))).

Definition set_match (g : graph) (k : candidate) (now : Z) (r : rel) : rel :=
  {| src := src r; typ := typ r; dst := dst r;
     rprops := set_match_props g k now (rprops r) |}.

(** The relationships bound by [(a)-[r:POTENTIAL_MATCH]->(b)]. *)
Definition matches_between (rs : gmap nat rel) (a b : nat) : list nat :=
  fst <$> map_to_list
    (filter (λ e, src e.2 = a ∧ typ e.2 = POTENTIAL_MATCH ∧ dst e.2 = b) rs).

(** The relationship [MERGE] creates for a row, with its properties set. *)
Definition new_match (g : graph) (k : candidate) (now : Z) : rel :=
  set_match g k now
    {| src := c1 k; typ := POTENTIAL_MATCH; dst := c2 k; rprops := ∅ |}.

(** [MERGE (c1)-[r:POTENTIAL_MATCH]->(c2) SET ...] for one row: [r] is
    bound to every existing relationship of the pattern, or to a newly
    created one when there is none.  [g] is the graph the row was read
    from, [rs] the relationships as written so far; the identities bound
    to [r] are returned with the new relationships. *)
Definition merge_match (g : graph) (now : Z) (rs : gmap nat rel) (k : candidate)
    : gmap nat rel * list nat :=
  match matches_between rs (c1 k) (c2 k) with
  | [] => let i := fresh (dom rs) in (<[i := new_match g k now]> rs, [i])
  | ids => (foldr (λ i m, alter (set_match g k now) i m) rs ids, ids)
  end.

(** [RETURN c1.name AS company1, c1.industry AS industry1,
           c2.name AS company2, c2.industry AS industry2,
           r.score AS score, r.shared_materials AS shared] *)
Record match_record := MatchRecord {
  company1 : option string;
  industry1 : option string;
  company2 : option string;
  industry2 : option string;
  rec_score : Q;
  rec_shared : Z
}.

Definition return_record (g : graph) (k : candidate) : match_record :=
  {| company1 := prop g (c1 k) "name";
     industry1 := prop g (c1 k) "industry";
     company2 := prop g (c2 k) "name";
     industry2 := prop g (c2 k) "industry";
     rec_score := score g k;
     rec_shared := shared k |}.

(** [ORDER BY score DESC] *)
Fixpoint insert_desc (r : match_record) (l : list match_record) : list match_record :=
  match l with
  | [] => [r]
  | r' :: l' =>
      if decide (Qle (rec_score r') (rec_score r)) then r :: l
      else r' :: insert_desc r l'
  end.

Definition order_by_score_desc (l : list match_record) : list match_record :=
  foldr insert_desc [] l.

(** The write part of the statement, row by row; one record is returned
    per relationship bound to [r]. *)
Fixpoint write_matches (g : graph) (now : Z) (rs : gmap nat rel) (ks : list candidate)
    : gmap nat rel * list match_record :=
  match ks with
  | [] => (rs, [])
  | k :: ks' =>
      let '(rs1, bound) := merge_match g now rs k in
      let '(rs2, recs) := write_matches g now rs1 ks' in
      (rs2, ((λ _, return_record g k) <$> bound) ++ recs)
  end.

(** ** The three statements of [main] *)

(** [MATCH ()-[r:POTENTIAL_MATCH]->() DELETE r RETURN count(r) AS deleted] *)
Definition delete_matches (g : graph) : graph * Z :=
  ({| nodes := nodes g;
      rels := filter (λ e, typ e.2 ≠ POTENTIAL_MATCH) (rels g) |},
   Z.of_nat (size (filter (λ e : nat * rel, typ e.2 = POTENTIAL_MATCH) (rels g)))).

(** The scoring statement as a whole. *)
Definition compute_matches (g : graph) (now : Z) : graph * list match_record :=
  let '(rs, recs) := write_matches g now (rels g) (retained g) in
  ({| nodes := nodes g; rels := rs |}, order_by_score_desc recs).

(** [MATCH ()-[r:POTENTIAL_MATCH]->()
     RETURN count(r) AS total, avg(r.score) AS avgScore]:
    [avg] skips nulls and is [null] when nothing is left to average. *)
Definition match_scores (g : graph) : list Q :=
  omap (λ e, match rprops e.2 !! "score" with
             | Some (VFloat q) => Some q
             | _ => None
             end)
       (map_to_list (filter (λ e, typ e.2 = POTENTIAL_MATCH) (rels g))).

Definition Qsum (l : list Q) : Q := foldr Qplus 0%Q l.

Definition verify_matches (g : graph) : Z * option Q :=
  (Z.of_nat (size (filter (λ e : nat * rel, typ e.2 = POTENTIAL_MATCH) (rels g))),
   match match_scores g with
   | [] => None
   | qs => Some (Qsum qs / inject_Z (Z.of_nat (length qs)))%Q
   end).

(** ** The process: environment, effects and [main] *)

(** What the process finds around it: the three connection variables
    (after [dotenv]), whether the store answers [verifyConnectivity], and
    for which endpoints the store refuses to write an edge.  A statement
    sent with [session.run] is one auto-commit transaction: when a write
    in it is refused the statement fails as a whole and leaves the graph
    as it was. *)
Record env := Env {
  NEO4J_URI : option string;
  NEO4J_USERNAME : option string;
  NEO4J_PASSWORD : option string;
  reachable : bool;
  rejects : nat → nat → bool
}.

Inductive statement := DeleteStatement | MatchStatement (threshold : Q) | VerifyStatement.

Inductive error :=
  | ServiceUnavailable
  | WriteRefused (a b : nat)
  | NullToNumber.

Inductive message :=
  | MissingEnvVars
  | Connecting (uri : option string)
  | Connected
  | Clearing
  | Removed (deleted : Z)
  | Computing (threshold : Q)
  | Found (n : nat)
  | TopTen
  | TopMatch (r : match_record)
  | Verifying
  | Verified (total : Z) (avgScore : Q)
  | Complete
  | ConnectionClosed
  | Fatal (err : error).

Inductive event :=
  | ConsoleLog (m : message)
  | ConsoleError (m : message)
  | DriverCreated
  | VerifyConnectivity
  | SessionOpened
  | SessionRun (q : statement)
  | SessionClosed
  | DriverClosed
  | ProcessExit (code : Z).

(** JavaScript's [!x] on a value of [process.env]. *)
Definition falsy (v : option string) : bool :=
  match v with
  | None => true
  | Some s => if decide (s = "") then true else false
  end.

(** Computations of the job: they read and write the graph, append to
    the trace of effects, and return or throw. *)
Inductive result (A : Type) := Returned (a : A) | Thrown (err : error).
Arguments Returned {A} a.
Arguments Thrown {A} err.

Definition world : Type := graph * list event.

Definition M (A : Type) : Type := world → result A * world.

#[global] Instance M_ret : MRet M := λ A a w, (Returned a, w).

#[global] Instance M_bind : MBind M := λ A B f m w,
  match m w with
  | (Returned a, w') => f a w'
  | (Thrown err, w') => (Thrown err, w')
  end.

Definition throw {A} (err : error) : M A := λ w, (Thrown err, w).

Definition emit (ev : event) : M unit := λ w, (Returned (), (w.1, w.2 ++ [ev])).

Definition console_log (m : message) : M unit := emit (ConsoleLog m).

(** [try { body } finally { cleanup }] *)
Definition try_finally {A} (body : M A) (cleanup : M unit) : M A := λ w,
  match body w with
  | (res, w') =>
      match cleanup w' with
      | (Returned _, w'') => (res, w'')
      | (Thrown err, w'') => (Thrown err, w'')
      end
  end.

Fixpoint for_each {A} (l : list A) (body : A → M unit) : M unit :=
  match l with
  | [] => mret ()
  | x :: l' => body x ;; for_each l' body
  end.

Definition verifyConnectivity (e : env) : M unit :=
  emit VerifyConnectivity ;;
  if reachable e then mret () else throw ServiceUnavailable.

Definition run_delete : M Z := λ w,
  let '(g', deleted) := delete_matches w.1 in
  (Returned deleted, (g', w.2 ++ [SessionRun DeleteStatement])).

Definition run_match (e : env) (now : Z) : M (list match_record) := λ w,
  let w' := (w.1, w.2 ++ [SessionRun (MatchStatement JACCARD_THRESHOLD)]) in
  match filter (λ k, rejects e (c1 k) (c2 k) = true) (retained w.1) with
  | k :: _ => (Thrown (WriteRefused (c1 k) (c2 k)), w')
  | [] =>
      let '(g', recs) := compute_matches w.1 now in
      (Returned recs, (g', w'.2))
  end.

Definition run_verify : M (Z * option Q) := λ w,
  (Returned (verify_matches w.1), (w.1, w.2 ++ [SessionRun VerifyStatement])).

(** [avgScore.toNumber()] on the value the driver hands back:
    [typeof null] is ["object"], so a [null] average takes the
    [toNumber] branch and throws. *)
Definition avg_to_number (avgScore : option Q) : M Q :=
  match avgScore with
  | Some q => mret q
  | None => throw NullToNumber
  end.

(** [if (matches.length > 0) { ... for (const rec of matches.slice(0, 10)) ... }] *)
Definition log_top_matches (matches : list match_record) : M unit :=
  if decide (0 < length matches)
  then console_log TopTen ;;
       for_each (take 10 matches) (λ r, console_log (TopMatch r))
  else mret ().

Definition main (e : env) (now : Z) : M unit :=
  console_log (Connecting (NEO4J_URI e)) ;;
  emit DriverCreated ;;
  verifyConnectivity e ;;
  console_log Connected ;;
  emit SessionOpened ;;
  try_finally
    (console_log Clearing ;;
     deleted ← run_delete ;
     console_log (Removed deleted) ;;
     console_log (Computing JACCARD_THRESHOLD) ;;
     matches ← run_match e now ;
     console_log (Found (length matches)) ;;
     log_top_matches matches ;;
     console_log Verifying ;;
     v ← run_verify ;
     avg ← avg_to_number v.2 ;
     console_log (Verified v.1 avg) ;;
     console_log Complete)
    (emit SessionClosed ;;
     emit DriverClosed ;;
     console_log ConnectionClosed).

(** The script from top to bottom: the environment check, then
    [main().catch(...)]. *)
Record outcome := Outcome {
  trace : list event;
  exit_code : Z;
  final : graph
}.

Definition compute_matches_js (e : env) (g : graph) (now : Z) : outcome :=
  if falsy (NEO4J_URI e) || falsy (NEO4J_USERNAME e) || falsy (NEO4J_PASSWORD e)
  then {| trace := [ConsoleError MissingEnvVars; ProcessExit 1];
          exit_code := 1; final := g |}
  else
    match main e now (g, []) with
    | (Returned _, (g', tr)) => {| trace := tr; exit_code := 0; final := g' |}
    | (Thrown err, (g', tr)) =>
        {| trace := tr ++ [ConsoleError (Fatal err); ProcessExit 1];
           exit_code := 1; final := g' |}
    end.

(** ** The specification's vocabulary *)

(** The material profile of [x]: the set of distinct WasteMaterial nodes
    reachable from [x] by a PRODUCES or CAN_UPCYCLE relationship. *)
Definition profile (g : graph) (x : nat) : gset nat :=
  list_to_set
    ((λ e, dst e.2)
     <$> filter (λ e, src e.2 = x
                      ∧ (typ e.2 = PRODUCES ∨ typ e.2 = CAN_UPCYCLE)
                      ∧ has_label g (dst e.2) WasteMaterial)
                (map_to_list (rels g))).

Definition intersection_size (g : graph) (a b : nat) : Z :=
  Z.of_nat (size (profile g a ∩ profile g b)).

Definition profile_size (g : graph) (x : nat) : Z := Z.of_nat (size (profile g x)).

(** [|P(A) ∩ P(B)| / (|P(A)| + |P(B)| − |P(A) ∩ P(B)|)] *)
Definition jaccard_similarity (g : graph) (a b : nat) : Q :=
  (inject_Z (intersection_size g a b)
   / inject_Z (profile_size g a + profile_size g b - intersection_size g a b))%Q.

(** Rounding to three decimal places. *)
Definition round3 (x : Q) : Q := (inject_Z (Qfloor (x * 1000 + (1 # 2))) / 1000)%Q.

(** No material is linked to [x] by more than one relationship. *)
Definition single_links (g : graph) (x : nat) : Prop := NoDup (links g x).

(** A persisted PotentialMatch edge. *)
Definition match_edge (g : graph) (i : nat) (r : rel) : Prop :=
  rels g !! i = Some r ∧ typ r = POTENTIAL_MATCH.

(** No PotentialMatch edge joins [a] and [b], in either direction. *)
Definition no_match_between (g : graph) (a b : nat) : Prop :=
  ∀ i r, match_edge g i r →
    ¬ ((src r = a ∧ dst r = b) ∨ (src r = b ∧ dst r = a)).

(** The three connection variables are set. *)
Definition configured (e : env) : Prop :=
  falsy (NEO4J_URI e) = false ∧ falsy (NEO4J_USERNAME e) = false
  ∧ falsy (NEO4J_PASSWORD e) = false.

(** The run gets as far as its first statement: the variables are set
    and the store answers [verifyConnectivity]. *)
Definition started (e : env) : Prop := configured e ∧ reachable e = true.

Definition key (k : candidate) : nat * nat := (c1 k, c2 k).

(** The rows whose write the store refuses. *)
Definition refused (e : env) (g : graph) : list candidate :=
  filter (λ k, rejects e (c1 k) (c2 k) = true) (retained g).

(** The store refuses no write. *)
Definition accepting (e : env) : Prop := ∀ a b, rejects e a b = false.

(** An edge joins the unordered pair {a, b}. *)
Definition joins (r : rel) (a b : nat) : Prop :=
  (src r = a ∧ dst r = b) ∨ (src r = b ∧ dst r = a).

(** The (pair, score, shared_materials) tuples of the persisted edges. *)
Definition match_tuples (g : graph) : list (nat * nat * option value * option value) :=
  (λ e : nat * rel,
     (src e.2, dst e.2, rprops e.2 !! "score", rprops e.2 !! "shared_materials"))
  <$> map_to_list (filter (λ e : nat * rel, typ e.2 = POTENTIAL_MATCH) (rels g)).


Definition top_events (matches : list match_record) : list event :=
  if decide (0 < length matches)
  then ConsoleLog TopTen :: ((λ r, ConsoleLog (TopMatch r)) <$> take 10 matches)
  else [].

(** The effects of a run up to and including the scoring statement, and
    the effects of the [finally] block. *)
Definition opening (e : env) (g : graph) : list event :=
  [ConsoleLog (Connecting (NEO4J_URI e)); DriverCreated; VerifyConnectivity;
   ConsoleLog Connected; SessionOpened; ConsoleLog Clearing;
   SessionRun DeleteStatement; ConsoleLog (Removed (delete_matches g).2);
   ConsoleLog (Computing JACCARD_THRESHOLD);
   SessionRun (MatchStatement JACCARD_THRESHOLD)].

Definition closing : list event :=
  [SessionClosed; DriverClosed; ConsoleLog ConnectionClosed].

(** [rs] is [rs0] with exactly one new edge for each row of [done]. *)
Record written (g : graph) (now : Z) (rs0 : gmap nat rel)
    (done : list candidate) (rs : gmap nat rel) : Prop := {
  written_old : ∀ i r, rs0 !! i = Some r → rs !! i = Some r;
  written_cases : ∀ i r, rs !! i = Some r →
    rs0 !! i = Some r ∨ ∃ k, k ∈ done ∧ r = new_match g k now;
  written_all : ∀ k, k ∈ done → ∃ i, rs !! i = Some (new_match g k now);
  written_inj : ∀ i j r r', rs !! i = Some r → rs !! j = Some r' →
    typ r = POTENTIAL_MATCH → typ r' = POTENTIAL_MATCH →
    src r = src r' → dst r = dst r' → i = j
}.

(** ** Sample data *)

Definition company (id name industry : string) : node :=
  {| labels := [Company];
     nprops := list_to_map [("id", id); ("name", name); ("industry", industry)] |}.

(** A company node whose [industry] property is missing. *)
Definition company_no_industry (id name : string) : node :=
  {| labels := [Company]; nprops := list_to_map [("id", id); ("name", name)] |}.

Definition material (name : string) : node :=
  {| labels := [WasteMaterial]; nprops := list_to_map [("name", name)] |}.

Definition link (a : nat) (t : RelType) (b : nat) : rel :=
  {| src := a; typ := t; dst := b; rprops := ∅ |}.

Definition env_ok : env :=
  {| NEO4J_URI := Some "neo4j+s://db.example";
     NEO4J_USERNAME := Some "neo4j";
     NEO4J_PASSWORD := Some "secret";
     reachable := true;
     rejects := λ _ _, false |}.

(** A store that refuses to write the edge between nodes 1 and 2. *)
Definition env_refusing : env :=
  {| NEO4J_URI := Some "neo4j+s://db.example";
     NEO4J_USERNAME := Some "neo4j";
     NEO4J_PASSWORD := Some "secret";
     reachable := true;
     rejects := λ a b, bool_decide (a = 1 ∧ b = 2) |}.

Definition env_no_password : env :=
  {| NEO4J_URI := Some "neo4j+s://db.example";
     NEO4J_USERNAME := Some "neo4j";
     NEO4J_PASSWORD := None;
     reachable := true;
     rejects := λ _ _, false |}.

(** SteelCo {SlagA, SlagB}, ChemCo {SlagA, Acid1}, SteelCo2 {SlagA, SlagB}. *)
Definition steel_chem : graph :=
  {| nodes := list_to_map
       [(1, company "c1" "SteelCo" "Steel"); (2, company "c2" "ChemCo" "Chemicals");
        (3, company "c3" "SteelCo2" "Steel");
        (10, material "SlagA"); (11, material "SlagB"); (12, material "Acid1")];
     rels := list_to_map
       [(0, link 1 PRODUCES 10); (1, link 1 PRODUCES 11);
        (2, link 2 PRODUCES 10); (3, link 2 PRODUCES 12);
        (4, link 3 PRODUCES 10); (5, link 3 PRODUCES 11)] |}.

(** Two companies with the profiles {m1, m2, m3} and {m2, m3, m4}. *)
Definition half_shared : graph :=
  {| nodes := list_to_map
       [(1, company "a" "Alpha" "Steel"); (2, company "b" "Beta" "Cement");
        (11, material "m1"); (12, material "m2"); (13, material "m3");
        (14, material "m4")];
     rels := list_to_map
       [(0, link 1 PRODUCES 11); (1, link 1 PRODUCES 12); (2, link 1 CAN_UPCYCLE 13);
        (3, link 2 CAN_UPCYCLE 12); (4, link 2 PRODUCES 13); (5, link 2 PRODUCES 14)] |}.

(** Two companies that share six materials. *)
Definition six_shared : graph :=
  {| nodes := list_to_map
       [(1, company "a" "Alpha" "Steel"); (2, company "b" "Beta" "Cement");
        (11, material "m1"); (12, material "m2"); (13, material "m3");
        (14, material "m4"); (15, material "m5"); (16, material "m6")];
     rels := list_to_map
       [(0, link 1 PRODUCES 11); (1, link 1 PRODUCES 12); (2, link 1 PRODUCES 13);
        (3, link 1 PRODUCES 14); (4, link 1 PRODUCES 15); (5, link 1 PRODUCES 16);
        (6, link 2 CAN_UPCYCLE 11); (7, link 2 CAN_UPCYCLE 12);
        (8, link 2 CAN_UPCYCLE 13); (9, link 2 CAN_UPCYCLE 14);
        (10, link 2 CAN_UPCYCLE 15); (11, link 2 CAN_UPCYCLE 16)] |}.

(** Alpha both produces and can upcycle its one material, which Beta
    produces too. *)
Definition double_link : graph :=
  {| nodes := list_to_map
       [(1, company "a" "Alpha" "Steel"); (2, company "b" "Beta" "Cement");
        (11, material "m1")];
     rels := list_to_map
       [(0, link 1 PRODUCES 11); (1, link 1 CAN_UPCYCLE 11); (2, link 2 PRODUCES 11)] |}.

(** Alpha has no industry; it shares a material with Beta and Gamma,
    which share it with each other. *)
Definition missing_industry : graph :=
  {| nodes := list_to_map
       [(1, company_no_industry "a" "Alpha"); (2, company "b" "Beta" "Cement");
        (3, company "c" "Gamma" "Steel"); (4, company_no_industry "d" "Delta");
        (11, material "m1")];
     rels := list_to_map
       [(0, link 1 PRODUCES 11); (1, link 2 PRODUCES 11); (2, link 3 CAN_UPCYCLE 11);
        (3, link 4 PRODUCES 11)] |}.

(** Alpha has no industry and is the only company sharing a material
    with Beta. *)
Definition lone_pair : graph :=
  {| nodes := list_to_map
       [(1, company_no_industry "a" "Alpha"); (2, company "b" "Beta" "Cement");
        (11, material "m1")];
     rels := list_to_map [(0, link 1 PRODUCES 11); (1, link 2 PRODUCES 11)] |}.

(** [lone_pair] with an industry on Alpha. *)
Definition lone_pair_with_industry : graph :=
  {| nodes := list_to_map
       [(1, company "a" "Alpha" "Steel"); (2, company "b" "Beta" "Cement");
        (11, material "m1")];
     rels := rels lone_pair |}.

(** A graph that still carries an edge of an earlier run between two
    companies that no longer share a material. *)
Definition stale_match : graph :=
  {| nodes := nodes steel_chem;
     rels := <[9 := {| src := 1; typ := POTENTIAL_MATCH; dst := 3;
                        rprops := {["score" := VFloat (1 # 1)]} |}]>
             (list_to_map
               [(0, link 1 PRODUCES 10); (2, link 2 PRODUCES 10); (5, link 3 PRODUCES 11)]) |}.

Definition six_row : candidate :=
  {| c1 := 1; c2 := 2; shared := 6;
     sharedNames := ["m5"; "m3"; "m6"; "m4"; "m2"; "m1"] |}.

Definition half_row : candidate :=
  {| c1 := 1; c2 := 2; shared := 2; sharedNames := ["m3"; "m2"] |}.

(** ** Further sample data *)

(** A store that does not answer. *)
Definition env_unreachable : env :=
  {| NEO4J_URI := Some "neo4j+s://db.example";
     NEO4J_USERNAME := Some "neo4j";
     NEO4J_PASSWORD := Some "secret";
     reachable := false;
     rejects := λ _ _, false |}.

(** NEO4J_USERNAME is set, to the empty string. *)
Definition env_empty_user : env :=
  {| NEO4J_URI := Some "neo4j+s://db.example";
     NEO4J_USERNAME := Some "";
     NEO4J_PASSWORD := Some "secret";
     reachable := true;
     rejects := λ _ _, false |}.

(** What the script does when the environment check fails. *)
Definition exit_unconfigured (g : graph) : outcome :=
  {| trace := [ConsoleError MissingEnvVars; ProcessExit 1];
     exit_code := 1;
     final := g |}.

(** The names of a set of materials (a material without a name gives
    none). *)
Definition material_names (g : graph) (ws : gset nat) : gset string :=
  list_to_set (omap (λ w, prop g w "name") (elements ws)).

(** Records in the order of [ORDER BY score DESC]: the first is not
    below the second. *)
Definition score_desc (a b : match_record) : Prop :=
  Qle (rec_score b) (rec_score a).

(** ** The ingestion helper [batch] (ingest_to_neo4j.js)

    [for (let i = 0; i < arr.length; i += size)
       batches.push(arr.slice(i, i + size))]:
    the loop is run with fuel, one unit per iteration; [None] means the fuel
    ran out before the loop ended. *)
Fixpoint batch_loop {A} (fuel : nat) (arr : list A) (size i : nat)
    (batches : list (list A)) : option (list (list A)) :=
  if decide (i < length arr) then
    match fuel with
    | 0 => None
    | S fuel' =>
        batch_loop fuel' arr size (i + size) (batches ++ [take size (drop i arr)])
    end
  else Some batches.

Definition batch {A} (arr : list A) (size : nat) : option (list (list A)) :=
  batch_loop (length arr) arr size 0 [].

(** The score and the names of a row, under names the next module can
    use beside its own fields. *)
Definition row_score (g : graph) (k : candidate) : Q := score g k.

Definition pair_names (k : candidate) : list string := sharedNames k.

(** ** The statement of the insights route (GET /api/insights)

    [MATCH (c1:Company)-[r:POTENTIAL_MATCH]->(c2:Company)
     RETURN c1.name AS company1, ..., r.score AS score,
            r.shared_materials AS sharedMaterials,
            r.shared_names AS sharedNames
     ORDER BY r.score DESC LIMIT 30].
    Cypher's order on values of any type is a parameter, [score_ge x y]
    saying that [x] may come before [y] in descending order. *)
Module Insights.

Record row := Row {
  company1 : option string;
  industry1 : option string;
  location1 : option string;
  company2 : option string;
  industry2 : option string;
  location2 : option string;
  score : option value;
  sharedMaterials : option value;
  sharedNames : option value
}.

Definition row_of (g : graph) (r : rel) : row :=
  {| company1 := prop g (src r) "name";
     industry1 := prop g (src r) "industry";
     location1 := prop g (src r) "location";
     company2 := prop g (dst r) "name";
     industry2 := prop g (dst r) "industry";
     location2 := prop g (dst r) "location";
     score := rprops r !! "score";
     sharedMaterials := rprops r !! "shared_materials";
     sharedNames := rprops r !! "shared_names" |}.

Definition matched (g : graph) : list row :=
  (λ e : nat * rel, row_of g e.2)
  <$> map_to_list
        (filter (λ e : nat * rel,
                   typ e.2 = POTENTIAL_MATCH ∧ has_label g (src e.2) Company
                   ∧ has_label g (dst e.2) Company)
                (rels g)).

Fixpoint insert_desc (score_ge : option value → option value → bool)
    (x : row) (l : list row) : list row :=
  match l with
  | [] => [x]
  | y :: l' =>
      if score_ge (score x) (score y) then x :: l
      else y :: insert_desc score_ge x l'
  end.

Definition order_by_score_desc (score_ge : option value → option value → bool)
    (l : list row) : list row :=
  foldr (insert_desc score_ge) [] l.

Definition query (score_ge : option value → option value → bool) (g : graph)
    : list row :=
  take 30 (order_by_score_desc score_ge (matched g)).

(** The order on floats, which any order on values has to extend. *)
Definition numeric (score_ge : option value → option value → bool) : Prop :=
  ∀ p q, score_ge (Some (VFloat p)) (Some (VFloat q)) = true ↔ Qle q p.

(** A row shows a score of [q]. *)
Definition scored (x : row) (q : Q) : Prop := score x = Some (VFloat q).

(** [x] may stand before [y]: both show a float and [x]'s is not the
    smaller. *)
Definition before (x y : row) : Prop :=
  ∃ p q, scored x p ∧ scored y q ∧ Qle q p.

(** The row of a retained pair. *)
Definition row_of_pair (g : graph) (k : candidate) : row :=
  {| company1 := prop g (c1 k) "name";
     industry1 := prop g (c1 k) "industry";
     location1 := prop g (c1 k) "location";
     company2 := prop g (c2 k) "name";
     industry2 := prop g (c2 k) "industry";
     location2 := prop g (c2 k) "location";
     score := Some (VFloat (row_score g k));
     sharedMaterials := Some (VInteger (shared k));
     sharedNames := Some (VStrings (take 5 (pair_names k))) |}.

(** One order on values that is numeric on floats. *)
Definition float_ge (x y : option value) : bool :=
  match x, y with
  | Some (VFloat p), Some (VFloat q) => Qle_bool q p
  | _, _ => false
  end.

End Insights.

(** ** The dataset generator (generate_dataset.js)

    The tables of the script ([INDUSTRIES], [REGULATIONS], [UPCYCLE_MAP],
    [COMPLEMENTS_MAP], [LOCATION_COORDS]) are parameters, an object being
    given by its own entries in the order of [Object.entries];
    [Math.random()] is an oracle, the value of its n-th call; numbers are
    exact rationals, the two counters natural numbers.

    [obj[key]] also finds the properties every object inherits; the model
    follows the script on tables that are [plain], where no name looked up
    is the name of such a property, as is the case of the script's own
    tables (on another table [randomPrice] would throw). *)
Module Dataset.

Inductive jval := JString (s : string) | JNumber (q : Q) | JUndefined.

Record node := Node {
  id : string;
  type : Label;
  properties : list (string * jval)
}.

Record edge := Edge {
  edge_id : string;
  edge_type : RelType;
  source : string;
  target : string;
  edge_properties : list (string * jval)
}.

Record company := Company_ {
  c_name : string;
  c_location : string
}.

Record waste := Waste {
  w_name : string;
  toxicity_level : string;
  base_element : string;
  category : string
}.

Record industry := Industry {
  i_name : string;
  carbon_ratings : list string;
  companies : list company;
  wastes : list waste
}.

Record regulation := Regulation_ {
  code : string;
  description : string;
  appliesTo : list string
}.

Record tables := Tables {
  INDUSTRIES : list industry;
  REGULATIONS : list regulation;
  UPCYCLE_MAP : list (string * list string);
  COMPLEMENTS_MAP : list (string * list string);
  LOCATION_COORDS : list (string * (Q * Q));
  random : nat → Q
}.

(** [obj[key]] on an object given by its own entries. *)
Fixpoint get {V} (obj : list (string * V)) (key' : string) : option V :=
  match obj with
  | [] => None
  | (k, v) :: obj' => if decide (k = key') then Some v else get obj' key'
  end.

(** The names of the properties of [Object.prototype]. *)
Definition inherited : list string :=
  ["constructor"; "__defineGetter__"; "__defineSetter__"; "hasOwnProperty";
   "__lookupGetter__"; "__lookupSetter__"; "isPrototypeOf";
   "propertyIsEnumerable"; "toString"; "valueOf"; "__proto__";
   "toLocaleString"].

(** No key the script looks up in [PRICE_RANGES], [CAT_CONTEXT], [TOX_DESC]
    or [LOCATION_COORDS] is an inherited name. *)
Definition plain (T : tables) : bool :=
  forallb
    (λ ind,
       forallb (λ w, bool_decide (category w ∉ inherited)
                     && bool_decide (toxicity_level w ∉ inherited))
               (wastes ind)
       && forallb (λ c, bool_decide (c_location c ∉ inherited)) (companies ind))
    (INDUSTRIES T).

Definition PRICE_RANGES : list (string * (Q * Q)) :=
  [("Metals & Alloys", (50, 5000)); ("Chemicals", (10, 800));
   ("Organic & Bio", (5, 300)); ("E-Waste", (20, 1200));
   ("Polymers & Plastics", (8, 500)); ("Minerals & Construction", (15, 600));
   ("Energy Materials", (30, 2000)); ("Textiles & Fibers", (5, 400))]%Q.

(** [Math.round(x)] *)
Definition round (x : Q) : Z := Qfloor (x + (1 # 2)).

(** [PRICE_RANGES[category] || [10, 500]] *)
Definition price_range (category' : string) : Q * Q :=
  default (10, 500)%Q (get PRICE_RANGES category').

(** [randomPrice(category)], given the value [r] of [Math.random()]. *)
Definition randomPrice (r : Q) (category' : string) : Q :=
  let '(min, max) := price_range category' in
  (inject_Z (round ((min + r * (max - min)) * 100)) / 100)%Q.

(** [randomQuantity()] *)
Definition randomQuantity (r : Q) : Q := inject_Z (1 + Qfloor (r * 500)).

Definition TOX_DESC : list (string * string) :=
  [("low", "relatively low-hazard and safe to handle with standard precautions");
   ("medium", "moderately hazardous, requiring safety protocols and proper ventilation");
   ("high", "highly hazardous, demanding specialized containment, PPE, and regulatory compliance")].

Definition CAT_CONTEXT : list (string * string) :=
  [("Metals & Alloys", "a metallic residue valuable for smelting, alloying, or recovery of base and precious metals through pyrometallurgical or hydrometallurgical processes");
   ("Chemicals", "a chemical compound that can be neutralized, treated, or repurposed in industrial chemical synthesis and solvent recovery");
   ("Organic & Bio", "an organic material suitable for composting, anaerobic digestion, biogas generation, fermentation, or biochemical extraction");
   ("E-Waste", "an electronic waste component containing recoverable precious metals, semiconductor materials, and rare earth elements");
   ("Polymers & Plastics", "a polymer-based material amenable to mechanical recycling, chemical depolymerization, pyrolysis, or use as refuse-derived fuel");
   ("Minerals & Construction", "a mineral byproduct usable as aggregate, supplementary cementitious material, geopolymer precursor, or construction fill");
   ("Energy Materials", "an energy-sector byproduct with potential for heat recovery, fuel blending, carbon capture feedstock, or elemental reclamation");
   ("Textiles & Fibers", "a fiber-based waste suitable for mechanical fiber recovery, thermal insulation manufacture, non-woven textile production, or cellulose extraction")].

(** [s.toLowerCase()], on the letters A to Z: the names of the industries
    are written in ASCII. *)
Definition lower (a : Ascii.ascii) : Ascii.ascii :=
  let n := Ascii.nat_of_ascii a in
  if decide (65 ≤ n ≤ 90) then Ascii.ascii_of_nat (n + 32) else a.

Fixpoint toLowerCase (s : string) : string :=
  match s with
  | EmptyString => EmptyString
  | String a s' => String (lower a) (toLowerCase s')
  end.

(** A string in a template literal; [undefined] prints as its name. *)
Definition shown (v : option string) : string := default "undefined" v.

Definition generateWasteDescription (w : waste) (industryName : string) : string :=
  (w_name w ++ ": An industrial waste stream generated during "
   ++ toLowerCase industryName ++ " operations. "
   ++ "Primarily composed of " ++ base_element w ++ ", this material is "
   ++ shown (get TOX_DESC (toxicity_level w)) ++ ". "
   ++ "Classified under " ++ category w ++ ", it is "
   ++ default "a general industrial byproduct"
        (match get CAT_CONTEXT (category w) with
         | Some c => if decide (c = "") then None else Some c
         | None => None
         end)
   ++ ". "
   ++ "Relevant to circular economy supply chains, industrial symbiosis, zero-waste manufacturing, and waste-to-value conversion programs.")%string.

(** An entry of [companyNodes]. *)
Record company_ref := CompanyRef {
  ref_id : string;
  ref_name : string;
  ref_industry : string
}.

(** The variables of [generate]. *)
Record state := State {
  nodes : list node;
  edges : list edge;
  nodeId : nat;
  edgeId : nat;
  companyNodes : list company_ref;
  wasteNodesByName : gmap string string;
  regulationNodesByCode : gmap string string;
  calls : nat;
  warnings : list string
}.

Definition initial : state :=
  {| nodes := []; edges := []; nodeId := 1; edgeId := 1; companyNodes := [];
     wasteNodesByName := ∅; regulationNodesByCode := ∅; calls := 0;
     warnings := [] |}.

(** [edges.push({ id: `edge_${edgeId}`, type, source, target,
                  properties: { source_label, target_label } }); edgeId++] *)
Definition push_edge (t : RelType) (src' tgt source_label target_label : string)
    (st : state) : state :=
  {| nodes := nodes st;
     edges := edges st
              ++ [{| edge_id := "edge_" ++ pretty (edgeId st);
                     edge_type := t; source := src'; target := tgt;
                     edge_properties := [("source_label", JString source_label);
                                         ("target_label", JString target_label)] |}];
     nodeId := nodeId st;
     edgeId := S (edgeId st);
     companyNodes := companyNodes st;
     wasteNodesByName := wasteNodesByName st;
     regulationNodesByCode := regulationNodesByCode st;
     calls := calls st;
     warnings := warnings st |}%string.

(** The node pushed for a waste not seen before. *)
Definition waste_node (T : tables) (ind : industry) (w : waste) (st : state) : node :=
  {| id := "waste_" ++ pretty (nodeId st);
     type := WasteMaterial;
     properties :=
       [("name", JString (w_name w));
        ("toxicity_level", JString (toxicity_level w));
        ("base_element", JString (base_element w));
        ("category", JString (category w));
        ("description", JString (generateWasteDescription w (i_name ind)));
        ("price", JNumber (randomPrice (random T (calls st)) (category w)));
        ("quantity", JNumber (randomQuantity (random T (S (calls st)))))] |}%string.

(** The body of [for (const waste of industry.wastes)]; the edge's target
    is [wasteNodesByName.get(waste.name)] after the conditional. *)
Definition add_waste (T : tables) (ind : industry) (companyId : string)
    (c : company) (st : state) (w : waste) : state :=
  let '(st1, target') :=
    match wasteNodesByName st !! w_name w with
    | Some wasteId => (st, wasteId)
    | None =>
        let n := waste_node T ind w st in
        ({| nodes := nodes st ++ [n];
            edges := edges st;
            nodeId := S (nodeId st);
            edgeId := edgeId st;
            companyNodes := companyNodes st;
            wasteNodesByName := <[w_name w := id n]> (wasteNodesByName st);
            regulationNodesByCode := regulationNodesByCode st;
            calls := S (S (calls st));
            warnings := warnings st |}, id n)
    end in
  push_edge PRODUCES companyId target' (c_name c) (w_name w) st1.

(** [arr[Math.floor(r * arr.length)]] *)
Definition pick (arr : list string) (r : Q) : jval :=
  let i := Qfloor (r * inject_Z (Z.of_nat (length arr))) in
  if decide (0 <= i)%Z
  then match arr !! Z.to_nat i with Some x => JString x | None => JUndefined end
  else JUndefined.

(** The node pushed for a company. *)
Definition company_node (T : tables) (ind : industry) (c : company) (st : state)
    : node :=
  let carbonRating := pick (carbon_ratings ind) (random T (calls st)) in
  let coords := default (0, 0)%Q (get (LOCATION_COORDS T) (c_location c)) in
  let capacity := (500 + inject_Z (Qfloor (random T (S (calls st)) * 9500)))%Q in
  {| id := "company_" ++ pretty (nodeId st);
     type := Company;
     properties :=
       [("name", JString (c_name c));
        ("industry", JString (i_name ind));
        ("location", JString (c_location c));
        ("carbon_rating", carbonRating);
        ("latitude", JNumber coords.1);
        ("longitude", JNumber coords.2);
        ("capacity", JNumber capacity)] |}%string.

(** The body of [for (const company of industry.companies)]. *)
Definition add_company (T : tables) (ind : industry) (st : state) (c : company)
    : state :=
  let n := company_node T ind c st in
  let st1 :=
    {| nodes := nodes st ++ [n];
       edges := edges st;
       nodeId := S (nodeId st);
       edgeId := edgeId st;
       companyNodes := companyNodes st
                       ++ [{| ref_id := id n; ref_name := c_name c;
                              ref_industry := i_name ind |}];
       wasteNodesByName := wasteNodesByName st;
       regulationNodesByCode := regulationNodesByCode st;
       calls := S (S (calls st));
       warnings := warnings st |} in
  foldl (add_waste T ind (id n) c) st1 (wastes ind).

(** 1. Company and WasteMaterial nodes, PRODUCES edges. *)
Definition add_industry (T : tables) (st : state) (ind : industry) : state :=
  foldl (add_company T ind) st (companies ind).

Definition dquote : string := String (Ascii.ascii_of_nat 34) "".

(** [if (!wasteId)]: no entry, or the empty string. *)
Definition truthy (v : option string) : option string :=
  match v with
  | Some x => if decide (x = "") then None else Some x
  | None => None
  end.

Definition warn (msg : string) (st : state) : state :=
  {| nodes := nodes st; edges := edges st; nodeId := nodeId st; edgeId := edgeId st;
     companyNodes := companyNodes st; wasteNodesByName := wasteNodesByName st;
     regulationNodesByCode := regulationNodesByCode st; calls := calls st;
     warnings := warnings st ++ [msg] |}.

(** The text of [console.warn] for a waste no industry lists. *)
Definition unknown_waste (reg : regulation) (wasteName : string) : string :=
  ("WARNING: Regulation " ++ code reg ++ " references unknown waste "
   ++ dquote ++ wasteName ++ dquote)%string.

(** The node pushed for a regulation. *)
Definition regulation_node (reg : regulation) (st : state) : node :=
  {| id := "reg_" ++ pretty (nodeId st);
     type := Regulation;
     properties := [("code", JString (code reg));
                    ("description", JString (description reg))] |}%string.

(** 2. Regulation nodes, REQUIRES_COMPLIANCE edges. *)
Definition add_regulation (st : state) (reg : regulation) : state :=
  let n := regulation_node reg st in
  let st1 :=
    {| nodes := nodes st ++ [n];
       edges := edges st;
       nodeId := S (nodeId st);
       edgeId := edgeId st;
       companyNodes := companyNodes st;
       wasteNodesByName := wasteNodesByName st;
       regulationNodesByCode := <[code reg := id n]> (regulationNodesByCode st);
       calls := calls st;
       warnings := warnings st |} in
  foldl (λ st' wasteName,
           match truthy (wasteNodesByName st' !! wasteName) with
           | None =>
               warn (unknown_waste reg wasteName) st'
           | Some wasteId =>
               push_edge REQUIRES_COMPLIANCE wasteId (id n) wasteName (code reg) st'
           end)
        st1 (appliesTo reg).

(** 3. CAN_UPCYCLE edges. *)
Definition add_upcycle (st : state) (entry : string * list string) : state :=
  let consumers :=
    filter (λ c, ref_industry c = entry.1) (companyNodes st) in
  foldl (λ st' wasteName,
           match truthy (wasteNodesByName st' !! wasteName) with
           | None => st'
           | Some wasteId =>
               foldl (λ st'' consumer,
                        push_edge CAN_UPCYCLE (ref_id consumer) wasteId
                          (ref_name consumer) wasteName st'')
                     st' consumers
           end)
        st entry.2.

(** 4. COMPLEMENTS edges. *)
Definition add_complements (st : state) (entry : string * list string) : state :=
  match truthy (wasteNodesByName st !! entry.1) with
  | None => st
  | Some sourceId =>
      foldl (λ st' targetName,
               match truthy (wasteNodesByName st' !! targetName) with
               | None => st'
               | Some targetId =>
                   push_edge COMPLEMENTS sourceId targetId entry.1 targetName st'
               end)
            st entry.2
  end.

(** The variables after each of the four loops. *)
Definition phase1 (T : tables) : state :=
  foldl (add_industry T) initial (INDUSTRIES T).

Definition phase2 (T : tables) : state :=
  foldl add_regulation (phase1 T) (REGULATIONS T).

Definition phase3 (T : tables) : state :=
  foldl add_upcycle (phase2 T) (UPCYCLE_MAP T).

Definition run (T : tables) : state :=
  foldl add_complements (phase3 T) (COMPLEMENTS_MAP T).

(** [generate()] returns [{ nodes, edges }]. *)
Definition generate (T : tables) : list node * list edge :=
  (nodes (run T), edges (run T)).

(** *** Vocabulary for the properties of the generated graph *)

(** The prefix of a node's id, by its type. *)
Definition id_prefix (t : Label) : string :=
  match t with
  | Company => "company_"
  | WasteMaterial => "waste_"
  | Regulation => "reg_"
  end.

(** Some node of the list has this id and this type. *)
Definition has_node (ns : list node) (i : string) (t : Label) : Prop :=
  ∃ n, n ∈ ns ∧ id n = i ∧ type n = t.

(** The types of the nodes an edge of each type goes from and to. *)
Definition endpoints (t : RelType) : option (Label * Label) :=
  match t with
  | PRODUCES | CAN_UPCYCLE => Some (Company, WasteMaterial)
  | REQUIRES_COMPLIANCE => Some (WasteMaterial, Regulation)
  | COMPLEMENTS => Some (WasteMaterial, WasteMaterial)
  | POTENTIAL_MATCH | IS_SEEKING => None
  end.

(** Both ends of the edge are nodes of the list, of the types of
    [endpoints]. *)
Definition edge_ok (ns : list node) (e : edge) : Prop :=
  ∃ s t, endpoints (edge_type e) = Some (s, t)
         ∧ has_node ns (source e) s ∧ has_node ns (target e) t.

Definition name_of (n : node) : option jval := get (properties n) "name".

Definition wname (n : node) : string :=
  match name_of n with Some (JString s) => s | _ => "" end.

(** The node an entry of [companyNodes] stands for. *)
Definition is_company (r : company_ref) (n : node) : Prop :=
  type n = Company ∧ id n = ref_id r
  ∧ name_of n = Some (JString (ref_name r))
  ∧ get (properties n) "industry" = Some (JString (ref_industry r)).

(** What holds of the variables of [generate] at every point of the run:
    the counters are one more than the lengths of the arrays, ids are
    numbered in the order of the pushes, [wasteNodesByName] maps exactly
    the names of the WasteMaterial nodes to their ids, and no edge
    dangles. *)
Record inv (st : state) : Prop := Inv {
  inv_nodeId : nodeId st = S (length (nodes st));
  inv_edgeId : edgeId st = S (length (edges st));
  inv_node_ids : ∀ k n, nodes st !! k = Some n →
                 id n = (id_prefix (type n) ++ pretty (S k))%string;
  inv_edge_ids : ∀ k e, edges st !! k = Some e →
                 edge_id e = ("edge_" ++ pretty (S k))%string;
  inv_wastes : ∀ nm wid, wasteNodesByName st !! nm = Some wid ↔
                 ∃ n, n ∈ nodes st ∧ type n = WasteMaterial ∧ id n = wid
                      ∧ name_of n = Some (JString nm);
  inv_named : ∀ n, n ∈ nodes st → type n = WasteMaterial →
              ∃ nm, name_of n = Some (JString nm);
  inv_companies : ∀ r, r ∈ companyNodes st →
                  ∃ n, n ∈ nodes st ∧ is_company r n;
  inv_edges : ∀ e, e ∈ edges st → edge_ok (nodes st) e
}.

(** The run only ever appends to the arrays and adds keys to the map. *)
Record extends (st st' : state) : Prop := Extends {
  ext_nodes : nodes st `prefix_of` nodes st';
  ext_edges : edges st `prefix_of` edges st';
  ext_wastes : wasteNodesByName st ⊆ wasteNodesByName st';
  ext_companies : companyNodes st `prefix_of` companyNodes st'
}.

(** The company [r] has a PRODUCES edge to the node of the waste [w]. *)
Definition produced (st : state) (r : company_ref) (w : waste) : Prop :=
  ∃ wid e, wasteNodesByName st !! w_name w = Some wid ∧ e ∈ edges st
    ∧ edge_type e = PRODUCES ∧ source e = ref_id r ∧ target e = wid.

Definition company_done (st : state) (ind : industry) (c : company) : Prop :=
  ∃ r, r ∈ companyNodes st ∧ ref_name r = c_name c ∧ ref_industry r = i_name ind
       ∧ ∀ w, w ∈ wastes ind → produced st r w.

(** The company [r] has a CAN_UPCYCLE edge to the node [wid]. *)
Definition upcycled (st : state) (r : company_ref) (wid : string) : Prop :=
  ∃ e, e ∈ edges st ∧ edge_type e = CAN_UPCYCLE ∧ source e = ref_id r
       ∧ target e = wid.

Definition count_type (t : Label) (st : state) : nat :=
  length (filter (λ n, type n = t) (nodes st)).

Definition count_edges (t : RelType) (st : state) : nat :=
  length (filter (λ e, edge_type e = t) (edges st)).

Definition consumers_of (nm : string) (st : state) : nat :=
  length (filter (λ c, ref_industry c = nm) (companyNodes st)).

(** The names of the wastes of the industries that have a company: the
    wastes of an industry are only visited inside the loop over its
    companies. *)
Definition waste_names (T : tables) : gset string :=
  list_to_set
    (ind ← INDUSTRIES T;
     if decide (companies ind = []) then [] else w_name <$> wastes ind).

(** The names of a list that are names of such wastes. *)
Definition known (T : tables) (l : list string) : list string :=
  filter (λ wasteName, wasteName ∈ waste_names T) l.

(** The number of companies of the industries of this name. *)
Definition companies_in (T : tables) (industryName : string) : nat :=
  sum_list ((λ ind, if decide (i_name ind = industryName)
                    then length (companies ind) else 0) <$> INDUSTRIES T).

(** The number of edges of each type, read off the tables. *)
Definition expected_edges (T : tables) (t : RelType) : nat :=
  match t with
  | PRODUCES =>
      sum_list ((λ ind, length (companies ind) * length (wastes ind))
                <$> INDUSTRIES T)
  | REQUIRES_COMPLIANCE =>
      sum_list ((λ reg, length (known T (appliesTo reg))) <$> REGULATIONS T)
  | CAN_UPCYCLE =>
      sum_list ((λ entry, length (known T entry.2) * companies_in T entry.1)
                <$> UPCYCLE_MAP T)
  | COMPLEMENTS =>
      sum_list ((λ entry, if decide (entry.1 ∈ waste_names T)
                          then length (known T entry.2) else 0)
                <$> COMPLEMENTS_MAP T)
  | POTENTIAL_MATCH | IS_SEEKING => 0
  end.

(** The warnings of a run, read off the tables. *)
Definition regulation_warnings (T : tables) : list string :=
  reg ← REGULATIONS T;
  wasteName ← appliesTo reg;
  if decide (wasteName ∈ waste_names T) then [] else [unknown_waste reg wasteName].

(** The numbers drawn for a node lie in the ranges the script names:
    a capacity from 500 to 9999, a quantity from 1 to 500, a price in the
    range of the waste's category. *)
Definition in_range (n : node) : Prop :=
  match type n with
  | Company =>
      ∃ q, get (properties n) "capacity" = Some (JNumber q) ∧ (500 <= q <= 9999)%Q
  | WasteMaterial =>
      ∃ cat p q,
        get (properties n) "category" = Some (JString cat)
        ∧ get (properties n) "price" = Some (JNumber p)
        ∧ get (properties n) "quantity" = Some (JNumber q)
        ∧ ((price_range cat).1 <= p <= (price_range cat).2)%Q
        ∧ (1 <= q <= 500)%Q
  | Regulation => True
  end.

(** *** An excerpt of the script's tables *)

Definition arcelor : company :=
  {| c_name := "ArcelorMittal Flat Carbon"; c_location := "Ghent, Belgium" |}.

Definition tata : company :=
  {| c_name := "Tata Steel Europe"; c_location := "Port Talbot, UK" |}.

Definition slag : waste :=
  {| w_name := "Blast Furnace Slag"; toxicity_level := "medium";
     base_element := "Calcium Silicate"; category := "Metals & Alloys" |}.

Definition mill_scale : waste :=
  {| w_name := "Mill Scale"; toxicity_level := "low";
     base_element := "Iron Oxide"; category := "Metals & Alloys" |}.

Definition steel : industry :=
  {| i_name := "Steel Production";
     carbon_ratings := ["C"; "D"];
     companies := [arcelor; tata];
     wastes := [slag; mill_scale] |}.

Definition steel_upcycle : string * list string :=
  ("Steel Production", ["Mill Scale"; "Stamping Metal Scrap"]).

Definition steel_tables : tables :=
  {| INDUSTRIES := [steel];
     REGULATIONS :=
       [{| code := "EU-WFD-2008/98/EC";
           description := "EU Waste Framework Directive";
           appliesTo := ["Blast Furnace Slag"; "Mill Scale"; "Cement Kiln Dust"] |}];
     UPCYCLE_MAP := [steel_upcycle];
     COMPLEMENTS_MAP :=
       [("Blast Furnace Slag", ["Basic Oxygen Furnace Slag"; "Mill Scale"]);
        ("Mill Scale", ["Steelmaking Dust"])];
     LOCATION_COORDS :=
       [("Ghent, Belgium", (5105 # 100, 372 # 100)%Q);
        ("Port Talbot, UK", (5159 # 100, -378 # 100)%Q)];
     random := λ _, (1 # 2)%Q |}.

(** The variables of [generate] when it pushes the node of the first
    waste of [steel_tables]. *)
Definition at_first_waste : state :=
  {| nodes := []; edges := []; nodeId := 2; edgeId := 1; companyNodes := [];
     wasteNodesByName := ∅; regulationNodesByCode := ∅; calls := 2;
     warnings := [] |}.

End Dataset.

(** ** The score in binary64

    Cypher's Float is the IEEE 754 binary64 format.  The expression of
    [SET r.score] is evaluated here with correctly rounded division and
    multiplication, to compare with [score], which computes in exact
    rationals. *)
Module Binary64.

Definition prec : Z := 53.

Definition emax : Z := 1024.

(** [toFloat(n)], and an Integer operand next to a Float. *)
Definition of_Z (z : Z) : SpecFloat.spec_float :=
  SpecFloat.binary_normalize prec emax z 0 false.

Definition div : SpecFloat.spec_float → SpecFloat.spec_float → SpecFloat.spec_float :=
  SpecFloat.SFdiv prec emax.

Definition mul : SpecFloat.spec_float → SpecFloat.spec_float → SpecFloat.spec_float :=
  SpecFloat.SFmul prec emax.

(** The rational a finite Float stands for. *)
Definition value (f : SpecFloat.spec_float) : option Q :=
  match f with
  | SpecFloat.S754_zero _ => Some 0%Q
  | SpecFloat.S754_finite s m e =>
      Some ((if s then -1 else 1) * inject_Z (Z.pos m) * 2 ^ e)%Q
  | _ => None
  end.

(** [round(x)]: the nearest integer, a tie going up, as a Float. *)
Definition round (f : SpecFloat.spec_float) : SpecFloat.spec_float :=
  match value f with
  | Some q => of_Z (cy_round q)
  | None => f
  end.

(** [round(toFloat(shared) / (c1Total + c2Total - shared) * 1000) / 1000.0] *)
Definition score (shared' denominator' : Z) : SpecFloat.spec_float :=
  div (round (mul (div (of_Z shared') (of_Z denominator')) (of_Z 1000)))
      (of_Z 1000).

End Binary64.

(** ** The order on identifiers *)

Lemma ltb_asym (x y : string) : String.ltb x y = true → String.ltb y x = true → False.
Proof.
  unfold String.ltb. rewrite (String.compare_antisym y x).
  destruct (String.compare x y); simpl; intros; discriminate.
Qed.

Lemma ltb_irrefl (x : string) : String.ltb x x = false.
Proof.
  destruct (String.ltb x x) eqn:E; [|done].
  exfalso. eapply ltb_asym; eauto.
Qed.

Lemma ltb_total (x y : string) :
  x ≠ y → String.ltb x y = true ∨ String.ltb y x = true.
Proof.
  intros Hne. unfold String.ltb. rewrite (String.compare_antisym y x).
  destruct (String.compare x y) eqn:E; simpl; [|by left|by right].
  by apply String.compare_eq_iff in E.
Qed.

Lemma pair_filter_true g a b :
  where_true (pair_filter g a b) ↔
  ∃ ia ib xa xb,
    prop g a "id" = Some ia ∧ prop g b "id" = Some ib ∧ String.ltb ia ib = true
    ∧ prop g a "industry" = Some xa ∧ prop g b "industry" = Some xb ∧ xa ≠ xb.
Proof.
  unfold where_true, pair_filter, cy_and, cy_lt, cy_neq. split.
  - destruct (prop g a "id") as [ia|], (prop g b "id") as [ib|],
      (prop g a "industry") as [xa|], (prop g b "industry") as [xb|];
      try (destruct (String.ltb _ _); discriminate);
      try (destruct (String.eqb _ _); discriminate); try discriminate.
    destruct (String.ltb ia ib) eqn:Hlt, (String.eqb xa xb) eqn:Heq;
      try discriminate.
    intros _. exists ia, ib, xa, xb. repeat split; try done.
    by apply String.eqb_neq.
  - intros (ia & ib & xa & xb & -> & -> & -> & -> & -> & Hne).
    apply String.eqb_neq in Hne. by rewrite Hne.
Qed.

Lemma pair_filter_distinct g a b : where_true (pair_filter g a b) → a ≠ b.
Proof.
  intros (ia & ib & xa & xb & Ha & Hb & Hlt & _)%pair_filter_true Heq.
  subst b. rewrite Ha in Hb. injection Hb as ->. by rewrite ltb_irrefl in Hlt.
Qed.

Lemma pair_filter_asym g a b :
  where_true (pair_filter g a b) → where_true (pair_filter g b a) → False.
Proof.
  intros (ia & ib & ? & ? & Ha & Hb & Hlt & _)%pair_filter_true
         (ib' & ia' & ? & ? & Hb' & Ha' & Hlt' & _)%pair_filter_true.
  rewrite Ha in Ha'. rewrite Hb in Hb'. simplify_eq.
  eapply ltb_asym; eauto.
Qed.

(** ** Reading the graph *)

Lemma elem_of_profile_rels g i r :
  (i, r) ∈ profile_rels g ↔
  rels g !! i = Some r ∧ (typ r = PRODUCES ∨ typ r = CAN_UPCYCLE).
Proof.
  unfold profile_rels, profile_types.
  rewrite elem_of_map_to_list, map_lookup_filter_Some. simpl.
  rewrite !elem_of_cons, elem_of_nil. tauto.
Qed.

Lemma elem_of_links g c w :
  w ∈ links g c ↔
  has_label g w WasteMaterial
  ∧ ∃ i r, rels g !! i = Some r ∧ src r = c ∧ dst r = w
           ∧ (typ r = PRODUCES ∨ typ r = CAN_UPCYCLE).
Proof.
  unfold links. rewrite list_elem_of_fmap. split.
  - intros ([i r] & -> & Hin). apply list_elem_of_filter in Hin as [[Hs Hl] Hin].
    apply elem_of_profile_rels in Hin as [Hi Ht]. simpl in *. eauto 10.
  - intros (Hl & i & r & Hi & Hs & Hd & Ht). exists (i, r). simpl.
    split; [done|]. apply list_elem_of_filter. simpl. subst.
    split; [done|]. by apply elem_of_profile_rels.
Qed.

Lemma elem_of_profile g x w :
  w ∈ profile g x ↔
  has_label g w WasteMaterial
  ∧ ∃ i r, rels g !! i = Some r ∧ src r = x ∧ dst r = w
           ∧ (typ r = PRODUCES ∨ typ r = CAN_UPCYCLE).
Proof.
  unfold profile. rewrite elem_of_list_to_set, list_elem_of_fmap. split.
  - intros ([i r] & -> & Hin). apply list_elem_of_filter in Hin as [(Hs & Ht & Hl) Hin].
    apply elem_of_map_to_list in Hin. simpl in *. eauto 10.
  - intros (Hl & i & r & Hi & Hs & Hd & Ht). exists (i, r). simpl.
    split; [done|]. apply list_elem_of_filter. simpl. subst.
    split; [done|]. by apply elem_of_map_to_list.
Qed.

Lemma profile_links g x : profile g x = list_to_set (links g x).
Proof.
  apply set_eq. intros w.
  by rewrite elem_of_list_to_set, elem_of_profile, elem_of_links.
Qed.

Lemma size_list_to_set_le (l : list nat) :
  size (list_to_set (C:=gset nat) l) ≤ length l.
Proof.
  induction l as [|x l IH].
  - rewrite list_to_set_nil, size_empty. simpl. lia.
  - rewrite list_to_set_cons. simpl.
    destruct (decide (x ∈ l)) as [Hin|Hnin].
    + replace ({[x]} ∪ list_to_set l : gset nat) with (list_to_set l : gset nat).
      * lia.
      * apply set_eq. intros y. rewrite elem_of_union, elem_of_singleton.
        rewrite elem_of_list_to_set. split; [by right|]. by intros [->|].
    + rewrite size_union, size_singleton; [lia|].
      apply disjoint_singleton_l. by rewrite elem_of_list_to_set.
Qed.

Lemma profile_size_le_total g x : (profile_size g x <= total g x)%Z.
Proof.
  unfold profile_size, total. rewrite profile_links.
  pose proof (size_list_to_set_le (links g x)). lia.
Qed.

Lemma profile_size_single_links g x :
  single_links g x → profile_size g x = total g x.
Proof.
  intros Hnd. unfold profile_size, total. rewrite profile_links.
  by rewrite size_list_to_set.
Qed.

Lemma elem_of_match_paths g a w b :
  (a, w, b) ∈ match_paths g ↔
  ∃ i1 r1 i2 r2,
    (i1, r1) ∈ profile_rels g ∧ (i2, r2) ∈ profile_rels g ∧ i1 ≠ i2
    ∧ src r1 = a ∧ dst r1 = w ∧ src r2 = b ∧ dst r2 = w
    ∧ has_label g a Company ∧ has_label g w WasteMaterial ∧ has_label g b Company.
Proof.
  unfold match_paths. rewrite list_elem_of_bind. split.
  - intros ([i1 r1] & Hin & H1). apply list_elem_of_bind in Hin as ([i2 r2] & Hin & H2).
    simpl in Hin. case_decide as Hc; [|by apply elem_of_nil in Hin].
    apply list_elem_of_singleton in Hin. simplify_eq.
    destruct Hc as (? & ? & ? & ? & ?). exists i1, r1, i2, r2. eauto 10.
  - intros (i1 & r1 & i2 & r2 & H1 & H2 & Hne & <- & <- & <- & Hd & ? & ? & ?).
    exists (i1, r1). split; [|done]. apply list_elem_of_bind.
    exists (i2, r2). split; [|done]. simpl.
    rewrite decide_True by (repeat split; done). by apply list_elem_of_singleton.
Qed.

(** Between two different companies the matched materials are the
    materials of both profiles. *)
Lemma match_paths_profiles g a w b :
  a ≠ b →
  (a, w, b) ∈ match_paths g ↔
  has_label g a Company ∧ has_label g b Company ∧ w ∈ profile g a ∩ profile g b.
Proof.
  intros Hab. rewrite elem_of_match_paths, elem_of_intersection, !elem_of_profile.
  split.
  - intros (i1 & r1 & i2 & r2 & [H1 T1]%elem_of_profile_rels
            & [H2 T2]%elem_of_profile_rels & _ & ? & ? & ? & ? & ? & ? & ?).
    repeat split; try done; [by exists i1, r1 | by exists i2, r2].
  - intros (Ha & Hb & (Hw & i1 & r1 & H1 & S1 & D1 & T1) & (_ & i2 & r2 & H2 & S2 & D2 & T2)).
    exists i1, r1, i2, r2. rewrite !elem_of_profile_rels.
    repeat split; try done. intros ->. congruence.
Qed.

Lemma elem_of_filtered_paths g a w b :
  (a, w, b) ∈ filtered_paths g ↔
  where_true (pair_filter g a b) ∧ has_label g a Company ∧ has_label g b Company
  ∧ w ∈ profile g a ∩ profile g b.
Proof.
  unfold filtered_paths. rewrite list_elem_of_filter. simpl. split.
  - intros [Hf Hin]. split; [done|].
    by apply match_paths_profiles; [eapply pair_filter_distinct|].
  - intros (Hf & Hrest). split; [done|].
    by apply match_paths_profiles; [eapply pair_filter_distinct|].
Qed.

Lemma elem_of_group_of paths a b w :
  w ∈ group_of paths (a, b) ↔ (a, w, b) ∈ paths.
Proof.
  unfold group_of. rewrite list_elem_of_fmap. split.
  - intros ([[a' w'] b'] & -> & [Hk Hin]%list_elem_of_filter). simpl in *. by simplify_eq.
  - intros Hin. exists (a, w, b). split; [done|]. by apply list_elem_of_filter.
Qed.

(** ** The candidate rows *)

Lemma elem_of_candidates g k :
  k ∈ candidates g ↔
  (∃ w, (c1 k, w, c2 k) ∈ filtered_paths g)
  ∧ shared k = Z.of_nat (length (remove_dups (group_of (filtered_paths g) (key k))))
  ∧ sharedNames k
    = remove_dups (omap (λ w, prop g w "name") (group_of (filtered_paths g) (key k))).
Proof.
  unfold candidates, aggregate. rewrite list_elem_of_fmap. split.
  - intros ([a b] & -> & Hin). simpl. rewrite elem_of_remove_dups in Hin.
    apply list_elem_of_fmap in Hin as ([[a' w] b'] & Heq & Hin). simpl in Heq.
    simplify_eq. eauto.
  - intros ([w Hw] & Hs & Hn). exists (key k). split.
    + rewrite <- Hs, <- Hn. by destruct k.
    + rewrite elem_of_remove_dups. apply list_elem_of_fmap. by exists (c1 k, w, c2 k).
Qed.

Lemma candidate_key_inj g k k' :
  k ∈ candidates g → k' ∈ candidates g → key k = key k' → k = k'.
Proof.
  intros (_ & Hs & Hn)%elem_of_candidates (_ & Hs' & Hn')%elem_of_candidates Hkey.
  rewrite <- Hkey in Hs', Hn'. rewrite <- Hs' in Hs. rewrite <- Hn' in Hn.
  unfold key in Hkey. injection Hkey as H1 H2.
  destruct k, k'. simpl in *. by subst.
Qed.

Lemma candidates_keys_NoDup g : NoDup (key <$> candidates g).
Proof.
  unfold candidates, aggregate. rewrite <- list_fmap_compose.
  erewrite list_fmap_ext; [rewrite list_fmap_id; apply NoDup_remove_dups|].
  by intros _ [a b] _.
Qed.

Lemma candidate_shared g k :
  k ∈ candidates g → shared k = intersection_size g (c1 k) (c2 k).
Proof.
  intros ([w Hw] & -> & _)%elem_of_candidates. unfold intersection_size. f_equal.
  rewrite <- (size_list_to_set (C:=gset nat)) by apply NoDup_remove_dups.
  f_equal. apply set_eq. intros w'.
  rewrite elem_of_list_to_set, elem_of_remove_dups. unfold key.
  rewrite elem_of_group_of, elem_of_filtered_paths.
  apply elem_of_filtered_paths in Hw. tauto.
Qed.

Lemma candidate_filter g k :
  k ∈ candidates g →
  where_true (pair_filter g (c1 k) (c2 k))
  ∧ has_label g (c1 k) Company ∧ has_label g (c2 k) Company.
Proof.
  intros ([w Hw] & _)%elem_of_candidates.
  apply elem_of_filtered_paths in Hw. tauto.
Qed.

Lemma candidate_shared_pos g k : k ∈ candidates g → (1 <= shared k)%Z.
Proof.
  intros Hk. rewrite (candidate_shared g k Hk).
  apply elem_of_candidates in Hk as ([w Hw] & _).
  apply elem_of_filtered_paths in Hw as (_ & _ & _ & Hw).
  unfold intersection_size.
  assert (size (profile g (c1 k) ∩ profile g (c2 k)) ≠ 0); [|lia].
  intros Hz%size_empty_inv. apply Hz in Hw. by apply elem_of_empty in Hw.
Qed.

Lemma intersection_le_l g a b : (intersection_size g a b <= profile_size g a)%Z.
Proof.
  unfold intersection_size, profile_size.
  apply inj_le, subseteq_size. intros w Hw. by apply elem_of_intersection in Hw as [? _].
Qed.

Lemma intersection_le_r g a b : (intersection_size g a b <= profile_size g b)%Z.
Proof.
  unfold intersection_size, profile_size.
  apply inj_le, subseteq_size. intros w Hw. by apply elem_of_intersection in Hw as [_ ?].
Qed.

(** Every pair that passes the filters and shares a material gets a row. *)
Lemma candidates_complete g a b w :
  where_true (pair_filter g a b) → has_label g a Company → has_label g b Company →
  w ∈ profile g a ∩ profile g b →
  ∃ k, k ∈ candidates g ∧ c1 k = a ∧ c2 k = b.
Proof.
  intros Hf Ha Hb Hw.
  exists {| c1 := a; c2 := b;
            shared := Z.of_nat (length (remove_dups (group_of (filtered_paths g) (a, b))));
            sharedNames :=
              remove_dups (omap (λ w, prop g w "name") (group_of (filtered_paths g) (a, b))) |}.
  split; [|done]. apply elem_of_candidates. simpl. split; [|done].
  exists w. by apply elem_of_filtered_paths.
Qed.

(** ** The denominator *)

Lemma candidate_denominator g k :
  k ∈ candidates g →
  (shared k <= denominator g k)%Z ∧ (1 <= denominator g k)%Z
  ∧ (profile_size g (c1 k) + profile_size g (c2 k) - intersection_size g (c1 k) (c2 k)
     <= denominator g k)%Z.
Proof.
  intros Hk. pose proof (candidate_shared_pos g k Hk) as Hpos.
  pose proof (candidate_shared g k Hk) as Hs.
  pose proof (intersection_le_l g (c1 k) (c2 k)).
  pose proof (intersection_le_r g (c1 k) (c2 k)).
  pose proof (profile_size_le_total g (c1 k)).
  pose proof (profile_size_le_total g (c2 k)).
  unfold denominator, c1Total, c2Total. lia.
Qed.

(** ** Writing the edges *)

Lemma matches_between_nil rs a b :
  matches_between rs a b = [] ↔
  ∀ i r, rs !! i = Some r → ¬ (src r = a ∧ typ r = POTENTIAL_MATCH ∧ dst r = b).
Proof.
  unfold matches_between. split.
  - intros Hnil%fmap_nil_inv%map_to_list_empty_iff i r Hi Hr.
    assert (filter (λ e : nat * rel, src e.2 = a ∧ typ e.2 = POTENTIAL_MATCH ∧ dst e.2 = b)
              rs !! i = Some r) as Hin by (by apply map_lookup_filter_Some).
    rewrite Hnil in Hin. by rewrite lookup_empty in Hin.
  - intros Hno.
    replace (filter (λ e : nat * rel, src e.2 = a ∧ typ e.2 = POTENTIAL_MATCH ∧ dst e.2 = b) rs)
      with (∅ : gmap nat rel); [by rewrite map_to_list_empty|].
    symmetry. apply map_empty. intros i.
    destruct (filter _ rs !! i) as [r|] eqn:E; [|done].
    apply map_lookup_filter_Some in E as [Hi Hr]. by destruct (Hno i r Hi).
Qed.

Lemma new_match_src g k now : src (new_match g k now) = c1 k.
Proof. done. Qed.

Lemma new_match_dst g k now : dst (new_match g k now) = c2 k.
Proof. done. Qed.

Lemma new_match_typ g k now : typ (new_match g k now) = POTENTIAL_MATCH.
Proof. done. Qed.

Section writes.
Variables (g : graph) (now : Z) (rs0 : gmap nat rel).
Hypothesis rs0_clear : ∀ i r, rs0 !! i = Some r → typ r ≠ POTENTIAL_MATCH.

Lemma written_nil : written g now rs0 [] rs0.
Proof using rs0_clear.
  split.
  - done.
  - intros i r Hi. by left.
  - intros k Hk. by apply elem_of_nil in Hk.
  - intros i j r r' Hi _ Ht. by destruct (rs0_clear i r Hi).
Qed.

Lemma written_no_match done rs k :
  written g now rs0 done rs → key k ∉ key <$> done →
  matches_between rs (c1 k) (c2 k) = [].
Proof using rs0_clear.
  intros W Hk. apply matches_between_nil. intros i r Hi (Hs & Ht & Hd).
  destruct (written_cases _ _ _ _ _ W i r Hi) as [Hold|(k' & Hk' & ->)].
  - by destruct (rs0_clear i r Hold).
  - apply Hk. apply list_elem_of_fmap. exists k'. split; [|done].
    unfold key. by rewrite <- Hs, <- Hd.
Qed.

Lemma written_step done rs k :
  written g now rs0 done rs → key k ∉ key <$> done →
  written g now rs0 (done ++ [k]) (merge_match g now rs k).1.
Proof using rs0_clear.
  intros W Hk. unfold merge_match. rewrite (written_no_match done rs k W Hk). simpl.
  pose proof (is_fresh (dom rs)) as Hfresh. apply not_elem_of_dom in Hfresh.
  set (i0 := fresh (dom rs)) in *.
  split.
  - intros i r Hi. apply (written_old _ _ _ _ _ W) in Hi.
    rewrite lookup_insert_ne; [done|]. intros <-. congruence.
  - intros i r [[Hi1 Hi2]|[Hne Hi]]%lookup_insert_Some.
    + subst i r. right. exists k. split; [|done]. apply elem_of_app. right.
      by apply list_elem_of_singleton.
    + destruct (written_cases _ _ _ _ _ W i r Hi) as [?|(k' & ? & ?)]; [by left|].
      right. exists k'. split; [|done]. apply elem_of_app. by left.
  - intros k' [Hk' | Hk']%elem_of_app; [|apply list_elem_of_singleton in Hk'; subst k'].
    + destruct (written_all _ _ _ _ _ W k' Hk') as [i Hi]. exists i.
      rewrite lookup_insert_ne; [done|]. intros <-. congruence.
    + exists i0. by rewrite lookup_insert_eq.
  - assert (∀ i r, rs !! i = Some r → typ r = POTENTIAL_MATCH →
                   (src r, dst r) ≠ key k) as Hother.
    { intros i r Hi Ht Heq.
      destruct (written_cases _ _ _ _ _ W i r Hi) as [Hold|(k' & Hk' & ->)].
      - by destruct (rs0_clear i r Hold).
      - apply Hk. apply list_elem_of_fmap. by exists k'. }
    intros i j r r' [[Hi1 Hi2]|[Hni Hi]]%lookup_insert_Some
           [[Hj1 Hj2]|[Hnj Hj]]%lookup_insert_Some Ht Ht' Hs Hd;
      try subst i r; try subst j r'; [done| | |].
    + destruct (Hother j r' Hj Ht'). unfold key.
      by rewrite <- Hs, <- Hd.
    + destruct (Hother i r Hi Ht). unfold key.
      by rewrite Hs, Hd.
    + by apply (written_inj _ _ _ _ _ W i j r r').
Qed.

Lemma written_write_matches ks : ∀ done rs,
  NoDup (key <$> (done ++ ks)) → written g now rs0 done rs →
  written g now rs0 (done ++ ks) (write_matches g now rs ks).1.
Proof using rs0_clear.
  induction ks as [|k ks IH]; intros done rs Hnd W; simpl.
  - by rewrite app_nil_r.
  - assert (key k ∉ key <$> done) as Hk.
    { rewrite fmap_app in Hnd. apply NoDup_app in Hnd as (_ & Hdis & _).
      intros Hin. apply (Hdis _ Hin). rewrite fmap_cons. apply elem_of_cons. by left. }
    pose proof (written_step done rs k W Hk) as W'.
    destruct (merge_match g now rs k) as [rs1 bound] eqn:E1. simpl in W'.
    specialize (IH (done ++ [k]) rs1).
    destruct (write_matches g now rs1 ks) as [rs2 recs] eqn:E2. simpl in *.
    rewrite <- app_assoc in IH. simpl in IH. by apply IH.
Qed.
End writes.

Lemma retained_candidates g k : k ∈ retained g → k ∈ candidates g.
Proof. unfold retained. by intros [_ ?]%list_elem_of_filter. Qed.

Lemma retained_keys_NoDup g : NoDup (key <$> retained g).
Proof.
  eapply sublist_NoDup; [apply candidates_keys_NoDup|].
  unfold retained. apply fmap_sublist, sublist_filter.
Qed.

Lemma delete_matches_rels g i r :
  rels (delete_matches g).1 !! i = Some r ↔ rels g !! i = Some r ∧ typ r ≠ POTENTIAL_MATCH.
Proof. simpl. by rewrite map_lookup_filter_Some. Qed.

Lemma compute_matches_nodes g now : nodes (compute_matches g now).1 = nodes g.
Proof. unfold compute_matches. by destruct (write_matches _ _ _ _). Qed.

Lemma compute_matches_written g now :
  (∀ i r, rels g !! i = Some r → typ r ≠ POTENTIAL_MATCH) →
  written g now (rels g) (retained g) (rels (compute_matches g now).1).
Proof.
  intros Hclear.
  pose proof (written_write_matches g now (rels g) Hclear (retained g) [] (rels g)) as W.
  simpl in W. unfold compute_matches.
  destruct (write_matches g now (rels g) (retained g)) as [rs recs]. simpl in *.
  apply W; [apply retained_keys_NoDup | by apply written_nil].
Qed.

(** ** The run as a whole *)

Lemma for_each_log (l : list match_record) (w : world) :
  for_each l (λ r, console_log (TopMatch r)) w
  = (Returned (), (w.1, w.2 ++ ((λ r, ConsoleLog (TopMatch r)) <$> l))).
Proof.
  revert w. induction l as [|r l IH]; intros [g tr]; simpl.
  - by rewrite app_nil_r.
  - unfold mbind, M_bind, console_log, emit. simpl. rewrite IH. simpl.
    by rewrite <- app_assoc.
Qed.

Lemma log_top_matches_events matches (w : world) :
  log_top_matches matches w = (Returned (), (w.1, w.2 ++ top_events matches)).
Proof.
  unfold log_top_matches, top_events. destruct w as [g tr].
  destruct (decide (0 < length matches)).
  - unfold mbind, M_bind, console_log, emit. simpl. rewrite for_each_log. simpl.
    by rewrite <- app_assoc.
  - simpl. by rewrite app_nil_r.
Qed.

Ltac run_main :=
  unfold main, verifyConnectivity, mbind, M_bind, mret, M_ret, try_finally,
    console_log, emit, run_delete, run_match, run_verify, avg_to_number, throw;
  cbv beta iota zeta delta [fst snd].

Lemma final_started e g now :
  started e →
  final (compute_matches_js e g now)
  = match refused e (delete_matches g).1 with
    | [] => (compute_matches (delete_matches g).1 now).1
    | _ :: _ => (delete_matches g).1
    end.
Proof.
  intros [(Hu & Hn & Hp) Hr]. unfold compute_matches_js. rewrite Hu, Hn, Hp.
  cbn [orb]. run_main. rewrite Hr. cbv beta iota zeta delta [fst snd].
  destruct (delete_matches g) as [g0 deleted]. cbv beta iota zeta delta [fst snd].
  fold (refused e g0). destruct (refused e g0) as [|k ks]; [|done].
  destruct (compute_matches g0 now) as [g1 recs]. cbv beta iota zeta delta [fst snd].
  rewrite log_top_matches_events. cbv beta iota zeta delta [fst snd].
  by destruct (verify_matches g1) as [n [avg|]].
Qed.

(** When the store refuses a write, the statement fails, nothing of it
    is kept, and the error ends the process. *)
Lemma outcome_refused e g now k ks :
  started e →
  refused e (delete_matches g).1 = k :: ks →
  compute_matches_js e g now =
  {| trace :=
       [ConsoleLog (Connecting (NEO4J_URI e)); DriverCreated; VerifyConnectivity;
        ConsoleLog Connected; SessionOpened; ConsoleLog Clearing;
        SessionRun DeleteStatement; ConsoleLog (Removed (delete_matches g).2);
        ConsoleLog (Computing JACCARD_THRESHOLD);
        SessionRun (MatchStatement JACCARD_THRESHOLD);
        SessionClosed; DriverClosed; ConsoleLog ConnectionClosed;
        ConsoleError (Fatal (WriteRefused (c1 k) (c2 k))); ProcessExit 1];
     exit_code := 1;
     final := (delete_matches g).1 |}.
Proof.
  intros [(Hu & Hn & Hp) Hr] Href. unfold compute_matches_js. rewrite Hu, Hn, Hp.
  cbn [orb]. run_main. rewrite Hr. cbv beta iota zeta delta [fst snd].
  destruct (delete_matches g) as [g0 deleted]. cbv beta iota zeta delta [fst snd] in *.
  fold (refused e g0). by rewrite Href.
Qed.

(** ** The graph the scoring statement reads *)

Lemma profile_rels_delete g : profile_rels (delete_matches g).1 = profile_rels g.
Proof.
  unfold profile_rels. f_equal. apply map_eq. intros i. apply option_eq. intros r.
  rewrite !map_lookup_filter_Some. simpl. rewrite map_lookup_filter_Some. simpl.
  unfold profile_types. rewrite !elem_of_cons, elem_of_nil.
  split; [tauto|]. intros [Hi Ht]. repeat split; try done.
  intros Hpm. rewrite Hpm in Ht. by destruct Ht as [|[|]].
Qed.

Lemma candidates_delete g : candidates (delete_matches g).1 = candidates g.
Proof.
  unfold candidates, filtered_paths, match_paths. by rewrite profile_rels_delete.
Qed.

Lemma links_delete g x : links (delete_matches g).1 x = links g x.
Proof. unfold links. by rewrite profile_rels_delete. Qed.

Lemma jaccard_delete g k : jaccard (delete_matches g).1 k = jaccard g k.
Proof.
  unfold jaccard, denominator, c1Total, c2Total, total. by rewrite !links_delete.
Qed.

Lemma retained_delete g : retained (delete_matches g).1 = retained g.
Proof.
  unfold retained. rewrite candidates_delete.
  apply list_filter_iff. intros k. by rewrite jaccard_delete.
Qed.

Lemma new_match_delete g k now : new_match (delete_matches g).1 k now = new_match g k now.
Proof.
  unfold new_match, set_match, set_match_props, score. by rewrite jaccard_delete.
Qed.

Lemma delete_matches_clear g i r :
  rels (delete_matches g).1 !! i = Some r → typ r ≠ POTENTIAL_MATCH.
Proof. by intros [_ ?]%delete_matches_rels. Qed.

(** Every PotentialMatch edge left by a run that got past its start was
    written by that run, for a retained row of the graph it started
    from. *)
Lemma persisted_edge e g now i r :
  started e →
  match_edge (final (compute_matches_js e g now)) i r →
  ∃ k, k ∈ retained g ∧ r = new_match g k now.
Proof.
  intros He [Hi Ht]. rewrite (final_started e g now He) in Hi.
  destruct (refused e (delete_matches g).1).
  - pose proof (compute_matches_written _ now (delete_matches_clear g)) as W.
    destruct (written_cases _ _ _ _ _ W i r Hi) as [Hold|(k & Hk & ->)].
    + by destruct (delete_matches_clear g i r Hold).
    + exists k. rewrite retained_delete in Hk. by rewrite new_match_delete.
  - by destruct (delete_matches_clear g i r Hi).
Qed.

(** Conversely, when the store refuses nothing every retained row has its
    edge. *)
Lemma retained_persisted e g now k :
  started e → refused e (delete_matches g).1 = [] → k ∈ retained g →
  ∃ i, match_edge (final (compute_matches_js e g now)) i (new_match g k now).
Proof.
  intros He Href Hk. rewrite <- retained_delete in Hk.
  pose proof (compute_matches_written _ now (delete_matches_clear g)) as W.
  destruct (written_all _ _ _ _ _ W k Hk) as [i Hi]. exists i.
  split; [|done]. rewrite (final_started e g now He), Href.
  by rewrite <- new_match_delete.
Qed.

Lemma persisted_unique e g now i j r r' :
  started e →
  match_edge (final (compute_matches_js e g now)) i r →
  match_edge (final (compute_matches_js e g now)) j r' →
  src r = src r' → dst r = dst r' → i = j.
Proof.
  intros He [Hi Ht] [Hj Ht']. rewrite (final_started e g now He) in Hi, Hj.
  destruct (refused e (delete_matches g).1).
  - pose proof (compute_matches_written _ now (delete_matches_clear g)) as W.
    by apply (written_inj _ _ _ _ _ W i j r r').
  - by destruct (delete_matches_clear g i r Hi).
Qed.

Lemma outcome_written e g now :
  started e →
  refused e (delete_matches g).1 = [] →
  compute_matches_js e g now =
  let written := compute_matches (delete_matches g).1 now in
  let found := opening e g ++ [ConsoleLog (Found (length written.2))]
               ++ top_events written.2
               ++ [ConsoleLog Verifying; SessionRun VerifyStatement] in
  match (verify_matches written.1).2 with
  | Some avg =>
      {| trace := found
                  ++ [ConsoleLog (Verified (verify_matches written.1).1 avg);
                      ConsoleLog Complete]
                  ++ closing;
         exit_code := 0;
         final := written.1 |}
  | None =>
      {| trace := found ++ closing
                  ++ [ConsoleError (Fatal NullToNumber); ProcessExit 1];
         exit_code := 1;
         final := written.1 |}
  end.
Proof.
  intros [(Hu & Hn & Hp) Hr] Href. unfold compute_matches_js. rewrite Hu, Hn, Hp.
  cbn [orb]. run_main. rewrite Hr. cbv beta iota zeta delta [fst snd].
  unfold opening. destruct (delete_matches g) as [g0 deleted].
  cbv beta iota zeta delta [fst snd] in *.
  fold (refused e g0). rewrite Href.
  destruct (compute_matches g0 now) as [g1 recs]. cbv beta iota zeta delta [fst snd].
  rewrite log_top_matches_events. cbv beta iota zeta delta [fst snd].
  destruct (verify_matches g1) as [n [avg|]];
    cbv beta iota zeta delta [fst snd]; f_equal;
    rewrite <- ?app_assoc; reflexivity.
Qed.

Lemma trace_started e g now :
  started e → ∃ rest, trace (compute_matches_js e g now) = opening e g ++ rest.
Proof.
  intros He. destruct (refused e (delete_matches g).1) as [|k ks] eqn:Href.
  - rewrite (outcome_written e g now He Href). cbv zeta.
    destruct (verify_matches _).2; simpl; eauto.
  - rewrite (outcome_refused e g now k ks He Href). simpl. eauto.
Qed.

(** ** The properties of a written edge *)

Lemma new_match_score g k now :
  rprops (new_match g k now) !! "score" = Some (VFloat (score g k)).
Proof.
  simpl. unfold set_match_props.
  rewrite 3!lookup_insert_ne by done. apply lookup_insert_eq.
Qed.

Lemma new_match_shared_materials g k now :
  rprops (new_match g k now) !! "shared_materials" = Some (VInteger (shared k)).
Proof.
  simpl. unfold set_match_props.
  rewrite 2!lookup_insert_ne by done. apply lookup_insert_eq.
Qed.

Lemma new_match_shared_names g k now :
  rprops (new_match g k now) !! "shared_names"
  = Some (VStrings (take 5 (sharedNames k))).
Proof.
  simpl. unfold set_match_props.
  rewrite lookup_insert_ne by done. apply lookup_insert_eq.
Qed.

Lemma new_match_computed_at g k now :
  rprops (new_match g k now) !! "computed_at" = Some (VDateTime now).
Proof. simpl. unfold set_match_props. by rewrite lookup_insert_eq. Qed.

Lemma accepting_refused e g : accepting e → refused e g = [].
Proof.
  intros Hacc. unfold refused.
  induction (retained g) as [|k ks IH]; [done|].
  rewrite filter_cons, decide_False; [done|]. by rewrite Hacc.
Qed.

Lemma persisted_filter e g now i r :
  started e →
  match_edge (final (compute_matches_js e g now)) i r →
  where_true (pair_filter g (src r) (dst r))
  ∧ (profile g (src r) ∩ profile g (dst r) ≠ ∅).
Proof.
  intros He Hr. destruct (persisted_edge e g now i r He Hr) as (k & Hk & ->).
  apply retained_candidates in Hk. rewrite new_match_src, new_match_dst.
  split; [by apply candidate_filter|].
  apply elem_of_candidates in Hk as ([w Hw] & _).
  apply elem_of_filtered_paths in Hw as (_ & _ & _ & Hw).
  intros Hempty. rewrite Hempty in Hw. by apply elem_of_empty in Hw.
Qed.

Lemma no_shared_no_match e g now a b :
  started e → profile g a ∩ profile g b = ∅ →
  no_match_between (final (compute_matches_js e g now)) a b.
Proof.
  intros He Hempty i r Hr Hj.
  destruct (persisted_filter e g now i r He Hr) as [_ Hne].
  destruct Hj as [[<- <-]|[<- <-]]; [done|].
  apply Hne. rewrite <- Hempty. apply set_eq. intros w.
  rewrite !elem_of_intersection. tauto.
Qed.

(** A run that persists an edge ends normally; a run that persists none
    stops in the verification step, where the average is [null]. *)
Lemma exit_code_retained e g now k :
  started e → accepting e → k ∈ retained g →
  exit_code (compute_matches_js e g now) = 0%Z.
Proof.
  intros He Hacc Hk.
  pose proof (accepting_refused e (delete_matches g).1 Hacc) as Href.
  destruct (retained_persisted e g now k He Href Hk) as (i & Hi & Ht).
  rewrite (final_started e g now He), Href in Hi.
  rewrite (outcome_written e g now He Href). cbv zeta.
  set (g1 := (compute_matches (delete_matches g).1 now).1) in *.
  assert (score g k ∈ match_scores g1) as Hin.
  { unfold match_scores. apply list_elem_of_omap.
    exists (i, new_match g k now). split.
    - apply elem_of_map_to_list. by apply map_lookup_filter_Some.
    - cbn [snd]. by rewrite new_match_score. }
  unfold verify_matches. cbn [snd].
  destruct (match_scores g1); [by apply elem_of_nil in Hin|done].
Qed.

Lemma lone_pair_run :
  retained lone_pair = []
  ∧ compute_matches_js env_ok lone_pair 0
    = {| trace := opening env_ok lone_pair
                  ++ [ConsoleLog (Found 0); ConsoleLog Verifying;
                      SessionRun VerifyStatement]
                  ++ closing
                  ++ [ConsoleError (Fatal NullToNumber); ProcessExit 1];
         exit_code := 1;
         final := lone_pair |}.
Proof. split; vm_compute; reflexivity. Qed.

(** ** Arithmetic of the score *)

Lemma Qdiv_le_denominator (s d d' : Z) :
  (0 <= s)%Z → (0 < d')%Z → (d' <= d)%Z →
  (inject_Z s / inject_Z d <= inject_Z s / inject_Z d')%Q.
Proof.
  intros Hs Hd' Hd.
  destruct d as [|p|p]; try lia. destruct d' as [|p'|p']; try lia.
  unfold Qle, Qdiv, Qinv, Qmult, inject_Z. simpl.
  rewrite !Z.mul_1_r. nia.
Qed.

Lemma round3_ge_threshold (x : Q) :
  (JACCARD_THRESHOLD <= x)%Q → (JACCARD_THRESHOLD <= round3 x)%Q.
Proof.
  unfold JACCARD_THRESHOLD, round3. intros Hx.
  assert (120 <= Qfloor (x * 1000 + (1 # 2)))%Z as Hfloor.
  { rewrite <- (Qfloor_Z 120). apply Qfloor_resp_le.
    change (inject_Z 120) with 120%Q. lra. }
  apply Qle_shift_div_l; [reflexivity|].
  rewrite Zle_Qle in Hfloor.
  eapply Qle_trans; [|exact Hfloor]. vm_compute. discriminate.
Qed.

Lemma score_round3 g k : score g k = round3 (jaccard g k).
Proof. reflexivity. Qed.

(** The statement's quotient never exceeds the Jaccard similarity of the
    two profiles, and is equal to it when no material is linked twice. *)
Lemma jaccard_le_similarity g k :
  k ∈ candidates g →
  (jaccard g k <= jaccard_similarity g (c1 k) (c2 k))%Q.
Proof.
  intros Hk. unfold jaccard, jaccard_similarity.
  destruct (candidate_denominator g k Hk) as (_ & _ & Hden).
  pose proof (candidate_shared_pos g k Hk) as Hpos.
  rewrite (candidate_shared g k Hk) in *.
  pose proof (intersection_le_l g (c1 k) (c2 k)).
  pose proof (intersection_le_r g (c1 k) (c2 k)).
  apply Qdiv_le_denominator; lia.
Qed.

Lemma jaccard_single_links g k :
  k ∈ candidates g → single_links g (c1 k) → single_links g (c2 k) →
  jaccard g k = jaccard_similarity g (c1 k) (c2 k).
Proof.
  intros Hk H1 H2. unfold jaccard, jaccard_similarity, denominator, c1Total, c2Total.
  by rewrite (candidate_shared g k Hk), !profile_size_single_links.
Qed.

Lemma jaccard_similarity_sym g a b :
  jaccard_similarity g a b = jaccard_similarity g b a.
Proof.
  unfold jaccard_similarity, intersection_size.
  replace (profile g b ∩ profile g a) with (profile g a ∩ profile g b).
  - by rewrite (Z.add_comm (profile_size g a)).
  - apply set_eq. intros w. rewrite !elem_of_intersection. tauto.
Qed.

(** ** Running twice *)




(** ** The claims *)

(** Where the two arithmetics part.  201/400 is no binary fraction: its
    binary64 quotient times 1000 is 502.49999999999994, just below the
    tie 502.5 on which the exact product sits, and the statement stores
    0.502 where the computation in exact rationals gives 0.503. *)
Lemma binary64_score_201_400 :
  Binary64.score 201 400 = Binary64.div (Binary64.of_Z 502) (Binary64.of_Z 1000)
  ∧ (inject_Z (cy_round (inject_Z 201 / inject_Z 400 * 1000)) / 1000 == 503 # 1000)%Q.
Proof. split; vm_compute; reflexivity. Qed.

(** C1 (the code fails it): Alpha both produces and can upcycle m1, and
    Beta produces m1.  Both profiles are the set {m1}, so the quotient of
    the claim is 1/(1 + 1 - 1) = 1, which rounding to three decimals
    leaves at 1.  The statement counts the distinct shared materials (1)
    but sizes the two profiles by one element per relationship (2 for
    Alpha, 1 for Beta), and the edge stores 1/(2 + 1 - 1) = 0.5; the
    evaluation in binary64 gives the same 0.5.  On the profiles
    {m1,m2,m3} and {m2,m3,m4} of the claim's example, linked once each,
    the edge stores 0.5 as claimed. *)
Theorem C1_double_link_score :
  profile double_link 1 = {[11]} ∧ profile double_link 2 = {[11]}
  ∧ (jaccard_similarity double_link 1 2 == 1)%Q
  ∧ (round3 (jaccard_similarity double_link 1 2) == 1)%Q
  ∧ (∃ k r,
       candidates double_link = [k]
       ∧ c1 k = 1 ∧ c2 k = 2 ∧ shared k = 1%Z
       ∧ c1Total double_link k = 2%Z ∧ c2Total double_link k = 1%Z
       ∧ match_edge (final (compute_matches_js env_ok double_link 0)) 3 r
       ∧ src r = 1 ∧ dst r = 2
       ∧ rprops r !! "score" = Some (VFloat (500 # 1000))
       ∧ ∃ q, Binary64.value (Binary64.score (shared k) (denominator double_link k))
              = Some q
              ∧ (q == 1 # 2)%Q)
  ∧ (∃ r, match_edge (final (compute_matches_js env_ok half_shared 0)) 6 r
          ∧ profile half_shared (src r) = {[11; 12; 13]}
          ∧ profile half_shared (dst r) = {[12; 13; 14]}
          ∧ rprops r !! "score" = Some (VFloat (500 # 1000))).
Proof.
  split; [vm_compute; reflexivity|]. split; [vm_compute; reflexivity|].
  split; [vm_compute; reflexivity|]. split; [vm_compute; reflexivity|].
  split.
  - exists {| c1 := 1; c2 := 2; shared := 1; sharedNames := ["m1"] |},
           (new_match double_link
              {| c1 := 1; c2 := 2; shared := 1; sharedNames := ["m1"] |} 0).
    split; [vm_compute; reflexivity|].
    do 5 (split; [vm_compute; reflexivity|]).
    split; [split; vm_compute; reflexivity|].
    do 3 (split; [vm_compute; reflexivity|]).
    eexists. split; vm_compute; reflexivity.
  - exists (new_match half_shared half_row 0).
    split; [split; vm_compute; reflexivity|].
    repeat split; vm_compute; reflexivity.
Qed.

(** C2: every persisted PotentialMatch edge has a score of at least
    0.12, and a pair of companies whose Jaccard similarity is below 0.12
    (as the profiles give it, or as the statement computes it) has no
    edge after the run. *)
Theorem C2_threshold (e : env) (g : graph) (now : Z) :
  started e →
  (∀ i r, match_edge (final (compute_matches_js e g now)) i r →
     ∃ q, rprops r !! "score" = Some (VFloat q) ∧ (JACCARD_THRESHOLD <= q)%Q)
  ∧ (∀ a b, (jaccard_similarity g a b < JACCARD_THRESHOLD)%Q →
       no_match_between (final (compute_matches_js e g now)) a b)
  ∧ (∀ k, k ∈ candidates g → (jaccard g k < JACCARD_THRESHOLD)%Q →
       no_match_between (final (compute_matches_js e g now)) (c1 k) (c2 k)).
Proof.
  intros He. split; [|split].
  - intros i r Hr. destruct (persisted_edge e g now i r He Hr) as (k & Hk & ->).
    exists (score g k). split; [apply new_match_score|].
    rewrite score_round3. apply round3_ge_threshold.
    unfold retained in Hk. by apply list_elem_of_filter in Hk as [Hk _].
  - intros a b Hlt i r Hr Hj.
    destruct (persisted_edge e g now i r He Hr) as (k & Hk & ->).
    rewrite new_match_src, new_match_dst in Hj.
    assert (jaccard_similarity g a b = jaccard_similarity g (c1 k) (c2 k)) as Heq.
    { destruct Hj as [[-> ->]|[-> ->]]; [done|apply jaccard_similarity_sym]. }
    rewrite Heq in Hlt. unfold retained in Hk.
    apply list_elem_of_filter in Hk as [Hge Hk].
    pose proof (jaccard_le_similarity g k Hk) as Hle.
    apply (Qlt_not_le _ _ Hlt). by eapply Qle_trans.
  - intros k Hk Hlt i r Hr Hj.
    destruct (persisted_edge e g now i r He Hr) as (k' & Hk' & ->).
    rewrite new_match_src, new_match_dst in Hj. unfold retained in Hk'.
    apply list_elem_of_filter in Hk' as [Hge Hk'].
    destruct Hj as [[H1 H2]|[H1 H2]].
    + assert (k' = k) as -> by (apply (candidate_key_inj g); unfold key; congruence).
      by apply (Qlt_not_le _ _ Hlt).
    + apply candidate_filter in Hk as [Hf _]. apply candidate_filter in Hk' as [Hf' _].
      rewrite H1, H2 in Hf'. destruct (pair_filter_asym g _ _ Hf Hf').
Qed.

Lemma C2_threshold_witness :
  started env_ok
  ∧ ∃ q, rprops (new_match half_shared half_row 0) !! "score" = Some (VFloat q)
         ∧ (JACCARD_THRESHOLD <= q)%Q.
Proof.
  assert (started env_ok) as He by (repeat split; reflexivity).
  split; [exact He|].
  apply (proj1 (C2_threshold env_ok half_shared 0 He) 6).
  split; vm_compute; reflexivity.
Defined.

(** C3: after a run at most one PotentialMatch edge joins an unordered
    pair of companies, in either direction; the edge goes from the
    company with the smaller identifier to the one with the larger; the
    scorer has no two rows for a pair and never a row and its mirror,
    and it has a row for every pair of companies with different
    identifiers and industries that share a material; the order on
    identifiers is asymmetric and total. *)
Theorem C3_one_edge_per_pair (e : env) (g : graph) (now : Z) :
  started e →
  (∀ a b i j r r',
      match_edge (final (compute_matches_js e g now)) i r →
      match_edge (final (compute_matches_js e g now)) j r' →
      joins r a b → joins r' a b → i = j)
  ∧ (∀ i r, match_edge (final (compute_matches_js e g now)) i r →
       ∃ x y, prop g (src r) "id" = Some x ∧ prop g (dst r) "id" = Some y
              ∧ String.ltb x y = true)
  ∧ NoDup (key <$> candidates g)
  ∧ (∀ k k', k ∈ candidates g → k' ∈ candidates g → key k ≠ (c2 k', c1 k'))
  ∧ (∀ a b x y ia ib,
       has_label g a Company → has_label g b Company →
       prop g a "id" = Some x → prop g b "id" = Some y → x ≠ y →
       prop g a "industry" = Some ia → prop g b "industry" = Some ib → ia ≠ ib →
       profile g a ∩ profile g b ≠ ∅ →
       ∃ k, k ∈ candidates g ∧ (key k = (a, b) ∨ key k = (b, a)))
  ∧ (∀ x y : string,
       (String.ltb x y = true → String.ltb y x = true → False)
       ∧ (x ≠ y → String.ltb x y = true ∨ String.ltb y x = true)).
Proof.
  intros He. split; [|split; [|split; [|split; [|split; [|split]]]]].
  - intros a b i j r r' Hr Hr' [[Hs Hd]|[Hs Hd]] [[Hs' Hd']|[Hs' Hd']].
    + apply (persisted_unique e g now i j r r' He Hr Hr'); congruence.
    + destruct (persisted_filter e g now i r He Hr) as [Hf _].
      destruct (persisted_filter e g now j r' He Hr') as [Hf' _].
      rewrite Hs, Hd in Hf. rewrite Hs', Hd' in Hf'.
      destruct (pair_filter_asym g a b Hf Hf').
    + destruct (persisted_filter e g now i r He Hr) as [Hf _].
      destruct (persisted_filter e g now j r' He Hr') as [Hf' _].
      rewrite Hs, Hd in Hf. rewrite Hs', Hd' in Hf'.
      destruct (pair_filter_asym g a b Hf' Hf).
    + apply (persisted_unique e g now i j r r' He Hr Hr'); congruence.
  - intros i r Hr. destruct (persisted_filter e g now i r He Hr) as [Hf _].
    apply pair_filter_true in Hf as (x & y & _ & _ & Hx & Hy & Hlt & _). eauto.
  - apply candidates_keys_NoDup.
  - intros k k' Hk Hk' Heq. unfold key in Heq. injection Heq as H1 H2.
    apply candidate_filter in Hk as [Hf _]. apply candidate_filter in Hk' as [Hf' _].
    rewrite H1, H2 in Hf. destruct (pair_filter_asym g _ _ Hf Hf').
  - intros a b x y ia ib La Lb Hx Hy Hxy Hia Hib Hi Hne.
    apply set_choose_L in Hne as [w Hw].
    destruct (ltb_total x y Hxy) as [Hlt|Hlt].
    + destruct (candidates_complete g a b w) as (k & Hk & H1 & H2); try done.
      { apply pair_filter_true. by exists x, y, ia, ib. }
      exists k. split; [done|]. left. unfold key. by rewrite H1, H2.
    + destruct (candidates_complete g b a w) as (k & Hk & H1 & H2); try done.
      { apply pair_filter_true. by exists y, x, ib, ia. }
      { apply elem_of_intersection in Hw as [? ?]. by apply elem_of_intersection. }
      exists k. split; [done|]. right. unfold key. by rewrite H1, H2.
  - apply ltb_asym.
  - apply ltb_total.
Qed.

Lemma C3_one_edge_per_pair_witness :
  started env_ok
  ∧ key <$> candidates steel_chem = [(2, 3); (1, 2)]
  ∧ NoDup (key <$> candidates steel_chem).
Proof.
  assert (started env_ok) as He by (repeat split; reflexivity).
  split; [exact He|]. split; [vm_compute; reflexivity|].
  exact (proj1 (proj2 (proj2 (C3_one_edge_per_pair env_ok steel_chem 0 He)))).
Defined.

(** The filter on industries: the two companies of every persisted
    PotentialMatch edge have an industry and the two industries differ,
    and a pair with a company whose industry is missing has no row and no
    edge. *)
Lemma cross_industry_filter (e : env) (g : graph) (now : Z) :
  started e →
  (∀ i r, match_edge (final (compute_matches_js e g now)) i r →
     ∃ x y, prop g (src r) "industry" = Some x ∧ prop g (dst r) "industry" = Some y
            ∧ x ≠ y)
  ∧ (∀ a b, prop g a "industry" = None ∨ prop g b "industry" = None →
       (∀ k, k ∈ candidates g → key k ≠ (a, b) ∧ key k ≠ (b, a))
       ∧ no_match_between (final (compute_matches_js e g now)) a b).
Proof.
  intros He.
  assert (∀ a b, prop g a "industry" = None ∨ prop g b "industry" = None →
                 ¬ where_true (pair_filter g a b)) as Hnull.
  { intros a b Hnone (_ & _ & x & y & _ & _ & _ & Hx & Hy & _)%pair_filter_true.
    destruct Hnone; congruence. }
  split.
  - intros i r Hr. destruct (persisted_filter e g now i r He Hr) as [Hf _].
    apply pair_filter_true in Hf as (_ & _ & x & y & _ & _ & _ & Hx & Hy & Hne). eauto.
  - intros a b Hnone. split.
    + intros k Hk. apply candidate_filter in Hk as [Hf _]. unfold key.
      split; intros Heq; injection Heq as H1 H2; rewrite H1, H2 in Hf.
      * by apply (Hnull a b Hnone).
      * apply (Hnull b a); [tauto|done].
    + intros i r Hr Hj. destruct (persisted_filter e g now i r He Hr) as [Hf _].
      destruct Hj as [[Hs Hd]|[Hs Hd]]; rewrite Hs, Hd in Hf.
      * by apply (Hnull a b Hnone).
      * apply (Hnull b a); [tauto|done].
Qed.

(** C4 (the code fails it): Alpha has no industry and is the only company
    that shares a material with Beta.  The pair is excluded, as the claim
    says: it has no row and no edge.  But the run does not survive it:
    no edge is left, the average of the verification statement is null,
    [toNumber] is called on it, and the run ends with a fatal error and
    exit code 1.  With an industry on Alpha the same run writes the edge
    and ends with exit code 0. *)
Theorem C4_missing_industry_crash :
  prop lone_pair 1 "industry" = None
  ∧ candidates lone_pair = []
  ∧ no_match_between (final (compute_matches_js env_ok lone_pair 0)) 1 2
  ∧ compute_matches_js env_ok lone_pair 0
    = {| trace := opening env_ok lone_pair
                  ++ [ConsoleLog (Found 0); ConsoleLog Verifying;
                      SessionRun VerifyStatement]
                  ++ closing
                  ++ [ConsoleError (Fatal NullToNumber); ProcessExit 1];
         exit_code := 1;
         final := lone_pair |}
  ∧ nodes lone_pair_with_industry
    = <[1 := company "a" "Alpha" "Steel"]> (nodes lone_pair)
  ∧ rels lone_pair_with_industry = rels lone_pair
  ∧ (∃ r, match_edge (final (compute_matches_js env_ok lone_pair_with_industry 0)) 2 r
          ∧ src r = 1 ∧ dst r = 2)
  ∧ exit_code (compute_matches_js env_ok lone_pair_with_industry 0) = 0%Z.
Proof.
  assert (started env_ok) as He by (repeat split; reflexivity).
  split; [reflexivity|]. split; [vm_compute; reflexivity|].
  split.
  { apply (cross_industry_filter env_ok lone_pair 0 He). by left. }
  split; [apply lone_pair_run|].
  split; [vm_compute; reflexivity|]. split; [reflexivity|].
  split; [|vm_compute; reflexivity].
  exists (new_match lone_pair_with_industry
            {| c1 := 1; c2 := 2; shared := 1; sharedNames := ["m1"] |} 0).
  split; [split; vm_compute; reflexivity|].
  split; vm_compute; reflexivity.
Qed.

(** C5: the first statement of a run removes every PotentialMatch edge,
    and it is sent before the scoring statement; so every edge found
    after the run was written by it, and a pair that shares no material
    when the run starts has no edge afterwards, whatever edges the graph
    carried before. *)
Theorem C5_wipe_before_write (e : env) (g : graph) (now : Z) :
  started e →
  (∀ i r, ¬ match_edge (delete_matches g).1 i r)
  ∧ (∃ before rest,
       trace (compute_matches_js e g now)
       = before ++ SessionRun DeleteStatement :: ConsoleLog (Removed (delete_matches g).2)
                   :: ConsoleLog (Computing JACCARD_THRESHOLD)
                   :: SessionRun (MatchStatement JACCARD_THRESHOLD) :: rest
       ∧ ∀ q, SessionRun q ∉ before)
  ∧ (∀ i r, match_edge (final (compute_matches_js e g now)) i r →
       ∃ k, k ∈ retained g ∧ r = new_match g k now)
  ∧ (∀ a b, profile g a ∩ profile g b = ∅ →
       no_match_between (final (compute_matches_js e g now)) a b).
Proof.
  intros He. repeat split.
  - intros i r [Hi Ht]. by destruct (delete_matches_clear g i r Hi).
  - destruct (trace_started e g now He) as [rest Hrest].
    exists [ConsoleLog (Connecting (NEO4J_URI e)); DriverCreated; VerifyConnectivity;
            ConsoleLog Connected; SessionOpened; ConsoleLog Clearing], rest.
    split; [exact Hrest|].
    intros q Hq. repeat (apply elem_of_cons in Hq as [Hq|Hq]; [discriminate|]).
    by apply elem_of_nil in Hq.
  - intros i r Hr. by apply (persisted_edge e g now i r He).
  - intros a b Hempty. by apply no_shared_no_match.
Qed.

Lemma C5_wipe_before_write_witness :
  started env_ok
  ∧ match_edge stale_match 9
      {| src := 1; typ := POTENTIAL_MATCH; dst := 3;
         rprops := {["score" := VFloat (1 # 1)]} |}
  ∧ profile stale_match 1 ∩ profile stale_match 3 = ∅
  ∧ no_match_between (final (compute_matches_js env_ok stale_match 0)) 1 3.
Proof.
  assert (started env_ok) as He by (repeat split; reflexivity).
  assert (profile stale_match 1 ∩ profile stale_match 3 = ∅) as Hempty
    by (vm_compute; reflexivity).
  split; [exact He|]. split; [split; vm_compute; reflexivity|].
  split; [exact Hempty|].
  exact (proj2 (proj2 (proj2 (C5_wipe_before_write env_ok stale_match 0 He))) 1 3 Hempty).
Defined.



(** C7 (as stated, refuted): the store refuses the edge between SteelCo
    and ChemCo only; the pair ChemCo, SteelCo2 qualifies and its write is
    not refused, yet the run ends with exit code 1 and no edge at all. *)
Lemma C7_refused_write_counterexample :
  (∃ k, k ∈ retained steel_chem ∧ key k = (2, 3)
        ∧ rejects env_refusing (c1 k) (c2 k) = false)
  ∧ (∃ k, k ∈ retained steel_chem ∧ key k = (1, 2)
          ∧ rejects env_refusing (c1 k) (c2 k) = true)
  ∧ exit_code (compute_matches_js env_refusing steel_chem 0) = 1%Z
  ∧ match_tuples (final (compute_matches_js env_refusing steel_chem 0)) = [].
Proof.
  split.
  { exists {| c1 := 2; c2 := 3; shared := 1; sharedNames := ["SlagA"] |}.
    split; [|done]. apply (bool_decide_unpack _). vm_compute. exact I. }
  split.
  { exists {| c1 := 1; c2 := 2; shared := 1; sharedNames := ["SlagA"] |}.
    split; [|done]. apply (bool_decide_unpack _). vm_compute. exact I. }
  split; vm_compute; reflexivity.
Qed.

(** C7 (amended): when the store refuses the write of a qualifying pair
    the scoring statement fails as a whole: no PotentialMatch edge is
    persisted, the session and the driver are closed, the error is
    reported as fatal and the process exits with code 1. *)
Theorem C7_refused_write_aborts (e : env) (g : graph) (now : Z) (k : candidate) :
  started e →
  k ∈ retained g → rejects e (c1 k) (c2 k) = true →
  exit_code (compute_matches_js e g now) = 1%Z
  ∧ final (compute_matches_js e g now) = (delete_matches g).1
  ∧ (∀ i r, ¬ match_edge (final (compute_matches_js e g now)) i r)
  ∧ ∃ a b, rejects e a b = true
           ∧ trace (compute_matches_js e g now)
             = opening e g ++ closing
               ++ [ConsoleError (Fatal (WriteRefused a b)); ProcessExit 1].
Proof.
  intros He Hk Hrej.
  assert (k ∈ refused e (delete_matches g).1) as Hin.
  { unfold refused. rewrite retained_delete. by apply list_elem_of_filter. }
  destruct (refused e (delete_matches g).1) as [|k' ks] eqn:Href.
  { by apply elem_of_nil in Hin. }
  assert (rejects e (c1 k') (c2 k') = true) as Hrej'.
  { assert (k' ∈ refused e (delete_matches g).1) as Hk'
      by (rewrite Href; apply elem_of_cons; by left).
    unfold refused in Hk'. by apply list_elem_of_filter in Hk' as [? _]. }
  rewrite (outcome_refused e g now k' ks He Href). cbn [exit_code final trace].
  repeat split.
  - intros i r [Hi Ht]. by destruct (delete_matches_clear g i r Hi).
  - by exists (c1 k'), (c2 k').
Qed.

Lemma C7_refused_write_aborts_witness :
  started env_refusing
  ∧ exit_code (compute_matches_js env_refusing steel_chem 0) = 1%Z
  ∧ final (compute_matches_js env_refusing steel_chem 0) = (delete_matches steel_chem).1.
Proof.
  assert (started env_refusing) as He by (repeat split; reflexivity).
  assert ({| c1 := 1; c2 := 2; shared := 1; sharedNames := ["SlagA"] |}
          ∈ retained steel_chem) as Hk
    by (apply (bool_decide_unpack _); vm_compute; exact I).
  destruct (C7_refused_write_aborts env_refusing steel_chem 0 _ He Hk eq_refl)
    as (Hexit & Hfinal & _).
  split; [exact He|]. split; [exact Hexit|exact Hfinal].
Defined.

(** C8: every row the scorer evaluates shares at least one material, so
    its denominator [c1Total + c2Total - shared] is at least 1 and never
    zero; two companies whose profiles are both empty (similarity 0) get
    no row and no edge. *)
Theorem C8_denominator_nonzero (g : graph) :
  (∀ k, k ∈ candidates g →
     profile g (c1 k) ∩ profile g (c2 k) ≠ ∅
     ∧ (1 <= shared k)%Z ∧ (shared k <= denominator g k)%Z
     ∧ denominator g k ≠ 0%Z ∧ ¬ (inject_Z (denominator g k) == 0)%Q
     ∧ (profile_size g (c1 k) + profile_size g (c2 k)
        - intersection_size g (c1 k) (c2 k))%Z ≠ 0%Z)
  ∧ (∀ a b, profile g a = ∅ → profile g b = ∅ →
       (jaccard_similarity g a b == 0)%Q
       ∧ (∀ k, k ∈ candidates g → key k ≠ (a, b))
       ∧ ∀ e now, started e →
           no_match_between (final (compute_matches_js e g now)) a b).
Proof.
  split.
  - intros k Hk. destruct (candidate_denominator g k Hk) as (Hle & Hpos & _).
    pose proof (candidate_shared_pos g k Hk) as Hs.
    repeat split; try lia.
    + apply elem_of_candidates in Hk as ([w Hw] & _).
      apply elem_of_filtered_paths in Hw as (_ & _ & _ & Hw).
      intros Hempty. rewrite Hempty in Hw. by apply elem_of_empty in Hw.
    + unfold Qeq. simpl. lia.
    + rewrite (candidate_shared g k Hk) in Hs.
      pose proof (intersection_le_l g (c1 k) (c2 k)).
      pose proof (intersection_le_r g (c1 k) (c2 k)). lia.
  - intros a b Ha Hb. repeat split.
    + unfold jaccard_similarity, intersection_size, profile_size.
      rewrite Ha, Hb. by vm_compute.
    + intros k Hk Heq. unfold key in Heq. injection Heq as H1 H2.
      apply elem_of_candidates in Hk as ([w Hw] & _).
      apply elem_of_filtered_paths in Hw as (_ & _ & _ & Hw).
      rewrite H1, Ha in Hw. apply elem_of_intersection in Hw as [Hw _].
      by apply elem_of_empty in Hw.
    + intros e now He. apply no_shared_no_match; [done|].
      rewrite Ha. apply set_eq. intros w. rewrite elem_of_intersection.
      split; [tauto|]. intros Hw. by apply elem_of_empty in Hw.
Qed.

Lemma C8_denominator_nonzero_witness :
  denominator steel_chem <$> candidates steel_chem = [3%Z; 3%Z]
  ∧ ∀ k, k ∈ candidates steel_chem → denominator steel_chem k ≠ 0%Z.
Proof.
  split; [vm_compute; reflexivity|]. intros k Hk.
  exact (proj1 (proj2 (proj2 (proj2 (proj1 (C8_denominator_nonzero steel_chem) k Hk))))).
Defined.

(** C9: the shared_names property of every persisted PotentialMatch edge
    is a list of at most 5 names, however many materials are shared. *)
Theorem C9_shared_names_bounded (e : env) (g : graph) (now : Z) (i : nat) (r : rel) :
  started e →
  match_edge (final (compute_matches_js e g now)) i r →
  ∃ names, rprops r !! "shared_names" = Some (VStrings names) ∧ length names ≤ 5.
Proof.
  intros He Hr. destruct (persisted_edge e g now i r He Hr) as (k & _ & ->).
  exists (take 5 (sharedNames k)). split; [apply new_match_shared_names|].
  rewrite length_take. lia.
Qed.

Lemma C9_shared_names_bounded_witness :
  started env_ok
  ∧ match_edge (final (compute_matches_js env_ok six_shared 0)) 12
      (new_match six_shared six_row 0)
  ∧ rprops (new_match six_shared six_row 0) !! "shared_materials" = Some (VInteger 6)
  ∧ ∃ names,
      rprops (new_match six_shared six_row 0) !! "shared_names" = Some (VStrings names)
      ∧ length names ≤ 5.
Proof.
  assert (started env_ok) as He by (repeat split; reflexivity).
  assert (match_edge (final (compute_matches_js env_ok six_shared 0)) 12
            (new_match six_shared six_row 0)) as Hr
    by (split; vm_compute; reflexivity).
  split; [exact He|]. split; [exact Hr|]. split; [vm_compute; reflexivity|].
  exact (C9_shared_names_bounded env_ok six_shared 0 12 _ He Hr).
Defined.

(** C10: when one of NEO4J_URI, NEO4J_USERNAME, NEO4J_PASSWORD is unset
    the process only prints the error and exits with code 1: no driver is
    created, no statement is run and the graph is left as it was. *)
Theorem C10_missing_configuration (e : env) (g : graph) (now : Z) :
  NEO4J_URI e = None ∨ NEO4J_USERNAME e = None ∨ NEO4J_PASSWORD e = None →
  compute_matches_js e g now
  = {| trace := [ConsoleError MissingEnvVars; ProcessExit 1];
       exit_code := 1;
       final := g |}.
Proof.
  intros H. unfold compute_matches_js.
  assert (falsy (NEO4J_URI e) || falsy (NEO4J_USERNAME e) || falsy (NEO4J_PASSWORD e)
          = true) as ->; [|done].
  destruct H as [-> | [-> | ->]]; simpl.
  - done.
  - by rewrite orb_true_r.
  - by rewrite orb_true_r.
Qed.

Lemma C10_missing_configuration_witness :
  (NEO4J_URI env_no_password = None ∨ NEO4J_USERNAME env_no_password = None
   ∨ NEO4J_PASSWORD env_no_password = None)
  ∧ compute_matches_js env_no_password steel_chem 0
    = {| trace := [ConsoleError MissingEnvVars; ProcessExit 1];
         exit_code := 1;
         final := steel_chem |}.
Proof.
  assert (NEO4J_URI env_no_password = None ∨ NEO4J_USERNAME env_no_password = None
          ∨ NEO4J_PASSWORD env_no_password = None) as H.
  { right. right. reflexivity. }
  split; [exact H|]. exact (C10_missing_configuration env_no_password steel_chem 0 H).
Defined.

(** ** Further properties of the run *)

Lemma falsy_false v : falsy v = false ↔ ∃ s, v = Some s ∧ s ≠ "".
Proof.
  unfold falsy. destruct v as [s|].
  - destruct (decide (s = "")) as [->|Hne].
    + split; [done|]. by intros (s' & [= <-] & Hne).
    + split; [eauto|done].
  - split; [done|]. by intros (s' & Hs & _).
Qed.

Lemma unconfigured_outcome e g now :
  ¬ configured e → compute_matches_js e g now = exit_unconfigured g.
Proof.
  intros Hnot. unfold compute_matches_js.
  destruct (falsy (NEO4J_URI e)) eqn:Hu; [done|].
  destruct (falsy (NEO4J_USERNAME e)) eqn:Hn; [done|].
  destruct (falsy (NEO4J_PASSWORD e)) eqn:Hp; [done|].
  by destruct Hnot.
Qed.

Lemma unreachable_outcome e g now :
  configured e → reachable e = false →
  compute_matches_js e g now
  = {| trace := [ConsoleLog (Connecting (NEO4J_URI e)); DriverCreated;
                 VerifyConnectivity;
                 ConsoleError (Fatal ServiceUnavailable); ProcessExit 1];
       exit_code := 1;
       final := g |}.
Proof.
  intros (Hu & Hn & Hp) Hr. unfold compute_matches_js. rewrite Hu, Hn, Hp.
  cbn [orb]. run_main. by rewrite Hr.
Qed.

(** X1: a variable set to the empty string counts as missing, exactly
    like an unset one: the script passes its environment check if and
    only if the three variables are non-empty strings, stops with the
    error and exit code 1 otherwise, and starts connecting when they
    are. *)
Theorem X1_environment_check (e : env) (g : graph) (now : Z) :
  (configured e ↔
     (∃ s, NEO4J_URI e = Some s ∧ s ≠ "")
     ∧ (∃ s, NEO4J_USERNAME e = Some s ∧ s ≠ "")
     ∧ (∃ s, NEO4J_PASSWORD e = Some s ∧ s ≠ ""))
  ∧ (¬ configured e → compute_matches_js e g now = exit_unconfigured g)
  ∧ (configured e →
       ∃ rest, trace (compute_matches_js e g now)
               = ConsoleLog (Connecting (NEO4J_URI e)) :: DriverCreated
                 :: VerifyConnectivity :: rest).
Proof.
  split; [|split].
  - unfold configured. by rewrite !falsy_false.
  - apply unconfigured_outcome.
  - intros Hc. destruct (reachable e) eqn:Hr.
    + destruct (trace_started e g now (conj Hc Hr)) as [rest ->].
      unfold opening. simpl. eauto.
    + rewrite (unreachable_outcome e g now Hc Hr). simpl. eauto.
Qed.

Lemma X1_environment_check_witness :
  ¬ configured env_empty_user
  ∧ compute_matches_js env_empty_user steel_chem 0 = exit_unconfigured steel_chem.
Proof.
  assert (¬ configured env_empty_user) as Hnot.
  { intros (_ & Hn & _). vm_compute in Hn. discriminate. }
  split; [exact Hnot|].
  exact (proj1 (proj2 (X1_environment_check env_empty_user steel_chem 0)) Hnot).
Defined.

(** X2: when the store does not answer [verifyConnectivity] the error
    ends the process with exit code 1 before a session is opened or a
    statement sent: the graph is untouched, and the driver that was
    created is not closed. *)
Theorem X2_unreachable_store (e : env) (g : graph) (now : Z) :
  configured e → reachable e = false →
  compute_matches_js e g now
  = {| trace := [ConsoleLog (Connecting (NEO4J_URI e)); DriverCreated;
                 VerifyConnectivity;
                 ConsoleError (Fatal ServiceUnavailable); ProcessExit 1];
       exit_code := 1;
       final := g |}.
Proof. apply unreachable_outcome. Qed.

Lemma X2_unreachable_store_witness :
  configured env_unreachable ∧ reachable env_unreachable = false
  ∧ final (compute_matches_js env_unreachable stale_match 0) = stale_match.
Proof.
  assert (configured env_unreachable) as Hc by (repeat split; reflexivity).
  split; [exact Hc|]. split; [reflexivity|].
  exact (f_equal final (X2_unreachable_store env_unreachable stale_match 0 Hc eq_refl)).
Defined.

Lemma refused_delete e g : refused e (delete_matches g).1 = refused e g.
Proof. unfold refused. by rewrite retained_delete. Qed.

Lemma match_scores_clear g :
  (∀ i r, rels g !! i = Some r → typ r ≠ POTENTIAL_MATCH) → match_scores g = [].
Proof.
  intros Hclear. unfold match_scores.
  replace (filter (λ e : nat * rel, typ e.2 = POTENTIAL_MATCH) (rels g))
    with (∅ : gmap nat rel); [by rewrite map_to_list_empty|].
  symmetry. apply map_empty. intros i.
  destruct (filter _ (rels g) !! i) as [r|] eqn:E; [|done].
  apply map_lookup_filter_Some in E as [Hi Ht]. by destruct (Hclear i r Hi).
Qed.

Lemma compute_matches_no_rows g now :
  retained g = [] → compute_matches g now = (g, []).
Proof. intros Hnone. unfold compute_matches. rewrite Hnone. by destruct g. Qed.

Lemma no_rows_outcome e g now :
  started e → retained g = [] →
  compute_matches_js e g now
  = {| trace := opening e g
                ++ [ConsoleLog (Found 0); ConsoleLog Verifying;
                    SessionRun VerifyStatement]
                ++ closing
                ++ [ConsoleError (Fatal NullToNumber); ProcessExit 1];
       exit_code := 1;
       final := (delete_matches g).1 |}.
Proof.
  intros He Hnone.
  assert (retained (delete_matches g).1 = []) as Hnone' by by rewrite retained_delete.
  assert (refused e (delete_matches g).1 = []) as Href
    by (unfold refused; by rewrite Hnone').
  rewrite (outcome_written e g now He Href). cbv zeta.
  rewrite (compute_matches_no_rows _ now Hnone'). cbn [fst snd].
  unfold verify_matches. cbn [snd].
  by rewrite (match_scores_clear _ (delete_matches_clear g)).
Qed.

Lemma exit_code_written e g now k :
  started e → refused e g = [] → k ∈ retained g →
  exit_code (compute_matches_js e g now) = 0%Z.
Proof.
  intros He Href Hk. rewrite <- refused_delete in Href.
  destruct (retained_persisted e g now k He Href Hk) as (i & Hi & Ht).
  rewrite (final_started e g now He), Href in Hi.
  rewrite (outcome_written e g now He Href). cbv zeta.
  set (g1 := (compute_matches (delete_matches g).1 now).1) in *.
  assert (score g k ∈ match_scores g1) as Hin.
  { unfold match_scores. apply list_elem_of_omap.
    exists (i, new_match g k now). split.
    - apply elem_of_map_to_list. by apply map_lookup_filter_Some.
    - cbn [snd]. by rewrite new_match_score. }
  unfold verify_matches. cbn [snd].
  destruct (match_scores g1); [by apply elem_of_nil in Hin|done].
Qed.

(** X3: the process ends with exit code 0 exactly when it got past its
    start, the store refused no write and at least one pair was
    retained.  A run that retains no pair still wipes the old edges, but
    then stops in the verification step (the average of no score is
    null) and exits with code 1. *)
Theorem X3_exit_code (e : env) (g : graph) (now : Z) :
  (exit_code (compute_matches_js e g now) = 0%Z
   ↔ started e ∧ refused e g = [] ∧ retained g ≠ [])
  ∧ (started e → retained g = [] →
       final (compute_matches_js e g now) = (delete_matches g).1
       ∧ ∃ before,
           trace (compute_matches_js e g now)
           = before ++ closing ++ [ConsoleError (Fatal NullToNumber); ProcessExit 1]).
Proof.
  split.
  - split.
    + intros Hexit.
      destruct (decide (configured e)) as [Hc|Hc].
      2: { rewrite (unconfigured_outcome e g now Hc) in Hexit. discriminate. }
      destruct (reachable e) eqn:Hr.
      2: { rewrite (unreachable_outcome e g now Hc Hr) in Hexit. discriminate. }
      assert (started e) as He by done. split; [done|].
      destruct (refused e g) as [|k ks] eqn:Href.
      2: { rewrite <- refused_delete in Href.
           rewrite (outcome_refused e g now k ks He Href) in Hexit. discriminate. }
      split; [done|]. intros Hnone.
      rewrite (no_rows_outcome e g now He Hnone) in Hexit. discriminate.
    + intros (He & Href & Hne). destruct (retained g) as [|k ks] eqn:Hret; [done|].
      apply (exit_code_written e g now k He Href). rewrite Hret.
      apply elem_of_cons. by left.
  - intros He Hnone. rewrite (no_rows_outcome e g now He Hnone). cbn [final trace].
    split; [done|].
    exists (opening e g ++ [ConsoleLog (Found 0); ConsoleLog Verifying;
                            SessionRun VerifyStatement]).
    by rewrite <- !app_assoc.
Qed.

Lemma X3_exit_code_witness :
  started env_ok ∧ retained stale_match ≠ [] ∧ retained lone_pair = []
  ∧ exit_code (compute_matches_js env_ok stale_match 0) = 0%Z
  ∧ final (compute_matches_js env_ok lone_pair 0) = (delete_matches lone_pair).1.
Proof.
  assert (started env_ok) as He by (repeat split; reflexivity).
  assert (retained stale_match ≠ []) as Hne by (vm_compute; discriminate).
  assert (retained lone_pair = []) as Hnone by (vm_compute; reflexivity).
  destruct (X3_exit_code env_ok stale_match 0) as [Hiff _].
  destruct (X3_exit_code env_ok lone_pair 0) as [_ Hzero].
  repeat (split; [assumption|]). split.
  - apply Hiff. split; [exact He|]. split; [vm_compute; reflexivity|exact Hne].
  - exact (proj1 (Hzero He Hnone)).
Defined.

Lemma started_cases e :
  ¬ configured e ∨ (configured e ∧ reachable e = false) ∨ started e.
Proof.
  destruct (decide (configured e)) as [Hc|Hc]; [|by left].
  destruct (reachable e) eqn:Hr; right; [by right|by left].
Qed.

(** X4: a session is opened exactly when the run gets past its start,
    and then the [finally] block always runs: the session and the
    driver are closed and the closing is logged, after the last
    statement, whether the run completes or ends in a fatal error. *)
Theorem X4_connection_closed (e : env) (g : graph) (now : Z) :
  (SessionOpened ∈ trace (compute_matches_js e g now) ↔ started e)
  ∧ (started e →
       ∃ before after,
         trace (compute_matches_js e g now) = before ++ closing ++ after
         ∧ (∀ q, SessionRun q ∉ after)
         ∧ (after = [] ∧ exit_code (compute_matches_js e g now) = 0%Z
            ∨ ∃ err, after = [ConsoleError (Fatal err); ProcessExit 1]
                     ∧ exit_code (compute_matches_js e g now) = 1%Z)).
Proof.
  assert (∀ err q, SessionRun q ∉ [ConsoleError (Fatal err); ProcessExit 1]) as Hpost.
  { intros err q Hq. repeat (apply elem_of_cons in Hq as [Hq|Hq]; [discriminate|]).
    by apply elem_of_nil in Hq. }
  split.
  - split.
    + intros Hin. destruct (started_cases e) as [Hc|[[Hc Hr]|He]]; [| |done].
      * rewrite (unconfigured_outcome e g now Hc) in Hin. cbn [trace exit_unconfigured] in Hin.
        repeat (apply elem_of_cons in Hin as [Hin|Hin]; [discriminate|]).
        by apply elem_of_nil in Hin.
      * rewrite (unreachable_outcome e g now Hc Hr) in Hin. cbn [trace] in Hin.
        repeat (apply elem_of_cons in Hin as [Hin|Hin]; [discriminate|]).
        by apply elem_of_nil in Hin.
    + intros He. destruct (trace_started e g now He) as [rest ->].
      apply elem_of_app. left. unfold opening.
      do 4 (apply elem_of_cons; right). apply elem_of_cons. by left.
  - intros He. destruct (refused e (delete_matches g).1) as [|k ks] eqn:Href.
    + rewrite (outcome_written e g now He Href). cbv zeta.
      set (recs := (compute_matches (delete_matches g).1 now).2).
      set (found := opening e g ++ [ConsoleLog (Found (length recs))]
                    ++ top_events recs
                    ++ [ConsoleLog Verifying; SessionRun VerifyStatement]).
      destruct (verify_matches _).2 as [avg|]; cbn [trace exit_code].
      * exists (found ++ [ConsoleLog (Verified (verify_matches
                            (compute_matches (delete_matches g).1 now).1).1 avg);
                          ConsoleLog Complete]), [].
        split; [by rewrite app_nil_r, <- app_assoc|].
        split; [|by left]. intros q Hq. by apply elem_of_nil in Hq.
      * exists found, [ConsoleError (Fatal NullToNumber); ProcessExit 1].
        split; [reflexivity|]. split; [apply Hpost|]. right. eauto.
    + rewrite (outcome_refused e g now k ks He Href). cbn [trace exit_code].
      exists (opening e g), [ConsoleError (Fatal (WriteRefused (c1 k) (c2 k))); ProcessExit 1].
      split; [reflexivity|]. split; [apply Hpost|]. right. eauto.
Qed.

Lemma X4_connection_closed_witness :
  started env_refusing
  ∧ ∃ before after,
      trace (compute_matches_js env_refusing steel_chem 0) = before ++ closing ++ after
      ∧ ∀ q, SessionRun q ∉ after.
Proof.
  assert (started env_refusing) as He by (repeat split; reflexivity).
  split; [exact He|].
  destruct (proj2 (X4_connection_closed env_refusing steel_chem 0) He)
    as (before & after & Htrace & Hrun & _).
  exists before, after. split; [exact Htrace|exact Hrun].
Defined.

Lemma run_frame e g now :
  nodes (final (compute_matches_js e g now)) = nodes g
  ∧ ∀ i r, typ r ≠ POTENTIAL_MATCH →
      (rels (final (compute_matches_js e g now)) !! i = Some r ↔ rels g !! i = Some r).
Proof.
  destruct (started_cases e) as [Hc|[[Hc Hr]|He]].
  - by rewrite (unconfigured_outcome e g now Hc).
  - by rewrite (unreachable_outcome e g now Hc Hr).
  - rewrite (final_started e g now He).
    destruct (refused e (delete_matches g).1).
    + split; [by rewrite compute_matches_nodes|].
      pose proof (compute_matches_written _ now (delete_matches_clear g)) as W.
      intros i r Ht. split.
      * intros Hi. destruct (written_cases _ _ _ _ _ W i r Hi) as [Hold|(k & _ & ->)].
        -- by apply delete_matches_rels in Hold as [? _].
        -- by destruct Ht.
      * intros Hi. apply (written_old _ _ _ _ _ W). by apply delete_matches_rels.
    + split; [done|]. intros i r Ht. rewrite delete_matches_rels. tauto.
Qed.

(** X5: whatever happens, a run changes nothing but PotentialMatch
    edges: the nodes and every relationship of another type are after
    the run what they were before. *)
Theorem X5_only_matches_change (e : env) (g : graph) (now : Z) :
  nodes (final (compute_matches_js e g now)) = nodes g
  ∧ ∀ i r, typ r ≠ POTENTIAL_MATCH →
      (rels (final (compute_matches_js e g now)) !! i = Some r ↔ rels g !! i = Some r).
Proof. apply run_frame. Qed.

(** ** Further properties of the written edges *)

Lemma candidate_group g k w :
  k ∈ candidates g →
  w ∈ group_of (filtered_paths g) (key k) ↔ w ∈ profile g (c1 k) ∩ profile g (c2 k).
Proof.
  intros Hk. unfold key. rewrite elem_of_group_of, elem_of_filtered_paths.
  apply candidate_filter in Hk. tauto.
Qed.

Lemma candidate_names g k :
  k ∈ candidates g →
  NoDup (sharedNames k)
  ∧ list_to_set (sharedNames k)
    = material_names g (profile g (c1 k) ∩ profile g (c2 k)).
Proof.
  intros Hk. pose proof Hk as (_ & _ & ->)%elem_of_candidates.
  split; [apply NoDup_remove_dups|].
  apply set_eq. intros n. unfold material_names.
  rewrite !elem_of_list_to_set, elem_of_remove_dups, !list_elem_of_omap.
  split; intros (w & Hw & Hn); exists w; split; try done.
  - apply elem_of_elements. by apply (candidate_group g k w Hk).
  - apply elem_of_elements in Hw. by apply (candidate_group g k w Hk).
Qed.

(** X6: the shared_materials property of every persisted edge is exactly
    the number of distinct materials the two companies have in common,
    and it is at least 1 (also when a material is linked twice). *)
Theorem X6_shared_materials_exact (e : env) (g : graph) (now : Z) (i : nat) (r : rel) :
  started e →
  match_edge (final (compute_matches_js e g now)) i r →
  rprops r !! "shared_materials"
  = Some (VInteger (intersection_size g (src r) (dst r)))
  ∧ (1 <= intersection_size g (src r) (dst r))%Z.
Proof.
  intros He Hr. destruct (persisted_edge e g now i r He Hr) as (k & Hk & ->).
  apply retained_candidates in Hk.
  rewrite new_match_src, new_match_dst, new_match_shared_materials.
  pose proof (candidate_shared_pos g k Hk) as Hpos.
  rewrite (candidate_shared g k Hk) in *. done.
Qed.

Lemma X6_shared_materials_exact_witness :
  started env_ok
  ∧ match_edge (final (compute_matches_js env_ok double_link 0)) 3
      (new_match double_link
         {| c1 := 1; c2 := 2; shared := 1; sharedNames := ["m1"] |} 0)
  ∧ intersection_size double_link 1 2 = 1%Z
  ∧ rprops (new_match double_link
              {| c1 := 1; c2 := 2; shared := 1; sharedNames := ["m1"] |} 0)
      !! "shared_materials"
    = Some (VInteger (intersection_size double_link 1 2)).
Proof.
  assert (started env_ok) as He by (repeat split; reflexivity).
  assert (match_edge (final (compute_matches_js env_ok double_link 0)) 3
            (new_match double_link
               {| c1 := 1; c2 := 2; shared := 1; sharedNames := ["m1"] |} 0)) as Hr
    by (split; vm_compute; reflexivity).
  split; [exact He|]. split; [exact Hr|]. split; [vm_compute; reflexivity|].
  exact (proj1 (X6_shared_materials_exact env_ok double_link 0 3 _ He Hr)).
Defined.

(** X7: the shared_names of a persisted edge are names of materials the
    two companies have in common, without repetition, and there are as
    many as there are distinct such names, up to five. *)
Theorem X7_shared_names_sample (e : env) (g : graph) (now : Z) (i : nat) (r : rel) :
  started e →
  match_edge (final (compute_matches_js e g now)) i r →
  ∃ names,
    rprops r !! "shared_names" = Some (VStrings names)
    ∧ NoDup names
    ∧ (∀ n, n ∈ names →
         ∃ w, w ∈ profile g (src r) ∩ profile g (dst r) ∧ prop g w "name" = Some n)
    ∧ length names
      = 5 `min` size (material_names g (profile g (src r) ∩ profile g (dst r))).
Proof.
  intros He Hr. destruct (persisted_edge e g now i r He Hr) as (k & Hk & ->).
  apply retained_candidates in Hk.
  rewrite new_match_src, new_match_dst.
  destruct (candidate_names g k Hk) as [Hnd Hset].
  exists (take 5 (sharedNames k)). split; [apply new_match_shared_names|].
  split; [|split].
  - eapply sublist_NoDup; [exact Hnd|apply sublist_take].
  - intros n Hn%subseteq_take.
    assert (n ∈ material_names g (profile g (c1 k) ∩ profile g (c2 k))) as Hin
      by (rewrite <- Hset; by apply elem_of_list_to_set).
    unfold material_names in Hin.
    apply elem_of_list_to_set, list_elem_of_omap in Hin as (w & Hw & Hname).
    exists w. split; [by apply elem_of_elements in Hw|done].
  - rewrite length_take, <- Hset. by rewrite size_list_to_set.
Qed.

Lemma X7_shared_names_sample_witness :
  started env_ok
  ∧ match_edge (final (compute_matches_js env_ok six_shared 0)) 12
      (new_match six_shared six_row 0)
  ∧ size (material_names six_shared (profile six_shared 1 ∩ profile six_shared 2)) = 6
  ∧ ∃ names,
      rprops (new_match six_shared six_row 0) !! "shared_names" = Some (VStrings names)
      ∧ NoDup names ∧ length names = 5.
Proof.
  assert (started env_ok) as He by (repeat split; reflexivity).
  assert (match_edge (final (compute_matches_js env_ok six_shared 0)) 12
            (new_match six_shared six_row 0)) as Hr
    by (split; vm_compute; reflexivity).
  assert (size (material_names six_shared (profile six_shared 1 ∩ profile six_shared 2))
          = 6) as Hsix by (vm_compute; reflexivity).
  split; [exact He|]. split; [exact Hr|]. split; [exact Hsix|].
  destruct (X7_shared_names_sample env_ok six_shared 0 12 _ He Hr)
    as (names & Hnames & Hnd & _ & Hlen).
  exists names. split; [exact Hnames|]. split; [exact Hnd|].
  change (src (new_match six_shared six_row 0)) with 1 in Hlen.
  change (dst (new_match six_shared six_row 0)) with 2 in Hlen.
  rewrite Hsix in Hlen. exact Hlen.
Defined.

Lemma round3_mono (x y : Q) : (x <= y)%Q → (round3 x <= round3 y)%Q.
Proof.
  intros Hxy. unfold round3.
  assert (Qfloor (x * 1000 + (1 # 2)) <= Qfloor (y * 1000 + (1 # 2)))%Z as Hfloor.
  { apply Qfloor_resp_le. lra. }
  rewrite Zle_Qle in Hfloor. unfold Qdiv.
  apply Qmult_le_compat_r; [exact Hfloor|]. vm_compute. discriminate.
Qed.

Lemma Qdiv_le_one (s d : Z) :
  (0 <= s)%Z → (s <= d)%Z → (inject_Z s / inject_Z d <= 1)%Q.
Proof.
  intros Hs Hd. destruct d as [|p|p]; try lia.
  - assert (s = 0%Z) as -> by lia. vm_compute. discriminate.
  - unfold Qle, Qdiv, Qinv, Qmult, inject_Z. simpl. lia.
Qed.

Lemma jaccard_similarity_le_one g a b : (jaccard_similarity g a b <= 1)%Q.
Proof.
  unfold jaccard_similarity.
  pose proof (intersection_le_l g a b). pose proof (intersection_le_r g a b).
  apply Qdiv_le_one; unfold intersection_size in *; lia.
Qed.

(** X8: the stored score never exceeds the Jaccard similarity of the two
    profiles rounded to three decimals, nor 1: counting a material that
    is linked twice can only lower it. *)
Theorem X8_score_upper_bound (e : env) (g : graph) (now : Z) (i : nat) (r : rel) :
  started e →
  match_edge (final (compute_matches_js e g now)) i r →
  ∃ q, rprops r !! "score" = Some (VFloat q)
       ∧ (q <= round3 (jaccard_similarity g (src r) (dst r)))%Q
       ∧ (q <= 1)%Q.
Proof.
  intros He Hr. destruct (persisted_edge e g now i r He Hr) as (k & Hk & ->).
  apply retained_candidates in Hk. rewrite new_match_src, new_match_dst.
  exists (score g k). split; [apply new_match_score|].
  assert (score g k <= round3 (jaccard_similarity g (c1 k) (c2 k)))%Q as Hle.
  { rewrite score_round3. apply round3_mono. by apply jaccard_le_similarity. }
  split; [exact Hle|].
  eapply Qle_trans; [exact Hle|].
  eapply Qle_trans; [apply round3_mono, jaccard_similarity_le_one|].
  vm_compute. discriminate.
Qed.

Lemma X8_score_upper_bound_witness :
  started env_ok
  ∧ (round3 (jaccard_similarity double_link 1 2) == 1)%Q
  ∧ ∃ q, rprops (new_match double_link
                   {| c1 := 1; c2 := 2; shared := 1; sharedNames := ["m1"] |} 0)
           !! "score" = Some (VFloat q)
         ∧ (q <= 1)%Q.
Proof.
  assert (started env_ok) as He by (repeat split; reflexivity).
  assert (match_edge (final (compute_matches_js env_ok double_link 0)) 3
            (new_match double_link
               {| c1 := 1; c2 := 2; shared := 1; sharedNames := ["m1"] |} 0)) as Hr
    by (split; vm_compute; reflexivity).
  split; [exact He|]. split; [vm_compute; reflexivity|].
  destruct (X8_score_upper_bound env_ok double_link 0 3 _ He Hr) as (q & Hq & _ & Hle).
  exists q. split; [exact Hq|exact Hle].
Defined.

(** X9: every persisted edge carries the timestamp of the run that wrote
    it and exactly the four properties the statement sets; nothing of an
    edge of an earlier run is left on it. *)
Theorem X9_fresh_properties (e : env) (g : graph) (now : Z) (i : nat) (r : rel) :
  started e →
  match_edge (final (compute_matches_js e g now)) i r →
  rprops r !! "computed_at" = Some (VDateTime now)
  ∧ dom (rprops r)
    = ({["score"; "shared_materials"; "shared_names"; "computed_at"]} : gset string).
Proof.
  intros He Hr. destruct (persisted_edge e g now i r He Hr) as (k & _ & ->).
  split; [apply new_match_computed_at|].
  simpl. unfold set_match_props. rewrite !dom_insert_L, dom_empty_L.
  apply set_eq. intros x. rewrite !elem_of_union, !elem_of_singleton, elem_of_empty.
  tauto.
Qed.

Lemma X9_fresh_properties_witness :
  started env_ok
  ∧ match_edge stale_match 9
      {| src := 1; typ := POTENTIAL_MATCH; dst := 3;
         rprops := {["score" := VFloat (1 # 1)]} |}
  ∧ ∃ r, match_edge (final (compute_matches_js env_ok stale_match 7)) 6 r
         ∧ rprops r !! "computed_at" = Some (VDateTime 7).
Proof.
  assert (started env_ok) as He by (repeat split; reflexivity).
  split; [exact He|]. split; [split; vm_compute; reflexivity|].
  assert (match_edge (final (compute_matches_js env_ok stale_match 7)) 6
            (new_match stale_match
               {| c1 := 1; c2 := 2; shared := 1; sharedNames := ["SlagA"] |} 7)) as Hr
    by (split; vm_compute; reflexivity).
  eexists. split; [exact Hr|].
  exact (proj1 (X9_fresh_properties env_ok stale_match 7 6 _ He Hr)).
Defined.

(** ** The records of the scoring statement *)

Lemma insert_desc_perm r l : insert_desc r l ≡ₚ r :: l.
Proof.
  induction l as [|r' l IH]; simpl; [done|].
  destruct (decide _); [done|]. rewrite IH. apply Permutation_swap.
Qed.

Lemma order_by_score_desc_perm l : order_by_score_desc l ≡ₚ l.
Proof.
  induction l as [|r l IH]; simpl; [done|].
  fold (order_by_score_desc l). by rewrite insert_desc_perm, IH.
Qed.

Lemma insert_desc_sorted r l :
  StronglySorted score_desc l → StronglySorted score_desc (insert_desc r l).
Proof.
  induction l as [|r' l IH]; simpl; intros Hs.
  - by repeat constructor.
  - apply StronglySorted_inv in Hs as [Hs Hall].
    destruct (decide _) as [Hle|Hnle].
    + constructor; [by constructor|]. constructor; [exact Hle|].
      eapply Forall_impl; [exact Hall|]. intros x Hx. unfold score_desc in *.
      by eapply Qle_trans.
    + constructor; [by apply IH|].
      rewrite insert_desc_perm. constructor; [|done].
      unfold score_desc. apply Qlt_le_weak. by apply Qnot_le_lt.
Qed.

Lemma order_by_score_desc_sorted l : StronglySorted score_desc (order_by_score_desc l).
Proof.
  induction l as [|r l IH]; simpl; [constructor|].
  by apply insert_desc_sorted.
Qed.

Lemma size_filter_insert_match (rs : gmap nat rel) i r :
  rs !! i = None → typ r = POTENTIAL_MATCH →
  size (filter (λ e : nat * rel, typ e.2 = POTENTIAL_MATCH) (<[i := r]> rs))
  = S (size (filter (λ e : nat * rel, typ e.2 = POTENTIAL_MATCH) rs)).
Proof.
  intros Hi Ht. rewrite map_filter_insert_True by done.
  apply map_size_insert_None. apply map_lookup_filter_None. by left.
Qed.

Lemma write_matches_rows g now rs0 :
  (∀ i r, rs0 !! i = Some r → typ r ≠ POTENTIAL_MATCH) →
  ∀ ks done rs,
    NoDup (key <$> (done ++ ks)) → written g now rs0 done rs →
    (write_matches g now rs ks).2 = return_record g <$> ks
    ∧ size (filter (λ e : nat * rel, typ e.2 = POTENTIAL_MATCH)
              (write_matches g now rs ks).1)
      = size (filter (λ e : nat * rel, typ e.2 = POTENTIAL_MATCH) rs) + length ks.
Proof.
  intros Hclear. induction ks as [|k ks IH]; intros done rs Hnd W; simpl.
  - split; [done|lia].
  - assert (key k ∉ key <$> done) as Hk.
    { rewrite fmap_app in Hnd. apply NoDup_app in Hnd as (_ & Hdis & _).
      intros Hin. apply (Hdis _ Hin). rewrite fmap_cons. apply elem_of_cons. by left. }
    pose proof (written_step g now rs0 Hclear done rs k W Hk) as W'.
    unfold merge_match in *.
    rewrite (written_no_match g now rs0 Hclear done rs k W Hk) in *. simpl in W'.
    cbv zeta.
    pose proof (is_fresh (dom rs)) as Hfresh. apply not_elem_of_dom in Hfresh.
    specialize (IH (done ++ [k]) (<[fresh (dom rs) := new_match g k now]> rs)).
    rewrite <- app_assoc in IH. specialize (IH Hnd W').
    destruct (write_matches g now _ ks) as [rs2 recs]. simpl in *.
    destruct IH as [-> ->]. split; [done|].
    rewrite size_filter_insert_match by done. lia.
Qed.

Lemma compute_matches_rows g now :
  (∀ i r, rels g !! i = Some r → typ r ≠ POTENTIAL_MATCH) →
  (compute_matches g now).2 = order_by_score_desc (return_record g <$> retained g)
  ∧ size (filter (λ e : nat * rel, typ e.2 = POTENTIAL_MATCH)
            (rels (compute_matches g now).1))
    = length (retained g).
Proof.
  intros Hclear.
  destruct (write_matches_rows g now (rels g) Hclear (retained g) [] (rels g))
    as [Hrecs Hsize]; [apply retained_keys_NoDup|by apply written_nil|].
  unfold compute_matches.
  destruct (write_matches g now (rels g) (retained g)) as [rs recs]. simpl in *.
  split; [by rewrite Hrecs|]. rewrite Hsize.
  replace (filter (λ e : nat * rel, typ e.2 = POTENTIAL_MATCH) (rels g))
    with (∅ : gmap nat rel); [by rewrite map_size_empty|].
  symmetry. apply map_empty. intros i.
  destruct (filter _ (rels g) !! i) as [r|] eqn:E; [|done].
  apply map_lookup_filter_Some in E as [Hi Ht]. by destruct (Hclear i r Hi).
Qed.

Lemma return_record_delete g k : return_record (delete_matches g).1 k = return_record g k.
Proof. unfold return_record, score. by rewrite jaccard_delete. Qed.

Lemma run_records e g now :
  started e → refused e g = [] →
  (compute_matches (delete_matches g).1 now).2
  = order_by_score_desc (return_record g <$> retained g)
  ∧ size (filter (λ e : nat * rel, typ e.2 = POTENTIAL_MATCH)
            (rels (final (compute_matches_js e g now))))
    = length (retained g).
Proof.
  intros He Href. rewrite <- refused_delete in Href.
  rewrite (final_started e g now He), Href.
  destruct (compute_matches_rows (delete_matches g).1 now (delete_matches_clear g))
    as [Hrecs Hsize].
  rewrite Hrecs, Hsize, retained_delete. split; [|done].
  f_equal. apply list_fmap_ext. intros _ k _. apply return_record_delete.
Qed.

(** X10: the counts a run reports are the real ones.  The number logged
    as removed is the number of PotentialMatch edges the graph had (the
    graph shrinks by exactly that many relationships); when no write is
    refused the number logged as found is the number of retained pairs
    and of PotentialMatch edges after the run, and when it is not zero
    the verification reports the same total. *)
Theorem X10_reported_counts (e : env) (g : graph) (now : Z) :
  started e → refused e g = [] →
  ConsoleLog (Removed (Z.of_nat (size (filter (λ e : nat * rel, typ e.2 = POTENTIAL_MATCH)
                                         (rels g)))))
    ∈ trace (compute_matches_js e g now)
  ∧ size (rels g)
    = size (rels (delete_matches g).1)
      + size (filter (λ e : nat * rel, typ e.2 = POTENTIAL_MATCH) (rels g))
  ∧ ConsoleLog (Found (length (retained g))) ∈ trace (compute_matches_js e g now)
  ∧ size (filter (λ e : nat * rel, typ e.2 = POTENTIAL_MATCH)
            (rels (final (compute_matches_js e g now))))
    = length (retained g)
  ∧ (retained g ≠ [] →
       ∃ avg, ConsoleLog (Verified (Z.of_nat (length (retained g))) avg)
              ∈ trace (compute_matches_js e g now)).
Proof.
  intros He Href. destruct (run_records e g now He Href) as [Hrecs Hsize].
  pose proof Href as Href'. rewrite <- refused_delete in Href'.
  split; [|split; [|split; [|split]]].
  - destruct (trace_started e g now He) as [rest ->]. apply elem_of_app. left.
    unfold opening. do 7 (apply elem_of_cons; right). apply elem_of_cons. by left.
  - rewrite <- (map_filter_union_complement
                  (λ e : nat * rel, typ e.2 = POTENTIAL_MATCH) (rels g)) at 1.
    rewrite map_size_disj_union by apply map_disjoint_filter_complement.
    simpl. lia.
  - rewrite (outcome_written e g now He Href'). cbv zeta. rewrite Hrecs.
    rewrite (Permutation_length (order_by_score_desc_perm _)), length_fmap.
    destruct (verify_matches _).2; cbn [trace];
      rewrite !elem_of_app, list_elem_of_singleton; tauto.
  - exact Hsize.
  - intros Hne. destruct (retained g) as [|k ks] eqn:Hret; [done|].
    assert (k ∈ retained g) as Hk by (rewrite Hret; apply elem_of_cons; by left).
    pose proof (exit_code_written e g now k He Href Hk) as Hexit.
    rewrite (final_started e g now He), Href' in Hsize.
    rewrite (outcome_written e g now He Href') in *. cbv zeta in *.
    destruct (verify_matches _).2 as [avg|]; cbn [trace exit_code] in *; [|discriminate].
    exists avg. unfold verify_matches. cbn [fst]. rewrite Hsize.
    rewrite !elem_of_app, !elem_of_cons. tauto.
Qed.

Lemma X10_reported_counts_witness :
  started env_ok ∧ refused env_ok stale_match = []
  ∧ size (filter (λ e : nat * rel, typ e.2 = POTENTIAL_MATCH) (rels stale_match)) = 1
  ∧ length (retained stale_match) = 1
  ∧ ConsoleLog (Removed 1) ∈ trace (compute_matches_js env_ok stale_match 0)
  ∧ ConsoleLog (Found 1) ∈ trace (compute_matches_js env_ok stale_match 0).
Proof.
  assert (started env_ok) as He by (repeat split; reflexivity).
  assert (refused env_ok stale_match = []) as Href by (vm_compute; reflexivity).
  assert (size (filter (λ e : nat * rel, typ e.2 = POTENTIAL_MATCH) (rels stale_match))
          = 1) as Hone by (vm_compute; reflexivity).
  assert (length (retained stale_match) = 1) as Hret by (vm_compute; reflexivity).
  destruct (X10_reported_counts env_ok stale_match 0 He Href)
    as (Hremoved & _ & Hfound & _).
  rewrite Hone in Hremoved. rewrite Hret in Hfound.
  repeat (split; [assumption|]). exact Hfound.
Defined.

Lemma length_top_events recs : length (top_events recs) ≤ 11.
Proof.
  unfold top_events. destruct (decide _); simpl; [|lia].
  rewrite length_fmap, length_take. lia.
Qed.

(** X11: the records the scoring statement returns are the records of
    the retained pairs in descending order of score, and the run logs,
    after their number, a header and the first ten of them at most
    (nothing when there is none). *)
Theorem X11_top_matches (e : env) (g : graph) (now : Z) :
  started e → refused e g = [] →
  ∃ recs before after,
    recs ≡ₚ return_record g <$> retained g
    ∧ StronglySorted score_desc recs
    ∧ trace (compute_matches_js e g now)
      = before ++ ConsoleLog (Found (length recs))
                  :: (if decide (0 < length recs)
                      then ConsoleLog TopTen
                           :: ((λ r, ConsoleLog (TopMatch r)) <$> take 10 recs)
                      else [])
                  ++ ConsoleLog Verifying :: after.
Proof.
  intros He Href. destruct (run_records e g now He Href) as [Hrecs _].
  rewrite <- refused_delete in Href.
  exists (order_by_score_desc (return_record g <$> retained g)), (opening e g).
  rewrite (outcome_written e g now He Href). cbv zeta. rewrite Hrecs.
  set (recs := order_by_score_desc (return_record g <$> retained g)).
  fold (top_events recs).
  destruct (verify_matches _).2 as [avg|]; cbn [trace].
  - eexists. split; [apply order_by_score_desc_perm|].
    split; [apply order_by_score_desc_sorted|].
    rewrite <- !app_assoc. simpl. reflexivity.
  - eexists. split; [apply order_by_score_desc_perm|].
    split; [apply order_by_score_desc_sorted|].
    rewrite <- !app_assoc. simpl. reflexivity.
Qed.

Lemma X11_top_matches_witness :
  started env_ok ∧ refused env_ok steel_chem = []
  ∧ ∃ recs, recs ≡ₚ return_record steel_chem <$> retained steel_chem
            ∧ StronglySorted score_desc recs.
Proof.
  assert (started env_ok) as He by (repeat split; reflexivity).
  assert (refused env_ok steel_chem = []) as Href by (vm_compute; reflexivity).
  split; [exact He|]. split; [exact Href|].
  destruct (X11_top_matches env_ok steel_chem 0 He Href)
    as (recs & _ & _ & Hperm & Hsorted & _).
  exists recs. split; [exact Hperm|exact Hsorted].
Defined.

(** ** Batching *)

Lemma batch_loop_chunks {A} (arr : list A) (size : nat) :
  0 < size →
  ∀ fuel i batches,
    length arr - i ≤ fuel →
    ∃ bs,
      batch_loop fuel arr size i batches = Some (batches ++ bs)
      ∧ concat bs = drop i arr
      ∧ Forall (λ b, 0 < length b ≤ size) bs
      ∧ (∀ j b, bs !! j = Some b → S j < length bs → length b = size)
      ∧ length arr - i ≤ length bs * size < (length arr - i) + size.
Proof.
  intros Hsize. induction fuel as [|fuel IH]; intros i batches Hfuel.
  - exists []. simpl. rewrite decide_False by lia.
    rewrite app_nil_r, drop_ge by lia. repeat split; try done; simpl; lia.
  - simpl. destruct (decide (i < length arr)) as [Hi|Hi].
    + destruct (IH (i + size) (batches ++ [take size (drop i arr)])) as
        (bs & Hloop & Hcat & Hall & Hfull & Hlen); [lia|].
      exists (take size (drop i arr) :: bs).
      rewrite Hloop, <- app_assoc. split; [done|].
      assert (length (take size (drop i arr)) = size `min` (length arr - i)) as Hchunk
        by by rewrite length_take, length_drop.
      split; [|split; [|split]].
      * simpl. rewrite Hcat, <- drop_drop. apply take_drop.
      * constructor; [lia|done].
      * intros [|j] b Hj Hlast; simpl in *.
        -- injection Hj as <-. rewrite Hchunk.
           destruct bs; simpl in *; [lia|]. nia.
        -- apply (Hfull j b Hj). lia.
      * cbn [length]. rewrite Nat.mul_succ_l.
        destruct (decide (size ≤ length arr - i)); [lia|].
        destruct (length bs); simpl in *; lia.
    + exists []. rewrite app_nil_r, drop_ge by lia.
      repeat split; try done; simpl; lia.
Qed.

Lemma batch_loop_zero {A} (arr : list A) (i : nat) :
  i < length arr → ∀ fuel batches, batch_loop fuel arr 0 i batches = None.
Proof.
  intros Hi. induction fuel as [|fuel IH]; intros batches; simpl;
    rewrite decide_True by done; [done|].
  rewrite Nat.add_0_r. apply IH.
Qed.

(** X13: for a positive batch size [batch] returns the array cut into
    consecutive chunks: put together they give the array back, none is
    empty or longer than the size, every chunk but the last has exactly
    the size, and there are as many as the length divided by the size,
    rounded up. *)
Theorem X13_batch_chunks {A} (arr : list A) (size : nat) :
  0 < size →
  ∃ batches,
    batch arr size = Some batches
    ∧ concat batches = arr
    ∧ Forall (λ b, 0 < length b ≤ size) batches
    ∧ (∀ j b, batches !! j = Some b → S j < length batches → length b = size)
    ∧ length arr ≤ length batches * size < length arr + size.
Proof.
  intros Hsize.
  destruct (batch_loop_chunks arr size Hsize (length arr) 0 []) as
    (bs & Hloop & Hcat & Hall & Hfull & Hlen); [lia|].
  exists bs. unfold batch. rewrite Hloop. rewrite Nat.sub_0_r in Hlen.
  by rewrite drop_0 in Hcat.
Qed.

Lemma X13_batch_chunks_witness :
  0 < 3
  ∧ ∃ batches, batch [1; 2; 3; 4; 5; 6; 7] 3 = Some batches
               ∧ concat batches = [1; 2; 3; 4; 5; 6; 7]
               ∧ batches = [[1; 2; 3]; [4; 5; 6]; [7]].
Proof.
  assert (0 < 3) as Hsize by lia. split; [exact Hsize|].
  destruct (X13_batch_chunks [1; 2; 3; 4; 5; 6; 7] 3 Hsize)
    as (batches & Hbatch & Hcat & _).
  exists batches. split; [exact Hbatch|]. split; [exact Hcat|].
  vm_compute in Hbatch. by injection Hbatch as <-.
Defined.

(** X14: an empty array gives no batch, whatever the size; with size 0
    and a non-empty array the loop never ends: no amount of fuel lets it
    return. *)
Theorem X14_batch_edge_cases {A} (arr : list A) (size : nat) :
  batch (@nil A) size = Some []
  ∧ (arr ≠ [] → ∀ fuel, batch_loop fuel arr 0 0 [] = None).
Proof.
  split; [done|]. intros Hne fuel. apply batch_loop_zero.
  destruct arr; [done|simpl; lia].
Qed.

(** ** What the insights route reads after a run *)

Lemma insights_insert_perm ge x l : Insights.insert_desc ge x l ≡ₚ x :: l.
Proof.
  induction l as [|y l IH]; simpl; [done|].
  destruct (ge _ _); [done|]. rewrite IH. apply Permutation_swap.
Qed.

Lemma insights_order_perm ge l : Insights.order_by_score_desc ge l ≡ₚ l.
Proof.
  induction l as [|x l IH]; simpl; [done|].
  fold (Insights.order_by_score_desc ge l). by rewrite insights_insert_perm, IH.
Qed.

Lemma insights_insert_sorted ge x l :
  Insights.numeric ge →
  (∃ p, Insights.scored x p) → Forall (λ y, ∃ q, Insights.scored y q) l →
  StronglySorted Insights.before l →
  StronglySorted Insights.before (Insights.insert_desc ge x l).
Proof.
  intros Hnum [p Hp]. induction l as [|y l IH]; simpl; intros Hall Hs.
  - by repeat constructor.
  - apply Forall_cons in Hall as [[q Hq] Hall].
    apply StronglySorted_inv in Hs as [Hs Hbefore].
    unfold Insights.scored in Hp, Hq. rewrite Hp, Hq.
    destruct (ge (Some (VFloat p)) (Some (VFloat q))) eqn:Hge.
    + apply Hnum in Hge. constructor; [by constructor|].
      constructor; [by exists p, q|].
      eapply Forall_impl; [exact Hbefore|].
      intros z (q' & r & Hq' & Hr & Hle). unfold Insights.scored in Hq'.
      rewrite Hq in Hq'. injection Hq' as <-.
      exists p, r. repeat split; try done. by eapply Qle_trans.
    + constructor; [by apply IH|].
      rewrite insights_insert_perm. constructor; [|done].
      exists q, p. repeat split; try done.
      apply Qlt_le_weak, Qnot_le_lt. intros Hle. apply Hnum in Hle. congruence.
Qed.

Lemma insights_order_sorted ge l :
  Insights.numeric ge → Forall (λ y, ∃ q, Insights.scored y q) l →
  StronglySorted Insights.before (Insights.order_by_score_desc ge l).
Proof.
  intros Hnum. induction l as [|x l IH]; simpl; intros Hall; [constructor|].
  apply Forall_cons in Hall as [Hx Hall].
  apply insights_insert_sorted; try done; [|by apply IH].
  fold (Insights.order_by_score_desc ge l). by rewrite insights_order_perm.
Qed.

Lemma prop_final e g now n key' :
  prop (final (compute_matches_js e g now)) n key' = prop g n key'.
Proof. unfold prop. by rewrite (proj1 (run_frame e g now)). Qed.

Lemma has_label_final e g now n l :
  has_label (final (compute_matches_js e g now)) n l ↔ has_label g n l.
Proof. unfold has_label. by rewrite (proj1 (run_frame e g now)). Qed.

Lemma row_of_new_match e g now k :
  Insights.row_of (final (compute_matches_js e g now)) (new_match g k now)
  = Insights.row_of_pair g k.
Proof.
  unfold Insights.row_of, Insights.row_of_pair, row_score, pair_names.
  rewrite new_match_src, new_match_dst, !prop_final.
  by rewrite new_match_score, new_match_shared_materials, new_match_shared_names.
Qed.

Lemma elem_of_matched_final e g now x :
  started e → refused e g = [] →
  x ∈ Insights.matched (final (compute_matches_js e g now))
  ↔ ∃ k, k ∈ retained g ∧ x = Insights.row_of_pair g k.
Proof.
  intros He Href. unfold Insights.matched. rewrite list_elem_of_fmap. split.
  - intros ([i r] & -> & Hin). apply elem_of_map_to_list in Hin.
    apply map_lookup_filter_Some in Hin as [Hi (Ht & _)]. simpl in *.
    destruct (persisted_edge e g now i r He (conj Hi Ht)) as (k & Hk & ->).
    exists k. split; [done|]. apply row_of_new_match.
  - intros (k & Hk & ->). rewrite <- refused_delete in Href.
    destruct (retained_persisted e g now k He Href Hk) as (i & Hi & Ht).
    exists (i, new_match g k now). cbn [snd]. split; [by rewrite row_of_new_match|].
    apply elem_of_map_to_list, map_lookup_filter_Some. split; [done|]. cbn [snd].
    rewrite new_match_src, new_match_dst, !has_label_final.
    apply retained_candidates, candidate_filter in Hk. tauto.
Qed.

Lemma length_matched_final e g now :
  started e → refused e g = [] →
  length (Insights.matched (final (compute_matches_js e g now))) = length (retained g).
Proof.
  intros He Href. destruct (run_records e g now He Href) as [_ Hsize].
  unfold Insights.matched. rewrite length_fmap, length_map_to_list, <- Hsize.
  f_equal. apply map_filter_ext. intros i r Hi. cbn [snd]. split; [tauto|].
  intros Ht. split; [done|].
  destruct (persisted_edge e g now i r He (conj Hi Ht)) as (k & Hk & ->).
  rewrite new_match_src, new_match_dst, !has_label_final.
  apply retained_candidates, candidate_filter in Hk. tauto.
Qed.

(** X15: what the insights route reads after a run that completed its
    writes, for any order on values that is numeric on floats: the rows
    of 30 retained pairs (of all when there are fewer), each with the
    names, industries, score, count and names sample of its pair, in
    descending order of score; a retained pair that is not shown has a
    score no higher than any row shown. *)
Theorem X15_insights_after_run (score_ge : option value → option value → bool)
    (e : env) (g : graph) (now : Z) :
  Insights.numeric score_ge →
  started e → refused e g = [] →
  let rows := Insights.query score_ge (final (compute_matches_js e g now)) in
  length rows = 30 `min` length (retained g)
  ∧ StronglySorted Insights.before rows
  ∧ (∀ x, x ∈ rows → ∃ k, k ∈ retained g ∧ x = Insights.row_of_pair g k)
  ∧ (∀ k, k ∈ retained g → Insights.row_of_pair g k ∉ rows →
       ∀ x, x ∈ rows → Insights.before x (Insights.row_of_pair g k)).
Proof.
  intros Hnum He Href rows. unfold Insights.query in rows.
  pose proof (length_matched_final e g now He Href) as Hlen.
  set (gf := final (compute_matches_js e g now)) in *.
  set (sorted := Insights.order_by_score_desc score_ge (Insights.matched gf)) in *.
  assert (StronglySorted Insights.before sorted) as Hsorted.
  { apply insights_order_sorted; [done|]. apply Forall_forall. intros x Hx.
    apply (elem_of_matched_final e g now x He Href) in Hx as (k & _ & ->).
    by eexists. }
  assert (∀ x, x ∈ sorted ↔ ∃ k, k ∈ retained g ∧ x = Insights.row_of_pair g k) as Hin.
  { intros x. unfold sorted. rewrite insights_order_perm.
    apply (elem_of_matched_final e g now x He Href). }
  rewrite <- (take_drop 30 sorted) in Hsorted.
  apply StronglySorted_app in Hsorted as (Hcross & Htake & _).
  split; [|split; [|split]].
  - unfold rows. rewrite length_take. unfold sorted.
    rewrite (Permutation_length (insights_order_perm _ _)).
    rewrite Hlen. lia.
  - exact Htake.
  - intros x Hx%subseteq_take. by apply Hin.
  - intros k Hk Hnot x Hx. apply Hcross; [done|].
    assert (Insights.row_of_pair g k ∈ sorted) as Hs by (apply Hin; eauto).
    rewrite <- (take_drop 30 sorted) in Hs.
    by apply elem_of_app in Hs as [?|?].
Qed.

Lemma float_ge_numeric : Insights.numeric Insights.float_ge.
Proof. intros p q. simpl. apply Qle_bool_iff. Qed.

Lemma X15_insights_after_run_witness :
  Insights.numeric Insights.float_ge
  ∧ started env_ok ∧ refused env_ok steel_chem = []
  ∧ length (retained steel_chem) = 2
  ∧ length (Insights.query Insights.float_ge
              (final (compute_matches_js env_ok steel_chem 0))) = 2.
Proof.
  assert (started env_ok) as He by (repeat split; reflexivity).
  assert (refused env_ok steel_chem = []) as Href by (vm_compute; reflexivity).
  assert (length (retained steel_chem) = 2) as Hret by (vm_compute; reflexivity).
  split; [exact float_ge_numeric|]. split; [exact He|]. split; [exact Href|].
  split; [exact Hret|].
  destruct (X15_insights_after_run Insights.float_ge env_ok steel_chem 0
              float_ge_numeric He Href) as (Hlen & _).
  rewrite Hret in Hlen. exact Hlen.
Defined.

(** ** The generated dataset (generate_dataset.js)

    Every loop of [generate] keeps the invariant [inv] and only extends
    the arrays and the map ([extends]); the properties of the returned
    graph follow from the two. *)

Section generator.
Import Dataset.

Lemma foldl_inv {A B} (P : A → Prop) (f : A → B → A) l a :
  P a → (∀ a x, x ∈ l → P a → P (f a x)) → P (foldl f a l).
Proof.
  revert a. induction l as [|x l IH]; intros a Ha Hf; simpl; [done|].
  apply IH.
  - apply Hf; [left|done].
  - intros a' y Hy. apply Hf. by right.
Qed.

#[local] Instance extends_refl : Reflexive extends.
Proof. intros st. by split. Qed.

#[local] Instance extends_trans : Transitive extends.
Proof.
  intros a b c [] []. split; etrans; eauto.
Qed.

Lemma has_node_prefix ns ns' i t :
  ns `prefix_of` ns' → has_node ns i t → has_node ns' i t.
Proof.
  intros [l Hl] (n & Hn & Hi & Ht). subst ns'. exists n. split; [|done].
  apply elem_of_app. by left.
Qed.

Lemma edge_ok_prefix ns ns' e :
  ns `prefix_of` ns' → edge_ok ns e → edge_ok ns' e.
Proof.
  intros Hp (s & t & He & Hs & Ht). exists s, t.
  split; [done|]. split; eapply has_node_prefix; eauto.
Qed.

Lemma inv_initial : inv initial.
Proof.
  split; simpl; try done.
  - intros nm wid. rewrite lookup_empty. split; [done|].
    intros (n & Hn & _). by apply elem_of_nil in Hn.
  - intros c Hc. by apply elem_of_nil in Hc.
  - intros c Hc. by apply elem_of_nil in Hc.
  - intros c Hc. by apply elem_of_nil in Hc.
Qed.

Lemma inv_push_node st st' n :
  inv st →
  nodes st' = nodes st ++ [n] → nodeId st' = S (nodeId st) →
  edges st' = edges st → edgeId st' = edgeId st →
  id n = (id_prefix (type n) ++ pretty (nodeId st))%string →
  (∀ nm wid, wasteNodesByName st' !! nm = Some wid ↔
     (wasteNodesByName st !! nm = Some wid
      ∨ (type n = WasteMaterial ∧ id n = wid ∧ name_of n = Some (JString nm)))) →
  (type n = WasteMaterial → ∃ nm, name_of n = Some (JString nm)) →
  (∀ r, r ∈ companyNodes st' → r ∈ companyNodes st ∨ is_company r n) →
  inv st'.
Proof.
  intros [Hn He Hni Hei Hw Hnd Hc Heo] Hnodes HnodeId Hedges HedgeId Hid Hmap
    Hnamed Hcomp.
  split.
  - rewrite HnodeId, Hnodes, length_app, Hn. simpl. lia.
  - by rewrite HedgeId, Hedges.
  - intros k m. rewrite Hnodes. intros Hk.
    apply lookup_app_Some in Hk as [Hk|[Hlen Hk]]; [by apply Hni|].
    apply list_lookup_singleton_Some in Hk as [Hk ->].
    rewrite Hid, Hn. do 3 f_equal. lia.
  - intros k e. rewrite Hedges. apply Hei.
  - intros nm wid. rewrite Hmap, Hw, Hnodes. split.
    + intros [(m & Hm & H)|(Ht & Hi & Hnm)].
      * exists m. split; [|done]. apply elem_of_app. by left.
      * exists n. split; [|done]. apply elem_of_app. right. by apply list_elem_of_singleton.
    + intros (m & Hm & Ht & Hi & Hnm).
      apply elem_of_app in Hm as [Hm|Hm].
      * left. by exists m.
      * apply list_elem_of_singleton in Hm as ->. by right.
  - intros m. rewrite Hnodes. intros Hm Ht.
    apply elem_of_app in Hm as [Hm|Hm]; [by apply Hnd|].
    apply list_elem_of_singleton in Hm as ->. by apply Hnamed.
  - intros c Hcin. rewrite Hnodes.
    destruct (Hcomp c Hcin) as [Hold|Hnew].
    + destruct (Hc c Hold) as (m & Hm & Hcm). exists m. split; [|done].
      apply elem_of_app. by left.
    + exists n. split; [|done]. apply elem_of_app. right. by apply list_elem_of_singleton.
  - intros e Hein. rewrite Hnodes. rewrite Hedges in Hein.
    eapply edge_ok_prefix; [|by apply Heo]. by apply prefix_app_r.
Qed.

Lemma inv_push_edge st t s tg l1 l2 a b :
  inv st → endpoints t = Some (a, b) →
  has_node (nodes st) s a → has_node (nodes st) tg b →
  inv (push_edge t s tg l1 l2 st).
Proof.
  intros [Hn He Hni Hei Hw Hnm Hc Heo] Het Hs Ht. split; simpl; try done.
  - rewrite length_app, He. simpl. lia.
  - intros k e Hk.
    apply lookup_app_Some in Hk as [Hk|[Hlen Hk]]; [by apply Hei|].
    apply list_lookup_singleton_Some in Hk as [Hk <-]. simpl.
    rewrite He. do 3 f_equal. lia.
  - intros e Hein. apply elem_of_app in Hein as [Hein|Hein]; [by apply Heo|].
    apply list_elem_of_singleton in Hein as ->. by exists a, b.
Qed.

Lemma extends_push_edge st t s tg l1 l2 :
  extends st (push_edge t s tg l1 l2 st).
Proof. split; simpl; try done. by apply prefix_app_r. Qed.

Lemma inv_has_company st r :
  inv st → r ∈ companyNodes st → has_node (nodes st) (ref_id r) Company.
Proof.
  intros Hinv Hr. destruct (inv_companies _ Hinv r Hr) as (n & Hn & Ht & Hi & _).
  by exists n.
Qed.

Lemma inv_warn msg st : inv st → inv (warn msg st).
Proof. by intros []. Qed.

Lemma extends_warn msg st : extends st (warn msg st).
Proof. by split. Qed.

Lemma has_node_last ns n : has_node (ns ++ [n]) (id n) (type n).
Proof. exists n. split; [|done]. apply elem_of_app. right. by apply list_elem_of_singleton. Qed.

Lemma add_waste_inv T ind cid c st w :
  inv st → has_node (nodes st) cid Company →
  inv (add_waste T ind cid c st w) ∧ extends st (add_waste T ind cid c st w).
Proof.
  intros Hinv Hcid. unfold add_waste.
  destruct (wasteNodesByName st !! w_name w) as [wid|] eqn:Hw.
  - split; [|apply extends_push_edge].
    apply (inv_wastes _ Hinv) in Hw as (n & Hn & Ht & Hi & _).
    apply (inv_push_edge _ _ _ _ _ _ Company WasteMaterial); [done|done|done|].
    by exists n.
  - match goal with |- context [push_edge _ _ _ _ _ ?s] => set (st1 := s) end.
    assert (Hext : extends st st1).
    { split; simpl; try done; [by apply prefix_app_r|].
      by apply insert_subseteq. }
    assert (Hinv1 : inv st1).
    { eapply (inv_push_node st st1);
        [done|simpl; reflexivity|done|done|done|done|
       |first [done|by eexists]|].
      - simpl. intros nm wid. rewrite lookup_insert_Some. split.
        + intros [[<- <-]|[Hne Hl]]; [right|left]; done.
        + intros [Hl|(_ & <- & Heq)].
          * right. split; [|done]. intros <-. congruence.
          * left. by inversion Heq.
      - simpl. by left. }
    split.
    + apply (inv_push_edge _ _ _ _ _ _ Company WasteMaterial); [done|done| |].
      * eapply has_node_prefix; [apply Hext|done].
      * apply (has_node_last (nodes st)).
    + etrans; [apply Hext|apply extends_push_edge].
Qed.

Lemma foldl_inv_ext {B} (f : state → B → state) (Q : state → Prop) l st :
  inv st → Q st →
  (∀ a b, extends a b → Q a → Q b) →
  (∀ a x, x ∈ l → inv a → Q a → inv (f a x) ∧ extends a (f a x)) →
  inv (foldl f st l) ∧ extends st (foldl f st l).
Proof.
  intros Hinv HQ Hmono Hf.
  apply (foldl_inv (λ a, (inv a ∧ extends st a))); [done|].
  intros a x Hx [Ha Hext].
  destruct (Hf a x Hx Ha) as [Hi He]; [by eapply Hmono|].
  split; [done|]. by etrans.
Qed.

Lemma add_company_inv T ind st c :
  inv st → inv (add_company T ind st c) ∧ extends st (add_company T ind st c).
Proof.
  intros Hinv. unfold add_company.
  match goal with |- context [foldl _ ?s _] => set (st1 := s) end.
  assert (Hext : extends st st1).
  { split; simpl; try done; by apply prefix_app_r. }
  assert (Hinv1 : inv st1).
  { eapply (inv_push_node st st1);
      [done|simpl; reflexivity|done|done|done|done|
       |first [done|by eexists]|].
    - simpl. intros nm wid. split; [by left|]. by intros [?|[? _]].
    - simpl. intros r Hr. apply elem_of_app in Hr as [Hr|Hr]; [by left|].
      apply list_elem_of_singleton in Hr as ->. by right. }
  destruct (foldl_inv_ext (add_waste T ind ("company_" ++ pretty (nodeId st)) c)
              (λ a, has_node (nodes a) ("company_" ++ pretty (nodeId st)) Company)
              (wastes ind) st1) as [Hi He]; try done.
  - apply (has_node_last (nodes st)).
  - intros a b Hab. apply has_node_prefix, Hab.
  - intros a w _ Ha Hc. by apply add_waste_inv.
  - split; [done|]. by etrans.
Qed.

Lemma add_industry_inv T st ind :
  inv st → inv (add_industry T st ind) ∧ extends st (add_industry T st ind).
Proof.
  intros Hinv. unfold add_industry.
  apply (foldl_inv_ext _ (λ _, True)); try done.
  intros a c _ Ha _. by apply add_company_inv.
Qed.

Lemma truthy_Some v x : truthy v = Some x → v = Some x ∧ x ≠ "".
Proof.
  destruct v as [y|]; simpl; [|done].
  destruct (decide (y = "")); [done|]. by intros [= <-].
Qed.

Lemma add_regulation_inv st reg :
  inv st → inv (add_regulation st reg) ∧ extends st (add_regulation st reg).
Proof.
  intros Hinv. unfold add_regulation.
  match goal with |- context [foldl _ ?s _] => set (st1 := s) end.
  assert (Hext : extends st st1).
  { split; simpl; try done; by apply prefix_app_r. }
  assert (Hinv1 : inv st1).
  { eapply (inv_push_node st st1);
      [done|simpl; reflexivity|done|done|done|done|
       |first [done|by eexists]|].
    - simpl. intros nm wid. split; [by left|]. by intros [?|[? _]].
    - simpl. by left. }
  match goal with |- context [foldl ?f st1 ?l] =>
    destruct (foldl_inv_ext f
                (λ a, has_node (nodes a) ("reg_" ++ pretty (nodeId st)) Regulation)
                l st1) as [Hi He]; try done end.
  - apply (has_node_last (nodes st)).
  - intros a b Hab. apply has_node_prefix, Hab.
  - intros a wn _ Ha Hr.
    destruct (truthy (wasteNodesByName a !! wn)) as [wid|] eqn:Hw.
    + split; [|apply extends_push_edge].
      apply truthy_Some in Hw as [Hw _].
      apply (inv_wastes _ Ha) in Hw as (n & Hn & Ht & Hid & _).
      apply (inv_push_edge _ _ _ _ _ _ WasteMaterial Regulation); [done|done| |done].
      by exists n.
    + split; [by apply inv_warn|apply extends_warn].
  - split; [done|]. by etrans.
Qed.

Lemma add_upcycle_inv st entry :
  inv st → inv (add_upcycle st entry) ∧ extends st (add_upcycle st entry).
Proof.
  intros Hinv. unfold add_upcycle.
  match goal with |- context [foldl ?f st ?l] =>
    apply (foldl_inv_ext f
             (λ a, ∀ r, r ∈ filter (λ c, ref_industry c = entry.1) (companyNodes st) →
                        has_node (nodes a) (ref_id r) Company)) end; try done.
  - intros r Hr. apply list_elem_of_filter in Hr as [_ Hr]. by apply inv_has_company.
  - intros a b Hab Ha r Hr. eapply has_node_prefix; [apply Hab|]. by apply Ha.
  - intros a wn _ Ha Hcs.
    destruct (truthy (wasteNodesByName a !! wn)) as [wid|] eqn:Hw; [|done].
    apply truthy_Some in Hw as [Hw _].
    apply (inv_wastes _ Ha) in Hw as (n & Hn & Ht & Hid & _).
    match goal with |- context [foldl ?f a ?l] =>
      apply (foldl_inv_ext f
               (λ a', has_node (nodes a') wid WasteMaterial
                      ∧ ∀ r, r ∈ l → has_node (nodes a') (ref_id r) Company)) end;
      try done.
    + split; [by exists n|done].
    + intros a1 a2 H12 [H1 H2]. split.
      * eapply has_node_prefix; [apply H12|done].
      * intros r Hr. eapply has_node_prefix; [apply H12|]. by apply H2.
    + intros a1 r Hr Ha1 [H1 H2]. split; [|apply extends_push_edge].
      apply (inv_push_edge _ _ _ _ _ _ Company WasteMaterial); [done|done| |done].
      by apply H2.
Qed.

Lemma add_complements_inv st entry :
  inv st → inv (add_complements st entry) ∧ extends st (add_complements st entry).
Proof.
  intros Hinv. unfold add_complements.
  destruct (truthy (wasteNodesByName st !! entry.1)) as [sid|] eqn:Hs; [|done].
  apply truthy_Some in Hs as [Hs _].
  apply (inv_wastes _ Hinv) in Hs as (n & Hn & Ht & Hid & _).
  match goal with |- context [foldl ?f st ?l] =>
    apply (foldl_inv_ext f (λ a, has_node (nodes a) sid WasteMaterial)) end; try done.
  - by exists n.
  - intros a b Hab. apply has_node_prefix, Hab.
  - intros a tn _ Ha Hsid.
    destruct (truthy (wasteNodesByName a !! tn)) as [tid|] eqn:Hw; [|done].
    apply truthy_Some in Hw as [Hw _].
    apply (inv_wastes _ Ha) in Hw as (m & Hm & Htm & Hidm & _).
    split; [|apply extends_push_edge].
    apply (inv_push_edge _ _ _ _ _ _ WasteMaterial WasteMaterial); [done|done|done|].
    by exists m.
Qed.

Lemma foldl_inv_steps {B} (f : state → B → state) l st :
  inv st → (∀ a x, inv a → inv (f a x) ∧ extends a (f a x)) →
  inv (foldl f st l) ∧ extends st (foldl f st l).
Proof.
  intros Hinv Hf. apply (foldl_inv_ext f (λ _, True)); try done.
  intros a x _ Ha _. by apply Hf.
Qed.

Lemma run_phases T : run T = foldl add_complements (phase3 T) (COMPLEMENTS_MAP T).
Proof. done. Qed.

Lemma phase1_inv T : inv (phase1 T).
Proof. apply foldl_inv_steps; [apply inv_initial|]. intros. by apply add_industry_inv. Qed.

Lemma phase2_inv T : inv (phase2 T) ∧ extends (phase1 T) (phase2 T).
Proof. apply foldl_inv_steps; [apply phase1_inv|]. intros. by apply add_regulation_inv. Qed.

Lemma phase3_inv T : inv (phase3 T) ∧ extends (phase2 T) (phase3 T).
Proof. apply foldl_inv_steps; [apply phase2_inv|]. intros. by apply add_upcycle_inv. Qed.

Lemma run_inv T : inv (run T) ∧ extends (phase3 T) (run T).
Proof.
  rewrite run_phases.
  apply foldl_inv_steps; [apply phase3_inv|]. intros. by apply add_complements_inv.
Qed.

Lemma prefix_pretty_inj t1 t2 (a b : nat) :
  (id_prefix t1 ++ pretty a = id_prefix t2 ++ pretty b)%string → t1 = t2 ∧ a = b.
Proof.
  destruct t1, t2; simpl; intros H; try discriminate;
    (split; [done|]); simplify_eq/=; by apply (inj pretty).
Qed.

Lemma inv_ids_NoDup st : inv st → NoDup (id <$> nodes st).
Proof.
  intros Hinv. apply NoDup_alt. intros i j x Hi Hj.
  apply list_lookup_fmap_Some in Hi as (n & -> & Hn).
  apply list_lookup_fmap_Some in Hj as (m & Heq & Hm).
  rewrite (inv_node_ids _ Hinv _ _ Hn), (inv_node_ids _ Hinv _ _ Hm) in Heq.
  apply prefix_pretty_inj in Heq as [_ Heq]. lia.
Qed.

Lemma inv_edge_ids_NoDup st : inv st → NoDup (edge_id <$> edges st).
Proof.
  intros Hinv. apply NoDup_alt. intros i j x Hi Hj.
  apply list_lookup_fmap_Some in Hi as (n & -> & Hn).
  apply list_lookup_fmap_Some in Hj as (m & Heq & Hm).
  rewrite (inv_edge_ids _ Hinv _ _ Hn), (inv_edge_ids _ Hinv _ _ Hm) in Heq.
  apply (inj (String.append _)) in Heq. apply (inj pretty) in Heq. lia.
Qed.

Lemma inv_node_eq st n m :
  inv st → n ∈ nodes st → m ∈ nodes st → id n = id m → n = m.
Proof.
  intros Hinv Hn Hm Heq.
  apply list_elem_of_lookup in Hn as [i Hi]. apply list_elem_of_lookup in Hm as [j Hj].
  rewrite (inv_node_ids _ Hinv _ _ Hi), (inv_node_ids _ Hinv _ _ Hj) in Heq.
  apply prefix_pretty_inj in Heq as [_ Heq]. simplify_eq. congruence.
Qed.

Lemma inv_waste_unique st n m nm :
  inv st → n ∈ nodes st → m ∈ nodes st →
  type n = WasteMaterial → type m = WasteMaterial →
  name_of n = Some (JString nm) → name_of m = Some (JString nm) → n = m.
Proof.
  intros Hinv Hn Hm Htn Htm Hnn Hnm.
  apply (inv_node_eq st); try done.
  assert (H1 : wasteNodesByName st !! nm = Some (id n)).
  { apply (inv_wastes _ Hinv). by exists n. }
  assert (H2 : wasteNodesByName st !! nm = Some (id m)).
  { apply (inv_wastes _ Hinv). by exists m. }
  congruence.
Qed.

Lemma inv_id_nonempty st n : inv st → n ∈ nodes st → id n ≠ "".
Proof.
  intros Hinv Hn. apply list_elem_of_lookup in Hn as [i Hi].
  rewrite (inv_node_ids _ Hinv _ _ Hi). by destruct (type n).
Qed.

Lemma prefix_elem_of {A} (l k : list A) x : l `prefix_of` k → x ∈ l → x ∈ k.
Proof. intros [l' ->] Hx. apply elem_of_app. by left. Qed.

Lemma produced_extends a b r w : extends a b → produced a r w → produced b r w.
Proof.
  intros [_ He Hw _] (wid & e & Hl & Hin & H). exists wid, e.
  split; [by eapply lookup_weaken|]. split; [by eapply prefix_elem_of|done].
Qed.

Lemma company_done_extends a b ind c :
  extends a b → company_done a ind c → company_done b ind c.
Proof.
  intros Hab (r & Hr & Hn & Hi & Hw). exists r.
  split; [eapply prefix_elem_of; [apply Hab|done]|].
  do 2 (split; [done|]). intros w Hin. eapply produced_extends; eauto.
Qed.

Lemma upcycled_extends a b r wid : extends a b → upcycled a r wid → upcycled b r wid.
Proof.
  intros [_ He _ _] (e & Hin & H). exists e.
  split; [by eapply prefix_elem_of|done].
Qed.

Lemma foldl_ext {B} (I : state → Prop) (f : state → B → state) l st :
  I st →
  (∀ a x, x ∈ l → I a → I (f a x) ∧ extends a (f a x)) →
  I (foldl f st l) ∧ extends st (foldl f st l).
Proof.
  intros HI Hf. apply (foldl_inv (λ a, I a ∧ extends st a)); [done|].
  intros a x Hx [Ha Hext]. destruct (Hf a x Hx Ha) as [Hi He].
  split; [done|]. by etrans.
Qed.

Lemma foldl_each {B} (I : state → Prop) (f : state → B → state)
    (R : state → B → Prop) l st :
  I st →
  (∀ a x, x ∈ l → I a → I (f a x) ∧ extends a (f a x)) →
  (∀ a b x, extends a b → R a x → R b x) →
  (∀ a x, x ∈ l → I a → extends st a → R (f a x) x) →
  ∀ x, x ∈ l → R (foldl f st l) x.
Proof.
  revert st. induction l as [|y l IH]; intros st HI Hf Hmono HR x Hx.
  { by apply elem_of_nil in Hx. }
  simpl. destruct (Hf st y) as [HI' Hext']; [left|done|].
  apply elem_of_cons in Hx as [->|Hx].
  - destruct (foldl_ext I f l (f st y)) as [_ Hext]; [done| |].
    + intros a x Hx. apply Hf. by right.
    + eapply Hmono; [apply Hext|]. apply HR; [left|done|done].
  - apply IH; try done.
    + intros a z Hz. apply Hf. by right.
    + intros a z Hz Ha Hext. apply HR; [by right|done|]. by etrans.
Qed.

Lemma add_waste_produced T ind cid c st w r :
  ref_id r = cid → produced (add_waste T ind cid c st w) r w.
Proof.
  intros <-. unfold add_waste, produced.
  destruct (wasteNodesByName st !! w_name w) as [wid|] eqn:Hw; simpl.
  - eexists wid, _. split; [done|].
    split; [apply elem_of_app; right; by apply list_elem_of_singleton|done].
  - eexists _, _. split; [apply lookup_insert_eq|].
    split; [apply elem_of_app; right; by apply list_elem_of_singleton|done].
Qed.

Lemma add_company_done T ind st c :
  inv st → company_done (add_company T ind st c) ind c.
Proof.
  intros Hinv. unfold add_company.
  match goal with |- context [foldl _ ?s _] => set (st1 := s) end.
  set (cid := ("company_" ++ pretty (nodeId st))%string).
  set (r := {| ref_id := cid; ref_name := c_name c; ref_industry := i_name ind |}).
  assert (Hinv1 : inv st1).
  { eapply (inv_push_node st st1);
      [done|simpl; reflexivity|done|done|done|done|
       |first [done|by eexists]|].
    - simpl. intros nm wid. split; [by left|]. by intros [?|[? _]].
    - simpl. intros r' Hr. apply elem_of_app in Hr as [Hr|Hr]; [by left|].
      apply list_elem_of_singleton in Hr as ->. by right. }
  set (I := λ a, inv a ∧ has_node (nodes a) cid Company).
  assert (HI : I st1). { split; [done|]. apply (has_node_last (nodes st)). }
  assert (Hstep : ∀ a w, w ∈ wastes ind → I a →
            I (add_waste T ind cid c a w) ∧ extends a (add_waste T ind cid c a w)).
  { intros a w _ [Ha Hc]. destruct (add_waste_inv T ind cid c a w Ha Hc) as [H1 H2].
    split; [|done]. split; [done|]. eapply has_node_prefix; [apply H2|done]. }
  exists r. split; [|split; [done|split; [done|]]].
  - destruct (foldl_ext I (add_waste T ind cid c) (wastes ind) st1 HI Hstep)
      as [_ Hext].
    eapply prefix_elem_of; [apply Hext|]. simpl.
    apply elem_of_app. right. by apply list_elem_of_singleton.
  - apply (foldl_each I (add_waste T ind cid c) (λ a w, produced a r w)); try done.
    + intros a b w. apply produced_extends.
    + intros a w _ _ _. by apply add_waste_produced.
Qed.

Lemma inv_steps {B} (f : state → B → state) (l : list B) :
  (∀ a x, inv a → inv (f a x) ∧ extends a (f a x)) →
  ∀ a x, x ∈ l → inv a → inv (f a x) ∧ extends a (f a x).
Proof. intros Hf a x _. apply Hf. Qed.

Lemma add_industry_done T st ind c :
  inv st → c ∈ companies ind → company_done (add_industry T st ind) ind c.
Proof.
  intros Hinv. unfold add_industry.
  apply (foldl_each inv (add_company T ind) (λ a c, company_done a ind c)); try done.
  - apply inv_steps. intros. by apply add_company_inv.
  - intros a b x. apply company_done_extends.
  - intros a x _ Ha _. by apply add_company_done.
Qed.

Lemma phase1_done T ind c :
  ind ∈ INDUSTRIES T → c ∈ companies ind → company_done (phase1 T) ind c.
Proof.
  intros Hind Hc. revert c Hc. unfold phase1.
  apply (foldl_each inv (add_industry T)
           (λ a ind, ∀ c, c ∈ companies ind → company_done a ind c)
           (INDUSTRIES T) initial); try done.
  - apply inv_initial.
  - apply inv_steps. intros. by apply add_industry_inv.
  - intros a b x Hab H c Hc. eapply company_done_extends; eauto.
  - intros a x _ Ha _ c Hc. by apply add_industry_done.
Qed.

Lemma inv_truthy st nm wid :
  inv st → wasteNodesByName st !! nm = Some wid →
  truthy (wasteNodesByName st !! nm) = Some wid.
Proof.
  intros Hinv Hl. rewrite Hl. simpl.
  apply (inv_wastes _ Hinv) in Hl as (n & Hn & _ & <- & _).
  destruct (decide (id n = "")) as [He|]; [|done].
  by apply (inv_id_nonempty st n) in He.
Qed.

Lemma add_upcycle_done st entry wn r wid :
  inv st → wn ∈ entry.2 → r ∈ companyNodes st → ref_industry r = entry.1 →
  wasteNodesByName st !! wn = Some wid →
  upcycled (add_upcycle st entry) r wid.
Proof.
  intros Hinv Hwn Hr Hri Hw. unfold add_upcycle.
  set (consumers := filter (λ c, ref_industry c = entry.1) (companyNodes st)).
  assert (Hrc : r ∈ consumers) by by apply list_elem_of_filter.
  set (I := λ a, inv a ∧ ∀ r, r ∈ consumers → has_node (nodes a) (ref_id r) Company).
  set (g := λ wasteId wasteName (st'' : state) (consumer : company_ref),
              push_edge CAN_UPCYCLE (ref_id consumer) wasteId
                (ref_name consumer) wasteName st'').
  assert (Hg : ∀ a wid' wn', I a → has_node (nodes a) wid' WasteMaterial →
            I (foldl (g wid' wn') a consumers)
            ∧ extends a (foldl (g wid' wn') a consumers)).
  { intros a wid' wn' HIa Hwid.
    destruct (foldl_ext (λ a', I a' ∧ has_node (nodes a') wid' WasteMaterial)
                (g wid' wn') consumers a) as [[H1 _] H2]; [done| |done].
    intros a' r' Hr' [[Ha' Hcs] Hwid']. split; [|apply extends_push_edge].
    split; [split|done]; [|done].
    apply (inv_push_edge _ _ _ _ _ _ Company WasteMaterial); [done|done| |done].
    by apply Hcs. }
  match goal with |- upcycled (foldl ?f st ?l) _ _ =>
    apply (foldl_each I f
             (λ a wn, wasteNodesByName st !! wn = Some wid → upcycled a r wid) l st)
      with (x := wn) end; try done.
  - split; [done|]. intros r' Hr'. apply list_elem_of_filter in Hr' as [_ Hr'].
    by apply inv_has_company.
  - intros a wn' _ HIa.
    destruct (truthy (wasteNodesByName a !! wn')) as [wid'|] eqn:Ht; [|done].
    apply Hg; [done|]. apply truthy_Some in Ht as [Ht _].
    apply (inv_wastes _ (proj1 HIa)) in Ht as (n & Hn & Htn & Hid & _). by exists n.
  - intros a b wn' Hab H Hl. eapply upcycled_extends; eauto.
  - intros a wn' _ HIa Hext Hl.
    assert (Hl' : wasteNodesByName a !! wn' = Some wid).
    { eapply lookup_weaken; [done|apply Hext]. }
    rewrite (inv_truthy a wn' wid (proj1 HIa) Hl').
    apply (foldl_each (λ a', I a' ∧ has_node (nodes a') wid WasteMaterial)
             (g wid wn') (λ a' r', upcycled a' r' wid) consumers a); try done.
    + split; [done|].
      apply (inv_wastes _ (proj1 HIa)) in Hl' as (n & Hn & Htn & Hid & _). by exists n.
    + intros a' r' Hr' [[Ha' Hcs] Hwid']. split; [|apply extends_push_edge].
      split; [split|done]; [|done].
      apply (inv_push_edge _ _ _ _ _ _ Company WasteMaterial); [done|done| |done].
      by apply Hcs.
    + intros a1 a2 r'. apply upcycled_extends.
    + intros a' r' _ _ _. eexists. simpl.
      split; [apply elem_of_app; right; by apply list_elem_of_singleton|done].
Qed.

Lemma phase3_done T entry wn r wid :
  entry ∈ UPCYCLE_MAP T → wn ∈ entry.2 → r ∈ companyNodes (phase2 T) →
  ref_industry r = entry.1 → wasteNodesByName (phase2 T) !! wn = Some wid →
  upcycled (phase3 T) r wid.
Proof.
  intros Hentry Hwn Hr Hri Hw. revert wn Hwn Hw. unfold phase3.
  apply (foldl_each inv add_upcycle
           (λ a entry, ref_industry r = entry.1 → ∀ wn, wn ∈ entry.2 →
              wasteNodesByName (phase2 T) !! wn = Some wid → upcycled a r wid)
           (UPCYCLE_MAP T) (phase2 T)) with (x := entry); try done.
  - apply phase2_inv.
  - apply inv_steps. intros. by apply add_upcycle_inv.
  - intros a b x Hab H Hx wn Hwn Hl. eapply upcycled_extends; eauto.
  - intros a x _ Ha Hext Hx wn Hwn Hl.
    apply (add_upcycle_done a x wn); try done.
    + eapply prefix_elem_of; [apply Hext|done].
    + eapply lookup_weaken; [done|apply Hext].
Qed.

Lemma foldl_measure {A B} (m : A → nat) (f : A → B → A) (d : B → nat) l a :
  (∀ a x, m (f a x) = m a + d x) →
  m (foldl f a l) = m a + sum_list (d <$> l).
Proof.
  intros Hf. revert a. induction l as [|x l IH]; intros a; csimpl; [lia|].
  rewrite IH, Hf. lia.
Qed.

Lemma foldl_same {A B C} (m : A → C) (f : A → B → A) l a :
  (∀ a x, m (f a x) = m a) → m (foldl f a l) = m a.
Proof.
  intros Hf. revert a. induction l as [|x l IH]; intros a; simpl; [done|].
  by rewrite IH, Hf.
Qed.

Lemma sum_list_const {A} (l : list A) n : sum_list ((λ _, n) <$> l) = length l * n.
Proof. induction l as [|x l IH]; csimpl; [done|]. rewrite IH. lia. Qed.

Lemma count_edges_push t t' s tg l1 l2 st :
  count_edges t (push_edge t' s tg l1 l2 st)
  = count_edges t st + (if decide (t' = t) then 1 else 0).
Proof.
  unfold count_edges. simpl. rewrite filter_app, length_app. f_equal.
  rewrite filter_cons, filter_nil. simpl. by destruct (decide (t' = t)).
Qed.

Lemma count_type_push t n (st st' : state) :
  nodes st' = nodes st ++ [n] →
  count_type t st' = count_type t st + (if decide (type n = t) then 1 else 0).
Proof.
  unfold count_type. intros ->. rewrite filter_app, length_app. f_equal.
  rewrite filter_cons, filter_nil. by destruct (decide (type n = t)).
Qed.

Lemma add_waste_edges T ind cid c st w t :
  count_edges t (add_waste T ind cid c st w)
  = count_edges t st + (if decide (PRODUCES = t) then 1 else 0).
Proof.
  unfold add_waste.
  destruct (wasteNodesByName st !! w_name w); by rewrite count_edges_push.
Qed.

Lemma add_company_edges T ind st c t :
  count_edges t (add_company T ind st c)
  = count_edges t st + (if decide (PRODUCES = t) then length (wastes ind) else 0).
Proof.
  unfold add_company.
  rewrite (foldl_measure (count_edges t) _
             (λ _, if decide (PRODUCES = t) then 1 else 0)).
  - rewrite sum_list_const. unfold count_edges at 1. simpl.
    fold (count_edges t st). destruct (decide (PRODUCES = t)); lia.
  - intros a w. apply add_waste_edges.
Qed.

Lemma add_industry_edges T st ind t :
  count_edges t (add_industry T st ind)
  = count_edges t st
    + (if decide (PRODUCES = t)
       then length (companies ind) * length (wastes ind) else 0).
Proof.
  unfold add_industry.
  rewrite (foldl_measure (count_edges t) _
             (λ _, if decide (PRODUCES = t) then length (wastes ind) else 0)).
  - rewrite sum_list_const. destruct (decide (PRODUCES = t)); lia.
  - intros a c. apply add_company_edges.
Qed.

Lemma phase1_edges T t :
  count_edges t (phase1 T)
  = if decide (PRODUCES = t)
    then sum_list ((λ ind, length (companies ind) * length (wastes ind))
                   <$> INDUSTRIES T)
    else 0.
Proof.
  unfold phase1.
  rewrite (foldl_measure (count_edges t) _
             (λ ind, if decide (PRODUCES = t)
                     then length (companies ind) * length (wastes ind) else 0)).
  - destruct (decide (PRODUCES = t)); [done|].
    change (count_edges t initial) with 0. rewrite sum_list_const. lia.
  - intros a ind. apply add_industry_edges.
Qed.

Lemma add_regulation_edges st reg : 
  count_edges PRODUCES (add_regulation st reg) = count_edges PRODUCES st.
Proof.
  unfold add_regulation.
  rewrite (foldl_same (count_edges PRODUCES)); [done|].
  intros a wn. destruct (truthy _); [|done].
  rewrite count_edges_push. simpl. lia.
Qed.

Lemma add_upcycle_edges st entry :
  count_edges PRODUCES (add_upcycle st entry) = count_edges PRODUCES st.
Proof.
  unfold add_upcycle.
  rewrite (foldl_same (count_edges PRODUCES)); [done|].
  intros a wn. destruct (truthy _); [|done].
  rewrite (foldl_same (count_edges PRODUCES)); [done|].
  intros a' r. rewrite count_edges_push. simpl. lia.
Qed.

Lemma add_complements_edges st entry :
  count_edges PRODUCES (add_complements st entry) = count_edges PRODUCES st.
Proof.
  unfold add_complements. destruct (truthy _); [|done].
  rewrite (foldl_same (count_edges PRODUCES)); [done|].
  intros a wn. destruct (truthy _); [|done].
  rewrite count_edges_push. simpl. lia.
Qed.

Lemma run_produces T :
  count_edges PRODUCES (run T)
  = sum_list ((λ ind, length (companies ind) * length (wastes ind)) <$> INDUSTRIES T).
Proof.
  rewrite run_phases.
  rewrite (foldl_same (count_edges PRODUCES)) by apply add_complements_edges.
  unfold phase3. rewrite (foldl_same (count_edges PRODUCES)) by apply add_upcycle_edges.
  unfold phase2. rewrite (foldl_same (count_edges PRODUCES)) by apply add_regulation_edges.
  by rewrite phase1_edges.
Qed.

Lemma add_waste_count T ind cid c st w t :
  t ≠ WasteMaterial → count_type t (add_waste T ind cid c st w) = count_type t st.
Proof.
  intros Ht. unfold add_waste.
  destruct (wasteNodesByName st !! w_name w); [done|].
  unfold count_type. simpl. rewrite filter_app, length_app, filter_cons, filter_nil.
  simpl. destruct (decide (WasteMaterial = t)); [congruence|]. simpl. lia.
Qed.

Lemma add_company_count T ind st c t :
  t ≠ WasteMaterial →
  count_type t (add_company T ind st c)
  = count_type t st + (if decide (Company = t) then 1 else 0).
Proof.
  intros Ht. unfold add_company.
  rewrite (foldl_same (count_type t)) by (intros; by apply add_waste_count).
  by erewrite count_type_push by (simpl; reflexivity).
Qed.

Lemma add_industry_count T st ind t :
  t ≠ WasteMaterial →
  count_type t (add_industry T st ind)
  = count_type t st + (if decide (Company = t) then length (companies ind) else 0).
Proof.
  intros Ht. unfold add_industry.
  rewrite (foldl_measure (count_type t) _ (λ _, if decide (Company = t) then 1 else 0)).
  - rewrite sum_list_const. destruct (decide (Company = t)); lia.
  - intros a c. by apply add_company_count.
Qed.

Lemma phase1_count T t :
  t ≠ WasteMaterial →
  count_type t (phase1 T)
  = if decide (Company = t) then length (INDUSTRIES T ≫= companies) else 0.
Proof.
  intros Ht. unfold phase1.
  rewrite (foldl_measure (count_type t) _
             (λ ind, if decide (Company = t) then length (companies ind) else 0))
    by (intros; by apply add_industry_count).
  change (count_type t initial) with 0.
  destruct (decide (Company = t)).
  - induction (INDUSTRIES T) as [|ind l IH]; csimpl; [done|].
    rewrite length_app. simpl in IH. lia.
  - rewrite sum_list_const. lia.
Qed.

Lemma add_regulation_nodes st reg :
  ∃ n, nodes (add_regulation st reg) = nodes st ++ [n] ∧ type n = Regulation.
Proof.
  unfold add_regulation. eexists.
  rewrite (foldl_same nodes).
  - simpl. split; [reflexivity|done].
  - intros a wn. by destruct (truthy _).
Qed.

Lemma add_regulation_count st reg t :
  count_type t (add_regulation st reg)
  = count_type t st + (if decide (Regulation = t) then 1 else 0).
Proof.
  destruct (add_regulation_nodes st reg) as (n & Hn & Ht).
  rewrite (count_type_push t n st _ Hn). by rewrite Ht.
Qed.

Lemma add_regulation_wastes st reg :
  wasteNodesByName (add_regulation st reg) = wasteNodesByName st.
Proof.
  unfold add_regulation. rewrite (foldl_same wasteNodesByName); [done|].
  intros a wn. by destruct (truthy _).
Qed.

Lemma add_upcycle_nodes st entry : nodes (add_upcycle st entry) = nodes st.
Proof.
  unfold add_upcycle. rewrite (foldl_same nodes); [done|].
  intros a wn. destruct (truthy _); [|done].
  by rewrite (foldl_same nodes).
Qed.

Lemma add_upcycle_wastes st entry :
  wasteNodesByName (add_upcycle st entry) = wasteNodesByName st.
Proof.
  unfold add_upcycle. rewrite (foldl_same wasteNodesByName); [done|].
  intros a wn. destruct (truthy _); [|done].
  by rewrite (foldl_same wasteNodesByName).
Qed.

Lemma add_complements_nodes st entry : nodes (add_complements st entry) = nodes st.
Proof.
  unfold add_complements. destruct (truthy _); [|done].
  rewrite (foldl_same nodes); [done|].
  intros a wn. by destruct (truthy _).
Qed.

Lemma add_complements_wastes st entry :
  wasteNodesByName (add_complements st entry) = wasteNodesByName st.
Proof.
  unfold add_complements. destruct (truthy _); [|done].
  rewrite (foldl_same wasteNodesByName); [done|].
  intros a wn. by destruct (truthy _).
Qed.

Lemma run_wastes T : wasteNodesByName (run T) = wasteNodesByName (phase1 T).
Proof.
  rewrite run_phases.
  rewrite (foldl_same wasteNodesByName) by apply add_complements_wastes.
  unfold phase3. rewrite (foldl_same wasteNodesByName) by apply add_upcycle_wastes.
  unfold phase2. by rewrite (foldl_same wasteNodesByName) by apply add_regulation_wastes.
Qed.

Lemma run_count T t :
  t ≠ WasteMaterial →
  count_type t (run T)
  = match t with
    | Company => length (INDUSTRIES T ≫= companies)
    | _ => length (REGULATIONS T)
    end.
Proof.
  intros Ht. rewrite run_phases. unfold count_type.
  rewrite (foldl_same nodes) by apply add_complements_nodes.
  unfold phase3. rewrite (foldl_same nodes) by apply add_upcycle_nodes.
  fold (count_type t (phase2 T)). unfold phase2.
  rewrite (foldl_measure (count_type t) _ (λ _, if decide (Regulation = t) then 1 else 0))
    by (intros; apply add_regulation_count).
  rewrite phase1_count, sum_list_const by done.
  destruct t; simpl; try done; lia.
Qed.

Lemma foldl_union {A B} (m : A → gset string) (f : A → B → A) (D : B → gset string)
    l a :
  (∀ a x, m (f a x) = D x ∪ m a) →
  m (foldl f a l) = ⋃ (D <$> l) ∪ m a.
Proof.
  intros Hf. revert a. induction l as [|x l IH]; intros a; csimpl.
  - by rewrite (left_id_L ∅ (∪)).
  - rewrite IH, Hf. by rewrite (assoc_L (∪)), (comm_L (∪) (⋃ _) (D x)).
Qed.

Lemma add_waste_dom T ind cid c st w :
  dom (wasteNodesByName (add_waste T ind cid c st w))
  = {[w_name w]} ∪ dom (wasteNodesByName st).
Proof.
  unfold add_waste.
  destruct (wasteNodesByName st !! w_name w) as [wid|] eqn:Hw; simpl.
  - apply elem_of_dom_2 in Hw. symmetry. apply subseteq_union_1_L.
    by apply singleton_subseteq_l.
  - by rewrite dom_insert_L.
Qed.

Lemma add_company_dom T ind st c :
  dom (wasteNodesByName (add_company T ind st c))
  = list_to_set (w_name <$> wastes ind) ∪ dom (wasteNodesByName st).
Proof.
  unfold add_company.
  rewrite (foldl_union (λ a, dom (wasteNodesByName a)) _ (λ w, {[w_name w]}))
    by (intros; apply add_waste_dom).
  simpl. f_equal. induction (wastes ind) as [|w l IH]; csimpl; [done|].
  by rewrite IH.
Qed.

Lemma add_industry_dom T st ind :
  dom (wasteNodesByName (add_industry T st ind))
  = list_to_set (if decide (companies ind = []) then [] else w_name <$> wastes ind)
    ∪ dom (wasteNodesByName st).
Proof.
  unfold add_industry.
  rewrite (foldl_union (λ a, dom (wasteNodesByName a)) _
             (λ _, list_to_set (w_name <$> wastes ind)))
    by (intros; apply add_company_dom).
  f_equal. destruct (companies ind) as [|c l]; [done|].
  rewrite decide_False by done. 
  induction l as [|c' l IH] in c |- *; csimpl; [by rewrite (right_id_L ∅ (∪))|].
  specialize (IH c'). csimpl in IH. by rewrite IH, (idemp_L (∪)).
Qed.

Lemma phase1_dom T : dom (wasteNodesByName (phase1 T)) = waste_names T.
Proof.
  unfold phase1, waste_names.
  rewrite (foldl_union (λ a, dom (wasteNodesByName a)) _
             (λ ind, list_to_set (if decide (companies ind = []) then []
                                  else w_name <$> wastes ind)))
    by (intros; apply add_industry_dom).
  simpl. rewrite dom_empty_L, (right_id_L ∅ (∪)).
  induction (INDUSTRIES T) as [|ind l IH]; csimpl; [done|].
  by rewrite list_to_set_app_L, IH.
Qed.

Lemma inv_waste_count st :
  inv st → count_type WasteMaterial st = size (dom (wasteNodesByName st)).
Proof.
  intros Hinv. unfold count_type.
  set (ws := filter (λ n, type n = WasteMaterial) (nodes st)).
  assert (Hnd : NoDup (wname <$> ws)).
  { apply NoDup_fmap_2_strong.
    - intros n m Hn Hm Heq.
      apply list_elem_of_filter in Hn as [Htn Hn]. apply list_elem_of_filter in Hm as [Htm Hm].
      destruct (inv_named _ Hinv n Hn Htn) as [a Ha].
      destruct (inv_named _ Hinv m Hm Htm) as [b Hb].
      unfold wname in Heq. rewrite Ha, Hb in Heq. subst b.
      by eapply inv_waste_unique.
    - apply NoDup_filter. eapply NoDup_fmap_1. by apply inv_ids_NoDup. }
  assert (Hset : dom (wasteNodesByName st) = list_to_set (wname <$> ws)).
  { apply set_eq. intros nm.
    rewrite elem_of_dom, elem_of_list_to_set, list_elem_of_fmap. split.
    - intros [wid Hl]. apply (inv_wastes _ Hinv) in Hl as (n & Hn & Ht & _ & Hnm).
      exists n. split; [unfold wname; by rewrite Hnm|by apply list_elem_of_filter].
    - intros (n & -> & Hn). apply list_elem_of_filter in Hn as [Ht Hn].
      destruct (inv_named _ Hinv n Hn Ht) as [a Ha]. exists (id n).
      apply (inv_wastes _ Hinv). exists n. unfold wname. by rewrite Ha. }
  rewrite Hset, size_list_to_set by done. by rewrite length_fmap.
Qed.

Lemma length_by_type (ns : list node) :
  length ns = length (filter (λ n, type n = Company) ns)
              + length (filter (λ n, type n = WasteMaterial) ns)
              + length (filter (λ n, type n = Regulation) ns).
Proof.
  induction ns as [|n ns IH]; [done|].
  rewrite !filter_cons. destruct (type n); simpl; lia.
Qed.

Lemma run_nodes_Forall T (P : node → Prop) :
  (∀ ind c st, P (company_node T ind c st)) →
  (∀ ind w st, P (waste_node T ind w st)) →
  (∀ reg st, P (regulation_node reg st)) →
  Forall P (nodes (run T)).
Proof.
  intros Hc Hw Hr. rewrite run_phases.
  rewrite (foldl_same nodes) by apply add_complements_nodes.
  unfold phase3. rewrite (foldl_same nodes) by apply add_upcycle_nodes.
  unfold phase2. apply (foldl_inv (λ a, Forall P (nodes a))).
  - unfold phase1. apply (foldl_inv (λ a, Forall P (nodes a))); [constructor|].
    intros a ind _ Ha. unfold add_industry.
    apply (foldl_inv (λ a, Forall P (nodes a))); [done|].
    intros a' c _ Ha'. unfold add_company.
    apply (foldl_inv (λ a, Forall P (nodes a))).
    + simpl. apply Forall_app. split; [done|]. by constructor.
    + intros a'' w _ Ha''. unfold add_waste.
      destruct (wasteNodesByName a'' !! w_name w); simpl; [done|].
      apply Forall_app. split; [done|]. by constructor.
  - intros a reg _ Ha. destruct (add_regulation_nodes a reg) as (n & Hn & _).
    revert Hn. unfold add_regulation.
    rewrite (foldl_same nodes) by (intros a' wn; by destruct (truthy _)).
    simpl. intros _. apply Forall_app. split; [done|]. by constructor.
Qed.

Lemma inject_Z_le (x y : Z) : (x <= y)%Z → (inject_Z x <= inject_Z y)%Q.
Proof. by rewrite Zle_Qle. Qed.

Lemma inject_Z_lt (x y : Z) : (x < y)%Z → (inject_Z x < inject_Z y)%Q.
Proof. by rewrite Zlt_Qlt. Qed.

Lemma inject_Z_lt_inv (x y : Z) : (inject_Z x < inject_Z y)%Q → (x < y)%Z.
Proof. by rewrite Zlt_Qlt. Qed.

Lemma Qfloor_range (r : Q) (n : Z) :
  (0 <= r)%Q → (r < 1)%Q → (0 < n)%Z → (0 <= Qfloor (r * inject_Z n) < n)%Z.
Proof.
  intros H0 H1 Hn.
  assert (Hn' : (0 < inject_Z n)%Q) by (by apply (inject_Z_lt 0 n)).
  split.
  - change 0%Z with (Qfloor 0). apply Qfloor_resp_le. nra.
  - apply inject_Z_lt_inv. eapply Qle_lt_trans; [apply Qfloor_le|]. nra.
Qed.

Lemma randomQuantity_range r :
  (0 <= r)%Q → (r < 1)%Q → (1 <= randomQuantity r <= 500)%Q.
Proof.
  intros H0 H1. unfold randomQuantity.
  destruct (Qfloor_range r 500 H0 H1) as [Hl Hu]; [done|].
  change (inject_Z 500) with 500%Q in Hl, Hu.
  split.
  - apply (inject_Z_le 1). lia.
  - apply (inject_Z_le _ 500). lia.
Qed.

Lemma capacity_range r :
  (0 <= r)%Q → (r < 1)%Q →
  (500 <= 500 + inject_Z (Qfloor (r * 9500)) <= 9999)%Q.
Proof.
  intros H0 H1. destruct (Qfloor_range r 9500 H0 H1) as [Hl Hu]; [done|].
  change (inject_Z 9500) with 9500%Q in Hl, Hu.
  apply (inject_Z_le 0) in Hl. apply Z.lt_le_pred, (inject_Z_le _ 9499) in Hu.
  change (inject_Z 0) with 0%Q in Hl.
  change (inject_Z 9499) with 9499%Q in Hu. lra.
Qed.

Lemma round_range (a b : Z) (r : Q) :
  (a <= b)%Z → (0 <= r)%Q → (r <= 1)%Q →
  (inject_Z a
   <= inject_Z (round ((inject_Z a + r * (inject_Z b - inject_Z a)) * 100)) / 100
   <= inject_Z b)%Q.
Proof.
  intros Hab H0 H1. unfold round.
  set (x := ((inject_Z a + r * (inject_Z b - inject_Z a)) * 100)%Q).
  apply inject_Z_le in Hab.
  assert (Hx : (inject_Z (a * 100) <= x <= inject_Z (b * 100))%Q).
  { rewrite !inject_Z_mult. change (inject_Z 100) with 100%Q. unfold x. nra. }
  assert (Hl : (a * 100 <= Qfloor (x + (1 # 2)))%Z).
  { rewrite <- (Qfloor_Z (a * 100)). apply Qfloor_resp_le. lra. }
  assert (Hu : (Qfloor (x + (1 # 2)) <= b * 100)%Z).
  { apply Z.lt_succ_r, inject_Z_lt_inv. eapply Qle_lt_trans; [apply Qfloor_le|].
    unfold Z.succ. rewrite inject_Z_plus. change (inject_Z 1) with 1%Q. lra. }
  apply inject_Z_le in Hl, Hu. rewrite inject_Z_mult in Hl, Hu.
  change (inject_Z 100) with 100%Q in Hl, Hu.
  split.
  - apply Qle_shift_div_l; lra.
  - apply Qle_shift_div_r; lra.
Qed.

Lemma price_range_integers cat :
  ∃ a b : Z, price_range cat = (inject_Z a, inject_Z b) ∧ (a <= b)%Z.
Proof.
  unfold price_range, get, PRICE_RANGES.
  repeat case_decide; simpl; eexists _, _; (split; [reflexivity|done]).
Qed.

Lemma randomPrice_range r cat :
  (0 <= r)%Q → (r < 1)%Q →
  ((price_range cat).1 <= randomPrice r cat <= (price_range cat).2)%Q.
Proof.
  intros H0 H1. unfold randomPrice.
  destruct (price_range_integers cat) as (a & b & -> & Hab). simpl.
  apply round_range; [done|done|lra].
Qed.

Lemma generate_in_range T n :
  (∀ k, (0 <= random T k)%Q ∧ (random T k < 1)%Q) →
  n ∈ (generate T).1 → in_range n.
Proof.
  intros Hr. revert n. apply Forall_forall. apply run_nodes_Forall.
  - intros ind c st. eexists. split; [reflexivity|].
    apply capacity_range; apply Hr.
  - intros ind w st. eexists _, _, _. do 3 (split; [reflexivity|]). split.
    + apply randomPrice_range; apply Hr.
    + apply randomQuantity_range; apply Hr.
  - done.
Qed.

Lemma run_company_done T ind c :
  ind ∈ INDUSTRIES T → c ∈ companies ind → company_done (run T) ind c.
Proof.
  intros Hind Hc.
  eapply company_done_extends; [|by apply phase1_done].
  etrans; [apply phase2_inv|]. etrans; [apply phase3_inv|]. apply run_inv.
Qed.

Lemma produced_nodes st r w ind c :
  inv st → r ∈ companyNodes st → ref_name r = c_name c → ref_industry r = i_name ind →
  produced st r w →
  ∃ cn wn e, cn ∈ nodes st ∧ wn ∈ nodes st ∧ e ∈ edges st
    ∧ type cn = Company ∧ name_of cn = Some (JString (c_name c))
    ∧ get (properties cn) "industry" = Some (JString (i_name ind))
    ∧ type wn = WasteMaterial ∧ name_of wn = Some (JString (w_name w))
    ∧ edge_type e = PRODUCES ∧ source e = id cn ∧ target e = id wn.
Proof.
  intros Hinv Hr Hn Hi (wid & e & Hl & He & Ht & Hs & Htg).
  destruct (inv_companies _ Hinv r Hr) as (cn & Hcn & Htc & Hidc & Hnc & Hic).
  apply (inv_wastes _ Hinv) in Hl as (wn & Hwn & Htw & Hidw & Hnw).
  exists cn, wn, e. rewrite <- Hn, <- Hi. repeat split; try done; congruence.
Qed.

Lemma inv_truthy_None st nm :
  inv st → truthy (wasteNodesByName st !! nm) = None ↔ nm ∉ dom (wasteNodesByName st).
Proof.
  intros Hinv. rewrite not_elem_of_dom.
  destruct (wasteNodesByName st !! nm) as [wid|] eqn:Hl; [|done].
  rewrite <- Hl, (inv_truthy st nm wid Hinv Hl). by rewrite Hl.
Qed.

Lemma add_regulation_warnings st reg :
  inv st →
  warnings (add_regulation st reg)
  = warnings st
    ++ (wasteName ← appliesTo reg;
        if decide (wasteName ∈ dom (wasteNodesByName st)) then []
        else [unknown_waste reg wasteName]).
Proof.
  intros Hinv. unfold add_regulation.
  match goal with |- context [foldl _ ?s _] => set (st1 := s) end.
  assert (Hinv1 : inv st1).
  { eapply (inv_push_node st st1);
      [done|simpl; reflexivity|done|done|done|done|
       |first [done|by eexists]|].
    - simpl. intros nm wid. split; [by left|]. by intros [?|[? _]].
    - simpl. by left. }
  assert (Hreg : has_node (nodes st1) (id (regulation_node reg st)) Regulation).
  { apply (has_node_last (nodes st)). }
  change (warnings st) with (warnings st1).
  change (wasteNodesByName st) with (wasteNodesByName st1).
  generalize dependent st1. clear Hinv.
  induction (appliesTo reg) as [|wn l IH]; intros a Ha Hreg; csimpl.
  { by rewrite app_nil_r. }
  destruct (truthy (wasteNodesByName a !! wn)) as [wid|] eqn:Ht.
  - rewrite IH.
    + simpl. rewrite decide_True; [done|].
      apply truthy_Some in Ht as [Ht _]. by apply elem_of_dom_2 in Ht.
    + apply truthy_Some in Ht as [Ht _].
      apply (inv_wastes _ Ha) in Ht as (n & Hn & Htn & Hid & _).
      apply (inv_push_edge _ _ _ _ _ _ WasteMaterial Regulation); [done|done| |done].
      by exists n.
    + done.
  - rewrite IH; [|by apply inv_warn|done].
    simpl. rewrite decide_False by (by apply inv_truthy_None). by rewrite <- app_assoc.
Qed.

Lemma add_waste_warnings T ind cid c st w :
  warnings (add_waste T ind cid c st w) = warnings st.
Proof. unfold add_waste. by destruct (wasteNodesByName st !! w_name w). Qed.

Lemma phase1_warnings T : warnings (phase1 T) = [].
Proof.
  unfold phase1. rewrite (foldl_same warnings); [done|].
  intros a ind. unfold add_industry. rewrite (foldl_same warnings); [done|].
  intros a' c. unfold add_company. rewrite (foldl_same warnings); [done|].
  intros. apply add_waste_warnings.
Qed.

Lemma regulations_warnings l st :
  inv st →
  warnings (foldl add_regulation st l)
  = warnings st
    ++ (reg ← l;
        wasteName ← appliesTo reg;
        if decide (wasteName ∈ dom (wasteNodesByName st)) then []
        else [unknown_waste reg wasteName]).
Proof.
  revert st. induction l as [|reg l IH]; intros st Hinv; csimpl.
  { by rewrite app_nil_r. }
  rewrite IH by (by apply add_regulation_inv).
  rewrite add_regulation_warnings, add_regulation_wastes by done.
  by rewrite <- app_assoc.
Qed.

Lemma phase2_warnings T : warnings (phase2 T) = regulation_warnings T.
Proof.
  unfold phase2, regulation_warnings.
  rewrite regulations_warnings by apply phase1_inv.
  by rewrite phase1_warnings, phase1_dom.
Qed.

Lemma run_warnings T : warnings (run T) = regulation_warnings T.
Proof.
  rewrite run_phases, <- phase2_warnings.
  rewrite (foldl_same warnings).
  - unfold phase3. rewrite (foldl_same warnings); [done|].
    intros a entry. unfold add_upcycle. rewrite (foldl_same warnings); [done|].
    intros a' wn. destruct (truthy _); [|done]. by rewrite (foldl_same warnings).
  - intros a entry. unfold add_complements. destruct (truthy _); [|done].
    rewrite (foldl_same warnings); [done|].
    intros a' wn. by destruct (truthy _).
Qed.

Lemma add_waste_companies T ind cid c st w :
  companyNodes (add_waste T ind cid c st w) = companyNodes st.
Proof. unfold add_waste. by destruct (wasteNodesByName st !! w_name w). Qed.

Lemma add_company_consumers T ind st c nm :
  consumers_of nm (add_company T ind st c)
  = consumers_of nm st + (if decide (i_name ind = nm) then 1 else 0).
Proof.
  unfold consumers_of, add_company.
  rewrite (foldl_same companyNodes) by (intros; apply add_waste_companies).
  simpl. rewrite filter_app, length_app, filter_cons, filter_nil. simpl.
  by destruct (decide (i_name ind = nm)).
Qed.

Lemma phase1_consumers T nm : consumers_of nm (phase1 T) = companies_in T nm.
Proof.
  unfold phase1, companies_in.
  rewrite (foldl_measure (consumers_of nm) _
             (λ ind, if decide (i_name ind = nm) then length (companies ind) else 0));
    [done|].
  intros a ind. unfold add_industry.
  rewrite (foldl_measure (consumers_of nm) _
             (λ _, if decide (i_name ind = nm) then 1 else 0))
    by (intros; apply add_company_consumers).
  rewrite sum_list_const. destruct (decide (i_name ind = nm)); lia.
Qed.

Lemma add_regulation_companies st reg :
  companyNodes (add_regulation st reg) = companyNodes st.
Proof.
  unfold add_regulation. rewrite (foldl_same companyNodes); [done|].
  intros a wn. by destruct (truthy _).
Qed.

Lemma add_upcycle_companies st entry :
  companyNodes (add_upcycle st entry) = companyNodes st.
Proof.
  unfold add_upcycle. rewrite (foldl_same companyNodes); [done|].
  intros a wn. destruct (truthy _); [|done]. by rewrite (foldl_same companyNodes).
Qed.

Lemma add_regulation_count_edges st reg t :
  inv st →
  count_edges t (add_regulation st reg)
  = count_edges t st
    + (if decide (REQUIRES_COMPLIANCE = t)
       then length (filter (λ wn, wn ∈ dom (wasteNodesByName st)) (appliesTo reg))
       else 0).
Proof.
  intros Hinv. unfold add_regulation.
  match goal with |- context [foldl _ ?s _] => set (st1 := s) end.
  assert (Hinv1 : inv st1).
  { eapply (inv_push_node st st1);
      [done|simpl; reflexivity|done|done|done|done|
       |first [done|by eexists]|].
    - simpl. intros nm wid. split; [by left|]. by intros [?|[? _]].
    - simpl. by left. }
  assert (Hreg : has_node (nodes st1) (id (regulation_node reg st)) Regulation).
  { apply (has_node_last (nodes st)). }
  change (count_edges t st) with (count_edges t st1).
  change (wasteNodesByName st) with (wasteNodesByName st1).
  generalize dependent st1. clear Hinv.
  induction (appliesTo reg) as [|wn l IH]; intros a Ha Hreg; csimpl.
  { destruct (decide (REQUIRES_COMPLIANCE = t)); simpl; lia. }
  rewrite filter_cons.
  destruct (truthy (wasteNodesByName a !! wn)) as [wid|] eqn:Ht.
  - apply truthy_Some in Ht as [Ht _].
    rewrite IH.
    + rewrite count_edges_push. simpl.
      rewrite (decide_True (P := wn ∈ _)) by (by apply elem_of_dom_2 in Ht).
      destruct (decide (REQUIRES_COMPLIANCE = t)); simpl; lia.
    + apply (inv_wastes _ Ha) in Ht as (n & Hn & Htn & Hid & _).
      apply (inv_push_edge _ _ _ _ _ _ WasteMaterial Regulation); [done|done| |done].
      by exists n.
    + done.
  - rewrite IH; [|by apply inv_warn|done].
    simpl. rewrite (decide_False (P := wn ∈ _)) by (by apply inv_truthy_None). done.
Qed.

Lemma upcycle_consumers st wid wn cs t :
  inv st → has_node (nodes st) wid WasteMaterial →
  (∀ r, r ∈ cs → has_node (nodes st) (ref_id r) Company) →
  let st' := foldl (λ st'' consumer,
                      push_edge CAN_UPCYCLE (ref_id consumer) wid
                        (ref_name consumer) wn st'') st cs in
  inv st' ∧ nodes st' = nodes st ∧ wasteNodesByName st' = wasteNodesByName st
  ∧ count_edges t st'
    = count_edges t st + (if decide (CAN_UPCYCLE = t) then length cs else 0).
Proof.
  revert st. induction cs as [|r cs IH]; intros st Hinv Hw Hcs; simpl.
  { do 3 (split; [done|]). destruct (decide (CAN_UPCYCLE = t)); lia. }
  destruct (IH (push_edge CAN_UPCYCLE (ref_id r) wid (ref_name r) wn st))
    as (H1 & H2 & H3 & H4); try done.
  - apply (inv_push_edge _ _ _ _ _ _ Company WasteMaterial); [done|done| |done].
    apply Hcs. by left.
  - intros r' Hr'. apply Hcs. by right.
  - do 3 (split; [done|]). rewrite H4, count_edges_push.
    destruct (decide (CAN_UPCYCLE = t)); lia.
Qed.

Lemma upcycle_wastes_count (cs : list company_ref) l a t :
  inv a → (∀ r, r ∈ cs → has_node (nodes a) (ref_id r) Company) →
  count_edges t
    (foldl (λ st' wasteName,
              match truthy (wasteNodesByName st' !! wasteName) with
              | None => st'
              | Some wasteId =>
                  foldl (λ st'' consumer,
                           push_edge CAN_UPCYCLE (ref_id consumer) wasteId
                             (ref_name consumer) wasteName st'')
                        st' cs
              end) a l)
  = count_edges t a
    + (if decide (CAN_UPCYCLE = t)
       then length (filter (λ wn, wn ∈ dom (wasteNodesByName a)) l) * length cs
       else 0).
Proof.
  revert a. induction l as [|wn l IH]; intros a Ha Hcs; csimpl.
  { destruct (decide (CAN_UPCYCLE = t)); simpl; lia. }
  rewrite filter_cons.
  destruct (truthy (wasteNodesByName a !! wn)) as [wid|] eqn:Ht.
  - apply truthy_Some in Ht as [Ht _].
    assert (Hwid : has_node (nodes a) wid WasteMaterial).
    { apply (inv_wastes _ Ha) in Ht as (n & Hn' & Htn & Hid & _). by exists n. }
    destruct (upcycle_consumers a wid wn cs t Ha Hwid Hcs) as (H1 & H2 & H3 & H4).
    rewrite IH; [|done|by rewrite H2].
    rewrite H4, H3.
    rewrite (decide_True (P := wn ∈ _)) by (by apply elem_of_dom_2 in Ht).
    destruct (decide (CAN_UPCYCLE = t)); simpl; lia.
  - rewrite IH by done.
    rewrite (decide_False (P := wn ∈ _)) by (by apply inv_truthy_None). done.
Qed.

Lemma add_upcycle_count_edges st entry t :
  inv st →
  count_edges t (add_upcycle st entry)
  = count_edges t st
    + (if decide (CAN_UPCYCLE = t)
       then length (filter (λ wn, wn ∈ dom (wasteNodesByName st)) entry.2)
            * consumers_of entry.1 st
       else 0).
Proof.
  intros Hinv. unfold add_upcycle, consumers_of.
  apply upcycle_wastes_count; [done|].
  intros r Hr. apply list_elem_of_filter in Hr as [_ Hr]. by apply inv_has_company.
Qed.

Lemma complements_targets_count (sid src' : string) l a t :
  inv a → has_node (nodes a) sid WasteMaterial →
  count_edges t
    (foldl (λ st' targetName,
              match truthy (wasteNodesByName st' !! targetName) with
              | None => st'
              | Some targetId =>
                  push_edge COMPLEMENTS sid targetId src' targetName st'
              end) a l)
  = count_edges t a
    + (if decide (COMPLEMENTS = t)
       then length (filter (λ wn, wn ∈ dom (wasteNodesByName a)) l)
       else 0).
Proof.
  revert a. induction l as [|wn l IH]; intros a Ha Hsid; csimpl.
  { destruct (decide (COMPLEMENTS = t)); simpl; lia. }
  rewrite filter_cons.
  destruct (truthy (wasteNodesByName a !! wn)) as [wid|] eqn:Ht.
  - apply truthy_Some in Ht as [Ht _].
    rewrite IH; [| |done].
    + rewrite count_edges_push. simpl.
      rewrite (decide_True (P := wn ∈ _)) by (by apply elem_of_dom_2 in Ht).
      destruct (decide (COMPLEMENTS = t)); simpl; lia.
    + apply (inv_wastes _ Ha) in Ht as (n & Hn' & Htn & Hid & _).
      apply (inv_push_edge _ _ _ _ _ _ WasteMaterial WasteMaterial);
        [done|done|done|]. by exists n.
  - rewrite IH by done.
    rewrite (decide_False (P := wn ∈ _)) by (by apply inv_truthy_None). done.
Qed.

Lemma add_complements_count_edges st entry t :
  inv st →
  count_edges t (add_complements st entry)
  = count_edges t st
    + (if decide (COMPLEMENTS = t)
       then if decide (entry.1 ∈ dom (wasteNodesByName st))
            then length (filter (λ wn, wn ∈ dom (wasteNodesByName st)) entry.2)
            else 0
       else 0).
Proof.
  intros Hinv. unfold add_complements.
  destruct (truthy (wasteNodesByName st !! entry.1)) as [sid|] eqn:Hs.
  - apply truthy_Some in Hs as [Hs _].
    rewrite (decide_True (P := entry.1 ∈ _)) by (by apply elem_of_dom_2 in Hs).
    apply complements_targets_count; [done|].
    apply (inv_wastes _ Hinv) in Hs as (n & Hn' & Htn & Hid & _). by exists n.
  - rewrite (decide_False (P := entry.1 ∈ _)) by (by apply inv_truthy_None).
    destruct (decide (COMPLEMENTS = t)); lia.
Qed.

Lemma foldl_measure_inv {B} (m : state → nat) (f : state → B → state) (d : B → nat)
    (I : state → Prop) l a :
  I a → (∀ a x, I a → I (f a x) ∧ m (f a x) = m a + d x) →
  I (foldl f a l) ∧ m (foldl f a l) = m a + sum_list (d <$> l).
Proof.
  intros Ha Hf. revert a Ha. induction l as [|x l IH]; intros a Ha; csimpl.
  { split; [done|lia]. }
  destruct (Hf a x Ha) as [H1 H2]. destruct (IH _ H1) as [H3 H4].
  split; [done|]. rewrite H4, H2. lia.
Qed.

Lemma run_count_edges T t : count_edges t (run T) = expected_edges T t.
Proof.
  set (I1 := λ a, inv a ∧ dom (wasteNodesByName a) = waste_names T).
  set (I2 := λ a, I1 a ∧ ∀ nm, consumers_of nm a = companies_in T nm).
  assert (H1 : I1 (phase1 T)) by (split; [apply phase1_inv|apply phase1_dom]).
  destruct (foldl_measure_inv (count_edges t) add_regulation
              (λ reg, if decide (REQUIRES_COMPLIANCE = t)
                      then length (known T (appliesTo reg)) else 0)
              I2 (REGULATIONS T) (phase1 T)) as [H2 E2].
  { split; [done|]. intros nm. apply phase1_consumers. }
  { intros a reg [[Ha Hd] Hc]. split; [split; [split|]|].
    - by apply add_regulation_inv.
    - by rewrite add_regulation_wastes.
    - intros nm. unfold consumers_of. rewrite add_regulation_companies. apply Hc.
    - rewrite add_regulation_count_edges by done. by rewrite Hd. }
  fold (phase2 T) in H2, E2.
  destruct (foldl_measure_inv (count_edges t) add_upcycle
              (λ entry, if decide (CAN_UPCYCLE = t)
                        then length (known T entry.2) * companies_in T entry.1
                        else 0)
              I2 (UPCYCLE_MAP T) (phase2 T)) as [H3 E3]; [done| |].
  { intros a entry [[Ha Hd] Hc]. split; [split; [split|]|].
    - by apply add_upcycle_inv.
    - by rewrite add_upcycle_wastes.
    - intros nm. unfold consumers_of. rewrite add_upcycle_companies. apply Hc.
    - rewrite add_upcycle_count_edges by done. by rewrite Hd, Hc. }
  fold (phase3 T) in H3, E3.
  destruct (foldl_measure_inv (count_edges t) add_complements
              (λ entry, if decide (COMPLEMENTS = t)
                        then if decide (entry.1 ∈ waste_names T)
                             then length (known T entry.2) else 0
                        else 0)
              I1 (COMPLEMENTS_MAP T) (phase3 T)) as [_ E4]; [apply H3| |].
  { intros a entry [Ha Hd]. split; [split|].
    - by apply add_complements_inv.
    - by rewrite add_complements_wastes.
    - rewrite add_complements_count_edges by done. by rewrite Hd. }
  rewrite run_phases, E4, E3, E2, phase1_edges.
  destruct t; simpl; rewrite ?sum_list_const; lia.
Qed.

Lemma length_by_edge_type (es : list edge) :
  length es
  = length (filter (λ e, edge_type e = PRODUCES) es)
    + length (filter (λ e, edge_type e = CAN_UPCYCLE) es)
    + length (filter (λ e, edge_type e = REQUIRES_COMPLIANCE) es)
    + length (filter (λ e, edge_type e = COMPLEMENTS) es)
    + length (filter (λ e, edge_type e = POTENTIAL_MATCH) es)
    + length (filter (λ e, edge_type e = IS_SEEKING) es).
Proof.
  induction es as [|e es IH]; [done|].
  rewrite !filter_cons. destruct (edge_type e); simpl; lia.
Qed.

(** X16: on plain tables the ids of the nodes are pairwise distinct: the
    k-th node pushed (counting from 1) has the id made of the prefix of its
    type, "company_", "waste_" or "reg_", and the decimal k, since the one
    counter [nodeId] numbers all three kinds. *)
Theorem X16_node_ids (T : tables) :
  plain T = true →
  NoDup (id <$> (generate T).1)
  ∧ ∀ k n, (generate T).1 !! k = Some n →
           id n = (id_prefix (type n) ++ pretty (S k))%string.
Proof.
  intros _. destruct (run_inv T) as [Hinv _]. split.
  - by apply inv_ids_NoDup.
  - apply (inv_node_ids _ Hinv).
Qed.

Lemma X16_node_ids_witness :
  plain steel_tables = true
  ∧ NoDup (id <$> (generate steel_tables).1)
  ∧ id <$> (generate steel_tables).1
    = ["company_1"; "waste_2"; "waste_3"; "company_4"; "reg_5"].
Proof.
  assert (plain steel_tables = true) as Hp by reflexivity.
  split; [exact Hp|]. split; [exact (proj1 (X16_node_ids steel_tables Hp))|].
  vm_compute. reflexivity.
Defined.

(** X17: on plain tables the ids of the edges are pairwise distinct: the
    k-th edge pushed (counting from 1) has the id "edge_" followed by the
    decimal k. *)
Theorem X17_edge_ids (T : tables) :
  plain T = true →
  NoDup (edge_id <$> (generate T).2)
  ∧ ∀ k e, (generate T).2 !! k = Some e →
           edge_id e = ("edge_" ++ pretty (S k))%string.
Proof.
  intros _. destruct (run_inv T) as [Hinv _]. split.
  - by apply inv_edge_ids_NoDup.
  - apply (inv_edge_ids _ Hinv).
Qed.

Lemma X17_edge_ids_witness :
  plain steel_tables = true
  ∧ NoDup (edge_id <$> (generate steel_tables).2)
  ∧ length (generate steel_tables).2 = 9.
Proof.
  assert (plain steel_tables = true) as Hp by reflexivity.
  split; [exact Hp|]. split; [exact (proj1 (X17_edge_ids steel_tables Hp))|].
  vm_compute. reflexivity.
Defined.

(** X18: on plain tables no edge of the generated graph dangles: its
    source and its target are ids of generated nodes, a Company and a
    WasteMaterial for PRODUCES and CAN_UPCYCLE, a WasteMaterial and a
    Regulation for REQUIRES_COMPLIANCE, two WasteMaterials for COMPLEMENTS;
    no edge of another type is generated. *)
Theorem X18_edge_endpoints (T : tables) (e : edge) :
  plain T = true → e ∈ (generate T).2 → edge_ok (generate T).1 e.
Proof. intros _. destruct (run_inv T) as [Hinv _]. apply (inv_edges _ Hinv). Qed.

Lemma X18_edge_endpoints_witness :
  let e := {| edge_id := "edge_7"; edge_type := CAN_UPCYCLE;
              source := "company_1"; target := "waste_3";
              edge_properties :=
                [("source_label", JString "ArcelorMittal Flat Carbon");
                 ("target_label", JString "Mill Scale")] |} in
  plain steel_tables = true
  ∧ e ∈ (generate steel_tables).2 ∧ edge_ok (generate steel_tables).1 e.
Proof.
  intros e.
  assert (plain steel_tables = true) as Hp by reflexivity.
  assert (e ∈ (generate steel_tables).2) as He.
  { apply (list_elem_of_lookup_2 _ 6). vm_compute. reflexivity. }
  split; [exact Hp|]. split; [exact He|].
  exact (X18_edge_endpoints steel_tables e Hp He).
Defined.

(** X19: on plain tables the graph has one WasteMaterial node for each name
    of a waste of an industry that has a company, and no other: a waste
    listed by several industries, or several times, gets the node of its
    first visit. *)
Theorem X19_waste_nodes (T : tables) :
  plain T = true →
  (∀ nm, nm ∈ waste_names T ↔
         ∃ n, n ∈ (generate T).1 ∧ type n = WasteMaterial
              ∧ name_of n = Some (JString nm))
  ∧ (∀ n m, n ∈ (generate T).1 → m ∈ (generate T).1 →
            type n = WasteMaterial → type m = WasteMaterial →
            name_of n = name_of m → n = m).
Proof.
  intros _. destruct (run_inv T) as [Hinv _]. split.
  - intros nm. rewrite <- phase1_dom, <- run_wastes, elem_of_dom. split.
    + intros [wid Hl]. apply (inv_wastes _ Hinv) in Hl as (n & Hn & Ht & _ & Hnm).
      by exists n.
    + intros (n & Hn & Ht & Hnm). exists (id n). apply (inv_wastes _ Hinv). by exists n.
  - intros n m Hn Hm Htn Htm Heq.
    destruct (inv_named _ Hinv n Hn Htn) as [a Ha].
    apply (inv_waste_unique (run T) n m a); try done. by rewrite <- Heq.
Qed.

Lemma X19_waste_nodes_witness :
  plain steel_tables = true
  ∧ "Mill Scale" ∈ waste_names steel_tables
  ∧ ∃ n, n ∈ (generate steel_tables).1 ∧ type n = WasteMaterial
         ∧ name_of n = Some (JString "Mill Scale").
Proof.
  assert (plain steel_tables = true) as Hp by reflexivity.
  assert ("Mill Scale" ∈ waste_names steel_tables) as Hin.
  { apply (bool_decide_unpack _). vm_compute. exact I. }
  split; [exact Hp|]. split; [exact Hin|].
  exact (proj1 (proj1 (X19_waste_nodes steel_tables Hp) "Mill Scale") Hin).
Defined.

(** X20: on plain tables the number of nodes is the number of companies,
    plus the number of distinct names of wastes of industries that have a
    company, plus the number of regulations. *)
Theorem X20_node_count (T : tables) :
  plain T = true →
  length (generate T).1
  = length (INDUSTRIES T ≫= companies) + size (waste_names T)
    + length (REGULATIONS T).
Proof.
  intros _.
  destruct (run_inv T) as [Hinv _]. simpl. rewrite (length_by_type (nodes (run T))).
  fold (count_type Company (run T)). fold (count_type WasteMaterial (run T)).
  fold (count_type Regulation (run T)).
  rewrite (run_count T Company), (run_count T Regulation) by done.
  by rewrite (inv_waste_count _ Hinv), run_wastes, phase1_dom.
Qed.

Lemma X20_node_count_witness :
  plain steel_tables = true
  ∧ length (generate steel_tables).1
    = length (INDUSTRIES steel_tables ≫= companies)
      + size (waste_names steel_tables) + length (REGULATIONS steel_tables)
  ∧ length (generate steel_tables).1 = 5.
Proof.
  assert (plain steel_tables = true) as Hp by reflexivity.
  split; [exact Hp|]. split; [exact (X20_node_count steel_tables Hp)|].
  vm_compute. reflexivity.
Defined.

(** X21: on plain tables, for every company of an industry and every waste
    of that industry the graph has a PRODUCES edge from the node of the
    company (of that name and industry) to the one node of the waste's
    name. *)
Theorem X21_produces (T : tables) (ind : industry) (c : company) (w : waste) :
  plain T = true →
  ind ∈ INDUSTRIES T → c ∈ companies ind → w ∈ wastes ind →
  ∃ cn wn e, cn ∈ (generate T).1 ∧ wn ∈ (generate T).1 ∧ e ∈ (generate T).2
    ∧ type cn = Company ∧ name_of cn = Some (JString (c_name c))
    ∧ get (properties cn) "industry" = Some (JString (i_name ind))
    ∧ type wn = WasteMaterial ∧ name_of wn = Some (JString (w_name w))
    ∧ edge_type e = PRODUCES ∧ source e = id cn ∧ target e = id wn.
Proof.
  intros _ Hind Hc Hw. destruct (run_inv T) as [Hinv _].
  destruct (run_company_done T ind c Hind Hc) as (r & Hr & Hn & Hi & Hp).
  apply (produced_nodes (run T) r w ind c); try done. by apply Hp.
Qed.

Lemma X21_produces_witness :
  plain steel_tables = true
  ∧ steel ∈ INDUSTRIES steel_tables ∧ tata ∈ companies steel
  ∧ mill_scale ∈ wastes steel
  ∧ ∃ cn wn e, cn ∈ (generate steel_tables).1 ∧ wn ∈ (generate steel_tables).1
      ∧ e ∈ (generate steel_tables).2
      ∧ type cn = Company ∧ name_of cn = Some (JString "Tata Steel Europe")
      ∧ get (properties cn) "industry" = Some (JString "Steel Production")
      ∧ type wn = WasteMaterial ∧ name_of wn = Some (JString "Mill Scale")
      ∧ edge_type e = PRODUCES ∧ source e = id cn ∧ target e = id wn.
Proof.
  assert (plain steel_tables = true) as Hp by reflexivity.
  assert (steel ∈ INDUSTRIES steel_tables) as Hi by (simpl; left).
  assert (tata ∈ companies steel) as Hc by (simpl; right; left).
  assert (mill_scale ∈ wastes steel) as Hw by (simpl; right; left).
  split; [exact Hp|]. split; [exact Hi|]. split; [exact Hc|]. split; [exact Hw|].
  exact (X21_produces steel_tables steel tata mill_scale Hp Hi Hc Hw).
Defined.

(** X22: on plain tables the number of edges of each type is fixed by the
    tables, whatever the random numbers: one PRODUCES edge per company and
    waste entry of its industry; one REQUIRES_COMPLIANCE edge per name a
    regulation applies to that is the name of a generated waste; one
    CAN_UPCYCLE edge per entry of UPCYCLE_MAP, such name in it and company
    of an industry of the entry's name; one COMPLEMENTS edge per entry of
    COMPLEMENTS_MAP whose key is such a name and such name in it; no other
    edge. *)
Theorem X22_edge_counts (T : tables) :
  plain T = true →
  (∀ t, length (filter (λ e, edge_type e = t) (generate T).2) = expected_edges T t)
  ∧ length (generate T).2
    = expected_edges T PRODUCES + expected_edges T REQUIRES_COMPLIANCE
      + expected_edges T CAN_UPCYCLE + expected_edges T COMPLEMENTS.
Proof.
  intros _. split; [apply run_count_edges|].
  simpl. rewrite (length_by_edge_type (edges (run T))).
  fold (count_edges PRODUCES (run T)). fold (count_edges CAN_UPCYCLE (run T)).
  fold (count_edges REQUIRES_COMPLIANCE (run T)).
  fold (count_edges COMPLEMENTS (run T)).
  fold (count_edges POTENTIAL_MATCH (run T)). fold (count_edges IS_SEEKING (run T)).
  rewrite !run_count_edges. simpl. lia.
Qed.

Lemma X22_edge_counts_witness :
  plain steel_tables = true
  ∧ length (generate steel_tables).2
    = expected_edges steel_tables PRODUCES
      + expected_edges steel_tables REQUIRES_COMPLIANCE
      + expected_edges steel_tables CAN_UPCYCLE
      + expected_edges steel_tables COMPLEMENTS
  ∧ expected_edges steel_tables PRODUCES = 4
  ∧ expected_edges steel_tables REQUIRES_COMPLIANCE = 2
  ∧ expected_edges steel_tables CAN_UPCYCLE = 2
  ∧ expected_edges steel_tables COMPLEMENTS = 1.
Proof.
  assert (plain steel_tables = true) as Hp by reflexivity.
  split; [exact Hp|]. split; [exact (proj2 (X22_edge_counts steel_tables Hp))|].
  repeat split; vm_compute; reflexivity.
Defined.

(** X23: on plain tables, when UPCYCLE_MAP lists, under the name of an
    industry, a waste of that same industry, each company of the industry
    gets two edges to the one node of that waste, a PRODUCES edge and a
    CAN_UPCYCLE edge: the generated graph links a company to a material
    twice. *)
Theorem X23_double_link (T : tables) (ind : industry) (c : company) (w : waste)
    (entry : string * list string) :
  plain T = true →
  ind ∈ INDUSTRIES T → c ∈ companies ind → w ∈ wastes ind →
  entry ∈ UPCYCLE_MAP T → entry.1 = i_name ind → w_name w ∈ entry.2 →
  ∃ cn wn e1 e2, cn ∈ (generate T).1 ∧ wn ∈ (generate T).1
    ∧ e1 ∈ (generate T).2 ∧ e2 ∈ (generate T).2
    ∧ type cn = Company ∧ name_of cn = Some (JString (c_name c))
    ∧ type wn = WasteMaterial ∧ name_of wn = Some (JString (w_name w))
    ∧ edge_type e1 = PRODUCES ∧ edge_type e2 = CAN_UPCYCLE
    ∧ source e1 = id cn ∧ target e1 = id wn
    ∧ source e2 = id cn ∧ target e2 = id wn.
Proof.
  intros _ Hind Hc Hw Hentry Hname Hin.
  destruct (run_inv T) as [Hinv Hext3]. destruct (phase2_inv T) as [Hinv2 Hext1].
  destruct (phase3_inv T) as [_ Hext2].
  destruct (phase1_done T ind c Hind Hc) as (r & Hr & Hn & Hi & Hp).
  assert (Hp2 : produced (phase2 T) r w).
  { eapply produced_extends; [apply Hext1|]. by apply Hp. }
  assert (Hr2 : r ∈ companyNodes (phase2 T)).
  { eapply prefix_elem_of; [apply Hext1|done]. }
  destruct Hp2 as (wid & e1 & Hl & He1 & Ht1 & Hs1 & Htg1).
  destruct (phase3_done T entry (w_name w) r wid) as (e2 & He2 & Ht2 & Hs2 & Htg2);
    try done; [congruence|].
  assert (Hext : extends (phase2 T) (run T)) by (by etrans).
  destruct (inv_companies _ Hinv r) as (cn & Hcn & Htc & Hidc & Hnc & _).
  { eapply prefix_elem_of; [apply Hext|done]. }
  assert (Hl' : wasteNodesByName (run T) !! w_name w = Some wid).
  { eapply lookup_weaken; [done|apply Hext]. }
  apply (inv_wastes _ Hinv) in Hl' as (wn & Hwn & Htw & Hidw & Hnw).
  exists cn, wn, e1, e2. rewrite <- Hn.
  repeat split; try done; try congruence.
  - eapply prefix_elem_of; [apply Hext|done].
  - eapply prefix_elem_of; [apply Hext3|done].
Qed.

Lemma X23_double_link_witness :
  plain steel_tables = true
  ∧ steel ∈ INDUSTRIES steel_tables ∧ arcelor ∈ companies steel
  ∧ mill_scale ∈ wastes steel ∧ steel_upcycle ∈ UPCYCLE_MAP steel_tables
  ∧ steel_upcycle.1 = i_name steel ∧ w_name mill_scale ∈ steel_upcycle.2
  ∧ ∃ cn wn e1 e2, cn ∈ (generate steel_tables).1 ∧ wn ∈ (generate steel_tables).1
      ∧ e1 ∈ (generate steel_tables).2 ∧ e2 ∈ (generate steel_tables).2
      ∧ type cn = Company ∧ name_of cn = Some (JString "ArcelorMittal Flat Carbon")
      ∧ type wn = WasteMaterial ∧ name_of wn = Some (JString "Mill Scale")
      ∧ edge_type e1 = PRODUCES ∧ edge_type e2 = CAN_UPCYCLE
      ∧ source e1 = id cn ∧ target e1 = id wn
      ∧ source e2 = id cn ∧ target e2 = id wn.
Proof.
  assert (plain steel_tables = true) as Hp by reflexivity.
  assert (steel ∈ INDUSTRIES steel_tables) as Hi by (simpl; left).
  assert (arcelor ∈ companies steel) as Hc by (simpl; left).
  assert (mill_scale ∈ wastes steel) as Hw by (simpl; right; left).
  assert (steel_upcycle ∈ UPCYCLE_MAP steel_tables) as He by (simpl; left).
  assert (steel_upcycle.1 = i_name steel) as Hn by reflexivity.
  assert (w_name mill_scale ∈ steel_upcycle.2) as Hm by (simpl; left).
  do 7 (split; [assumption|]).
  exact (X23_double_link steel_tables steel arcelor mill_scale steel_upcycle
           Hp Hi Hc Hw He Hn Hm).
Defined.

(** X24: on plain tables, when every random number lies in [0, 1), as
    those of [Math.random] do, every Company node has a capacity from 500
    to 9999 and every WasteMaterial node a quantity from 1 to 500 and a
    price within the range of its category (10 to 500 for a category
    without a range), both ends included. *)
Theorem X24_numeric_ranges (T : tables) (n : node) :
  plain T = true →
  (∀ k, (0 <= random T k)%Q ∧ (random T k < 1)%Q) →
  n ∈ (generate T).1 → in_range n.
Proof. intros _. apply generate_in_range. Qed.

Lemma X24_numeric_ranges_witness :
  plain steel_tables = true
  ∧ (∀ k, (0 <= random steel_tables k)%Q ∧ (random steel_tables k < 1)%Q)
  ∧ waste_node steel_tables steel slag at_first_waste ∈ (generate steel_tables).1
  ∧ in_range (waste_node steel_tables steel slag at_first_waste).
Proof.
  assert (plain steel_tables = true) as Hp by reflexivity.
  assert (∀ k, (0 <= random steel_tables k)%Q ∧ (random steel_tables k < 1)%Q) as Hr.
  { intros k. split; vm_compute; discriminate || reflexivity. }
  assert (waste_node steel_tables steel slag at_first_waste
          ∈ (generate steel_tables).1) as Hn.
  { apply (list_elem_of_lookup_2 _ 1). vm_compute. reflexivity. }
  split; [exact Hp|]. split; [exact Hr|]. split; [exact Hn|].
  exact (X24_numeric_ranges steel_tables _ Hp Hr Hn).
Defined.

(** X25: on plain tables the run warns once for each name a regulation
    applies to that is not the name of a generated waste, in the order of
    the table, and for nothing else. *)
Theorem X25_regulation_warnings (T : tables) :
  plain T = true → warnings (run T) = regulation_warnings T.
Proof. intros _. apply run_warnings. Qed.

Lemma X25_regulation_warnings_witness :
  plain steel_tables = true
  ∧ warnings (run steel_tables) = regulation_warnings steel_tables
  ∧ regulation_warnings steel_tables
    = [unknown_waste
         {| code := "EU-WFD-2008/98/EC";
            description := "EU Waste Framework Directive";
            appliesTo := ["Blast Furnace Slag"; "Mill Scale"; "Cement Kiln Dust"] |}
         "Cement Kiln Dust"].
Proof.
  assert (plain steel_tables = true) as Hp by reflexivity.
  split; [exact Hp|]. split; [exact (X25_regulation_warnings steel_tables Hp)|].
  vm_compute. reflexivity.
Defined.

End generator.
